(** * Urban solar ray tracer (umi/trace.py): a shallow embedding

    The tracer of [ml-for-bem/umi/trace.py] works on floats.  Floats are read
    here as exact rationals ([Q]): every field operation, comparison and
    [floor] of the source is kept, rounding error is not modelled.  The
    transcendental library calls ([ti.atan2], [ti.cos], [ti.sin], [ti.sqrt],
    [np.pi]) are an interface, [MathLib]; general statements hold for every
    implementation of it, and [approx_lib] is an executable one used to run
    the model on concrete scenes.  The angle bookkeeping whose content is
    trigonometry itself is read over the reals in [Module RealAngles]. *)

From Stdlib Require Import ZArith QArith Qround Qabs Lia Lra Lqa Psatz List.
From Stdlib Require Reals.
From stdpp Require Import base option list strings gmap.

Local Open Scope Q_scope.

(** ** Numbers *)

(** [a < b] on floats, as a boolean. *)
Definition Qlt_bool (a b : Q) : bool := negb (Qle_bool b a).

(** [int(x)] of Python: truncation toward zero. *)
Definition Qtrunc (x : Q) : Z := if Qle_bool 0 x then Qfloor x else Qceiling x.

(** The float library the kernels call. *)
Class MathLib := {
  atan2 : Q -> Q -> Q;   (* ti.atan2(y, x) *)
  cos : Q -> Q;          (* ti.cos *)
  sin : Q -> Q;          (* ti.sin *)
  sqrt : Q -> Q;         (* ti.sqrt, np.linalg.norm *)
  pi : Q                 (* np.pi *)
}.

(** ** Vectors *)

Record vec2 := Vec2 { vx : Q; vy : Q }.
Record vec3 := Vec3 { v3x : Q; v3y : Q; v3z : Q }.

Definition vadd (a b : vec2) : vec2 := Vec2 (vx a + vx b) (vy a + vy b).
Definition vsub (a b : vec2) : vec2 := Vec2 (vx a - vx b) (vy a - vy b).
Definition vscale (k : Q) (a : vec2) : vec2 := Vec2 (k * vx a) (k * vy a).
Definition vdivs (a : vec2) (k : Q) : vec2 := Vec2 (vx a / k) (vy a / k).

(** Componentwise equality of float vectors. *)
Definition veq (a b : vec2) : Prop := vx a == vx b /\ vy a == vy b.

(** [np.cross(a, b)] on rows of length three. *)
Definition np_cross (a b : vec3) : vec3 :=
  Vec3 (v3y a * v3z b - v3z a * v3y b)
       (v3z a * v3x b - v3x a * v3z b)
       (v3x a * v3y b - v3y a * v3x b).

(** [np.linalg.norm] of a row of length two. *)
Definition norm `{MathLib} (a : vec2) : Q := sqrt (vx a * vx a + vy a * vy a).

(** ** Scene builder: [Tracer.extract_flat_edge_list] *)

(** [run_rise = (end_pts - start_pts) / norm], one edge. *)
Definition run_rise `{MathLib} (start_pt end_pt : vec2) : vec2 :=
  let d := vsub end_pt start_pt in vdivs d (norm d).

(** The normal stored for an edge whose unit slope is [rr]:
    [cross_test = (rr, 0)], [up = (0,0,1)],
    [normal = np.cross(up, cross_test)[:, :2]]. *)
Definition edge_normal (rr : vec2) : vec2 :=
  let cross_test := Vec3 (vx rr) (vy rr) 0 in
  let up := Vec3 0 0 1 in
  let normal := np_cross up cross_test in
  Vec2 (v3x normal) (v3y normal).

(** [lengths = np.linalg.norm(starts - ends, axis=1)], one edge. *)
Definition edge_length `{MathLib} (start_pt end_pt : vec2) : Q :=
  norm (vsub start_pt end_pt).

(** Sensor count of one edge of length [len]:
    [sensor_counts = (lengths - 2 * sensor_inset) / sensor_spacing]
    [sensor_counts = np.floor(np.where(sensor_counts >= 1, sensor_counts + 1, 0))]. *)
Definition sensor_count (sensor_inset sensor_spacing len : Q) : Z :=
  let sensor_counts := (len - 2 * sensor_inset) / sensor_spacing in
  Qfloor (if Qle_bool 1 sensor_counts then sensor_counts + 1 else 0).

(** ** Sky angles: [Sky.__init__] *)

(** [self.azimuthal_aperture = np.radians(360) / self.n_azimuths]. *)
Definition sky_azimuthal_aperture `{MathLib} (sky_n_azimuths : Z) : Q :=
  2 * pi / inject_Z sky_n_azimuths.

(** [self.elevational_aperture = np.radians(90 - 6) / self.n_elevations]. *)
Definition sky_elevational_aperture `{MathLib} (n_elevations : nat) : Q :=
  ((90 - 6) * pi / 180) / inject_Z (Z.of_nat n_elevations).

(** [elevational_aperture * np.arange(n_elevations) + elevational_aperture / 2]. *)
Definition sky_elevation_centers `{MathLib} (n_elevations : nat) : list Q :=
  map (fun e => sky_elevational_aperture n_elevations * inject_Z (Z.of_nat e)
                + sky_elevational_aperture n_elevations / 2)
      (seq 0 n_elevations).

(** [azimuths = np.arange(self.n_azimuths) * self.azimuth_inc]. *)
Definition tracer_azimuths (n_azimuths : nat) (azimuth_inc : Q) : list Q :=
  map (fun a => inject_Z (Z.of_nat a) * azimuth_inc) (seq 0 n_azimuths).

(** ** Data model *)

(** A float field that may hold a non-finite value: [None] is NaN.  Only the
    weight fields of [compute_edge_orientation_weights] need it; there every
    dividend is zero whenever the divisor is, so a failed division is 0/0. *)
Definition flt : Type := option Q.

Definition fadd (a b : flt) : flt :=
  match a, b with Some x, Some y => Some (x + y) | _, _ => None end.
Definition fdiv (a b : flt) : flt :=
  match a, b with
  | Some x, Some y => if Qeq_bool y 0 then None else Some (x / y)
  | _, _ => None
  end.
(** A comparison with NaN is false. *)
Definition flt_lt_bool (a : flt) (c : Q) : bool :=
  match a with Some x => Qlt_bool x c | None => false end.

Record Node := { node_height : Q }.

Record Building := {
  bldg_height : Q;
  bldg_n_floors : Q;
  archetype_ix : Z;
  edge_start_ix : Z;
  edge_end_ix : Z;
  edge_ct : Z;
  north_weight : flt;
  east_weight : flt;
  south_weight : flt;
  west_weight : flt;
  qualified_perim_length : Q;
  qualified_edge_weight_sum : flt
}.

Record Edge := {
  building_id : nat;
  e_start : vec2;
  e_end : vec2;
  slopevec : vec2;
  slope : Q;
  normal : vec2;
  normal_theta : Q;
  az_start_angle : Q;
  orientation : Z;
  edge_height : Q;
  weight : flt;
  qualified_length : Q;
  edge_n_floors : Z;
  sensor_start_ix : Z;
  sensor_end_ix : Z;
  sensor_ct : Z
}.

Record XYSensor := {
  hit_count : Z;
  loc : vec2;
  parent_edge_id : nat;
  xyz_sensor_start_ix : Z;
  xyz_sensor_ct : Z
}.

Record XYZSensor := {
  xyz_height : Q;
  rad : Q;
  parent_sensor_id : nat
}.

(** [ti.i8], [ti.i16]: two's complement wrap-around to [bits] bits. *)
Definition wrap_signed (bits z : Z) : Z :=
  ((z + 2 ^ (bits - 1)) mod 2 ^ bits - 2 ^ (bits - 1))%Z.
Definition to_i8 (z : Z) : Z := wrap_signed 8 z.
Definition to_i16 (z : Z) : Z := wrap_signed 16 z.

Record Hit := {
  loc_x_ix : Z;
  loc_y_ix : Z;
  hit_height : Q;
  hit_distance : Q
}.

(** What a read of a dynamic list past its end yields: a zero-filled cell. *)
Definition zero_hit : Hit :=
  {| loc_x_ix := 0; loc_y_ix := 0; hit_height := 0; hit_distance := 0 |}.

(** The hours of a year, the time axis of the sky and of the results. *)
Definition n_timesteps : nat := Z.to_nat 8760.

(** The tracer's configuration and the sky it reads: what [Tracer.__init__]
    stores and no kernel writes. *)
Record Config := {
  node_width : Q;
  sensor_inset : Q;
  sensor_normal_offset : Q;
  sensor_spacing : Q;
  f2f_height : Q;
  max_ray_length : Q;
  ray_step_size : Q;
  steps_per_unroll_loop : Z;
  n_azimuths : nat;
  n_elevations : nat;
  azimuth_inc : Q;
  sky_n_azimuths : Z;
  sky_normal_irradiance_field : nat -> Z -> nat -> Q;
  width : Q;
  length_ : Q
}.

(** The tracer object.  Dense float fields are functions of their indices;
    the sparse height grid is a finite map from cell indices to nodes (a cell
    is active iff it has a node); the bit-packed visibility mask is the set of
    its set bits; the dynamic hit lists are keyed by (xy sensor, azimuth). *)
Record Tracer := {
  config :> Config;
  nodes : gmap (Z * Z) Node;
  buildings : list Building;
  edges : list Edge;
  xy_sensors : list XYSensor;
  xyz_sensors : list XYZSensor;
  hits : gmap (nat * nat) (list Hit);
  azimuths : list Q;
  elevations : list Q;
  xyz_views : gset (nat * nat * nat);
  xyz_sensor_timesteps : nat -> nat -> Q
}.

Definition set_xyz_sensors (T : Tracer) (v : list XYZSensor) : Tracer :=
  {| config := config T; nodes := nodes T; buildings := buildings T;
     edges := edges T; xy_sensors := xy_sensors T; xyz_sensors := v;
     hits := hits T; azimuths := azimuths T; elevations := elevations T;
     xyz_views := xyz_views T; xyz_sensor_timesteps := xyz_sensor_timesteps T |}.

Definition set_xyz_views (T : Tracer) (v : gset (nat * nat * nat)) : Tracer :=
  {| config := config T; nodes := nodes T; buildings := buildings T;
     edges := edges T; xy_sensors := xy_sensors T; xyz_sensors := xyz_sensors T;
     hits := hits T; azimuths := azimuths T; elevations := elevations T;
     xyz_views := v; xyz_sensor_timesteps := xyz_sensor_timesteps T |}.

Definition set_xy_sensors (T : Tracer) (v : list XYSensor) : Tracer :=
  {| config := config T; nodes := nodes T; buildings := buildings T;
     edges := edges T; xy_sensors := v; xyz_sensors := xyz_sensors T;
     hits := hits T; azimuths := azimuths T; elevations := elevations T;
     xyz_views := xyz_views T; xyz_sensor_timesteps := xyz_sensor_timesteps T |}.

Definition set_hits (T : Tracer) (v : gmap (nat * nat) (list Hit)) : Tracer :=
  {| config := config T; nodes := nodes T; buildings := buildings T;
     edges := edges T; xy_sensors := xy_sensors T; xyz_sensors := xyz_sensors T;
     hits := v; azimuths := azimuths T; elevations := elevations T;
     xyz_views := xyz_views T; xyz_sensor_timesteps := xyz_sensor_timesteps T |}.

Definition set_xyz_sensor_timesteps (T : Tracer) (v : nat -> nat -> Q) : Tracer :=
  {| config := config T; nodes := nodes T; buildings := buildings T;
     edges := edges T; xy_sensors := xy_sensors T; xyz_sensors := xyz_sensors T;
     hits := hits T; azimuths := azimuths T; elevations := elevations T;
     xyz_views := xyz_views T; xyz_sensor_timesteps := v |}.

Definition set_edges (T : Tracer) (v : list Edge) : Tracer :=
  {| config := config T; nodes := nodes T; buildings := buildings T;
     edges := v; xy_sensors := xy_sensors T; xyz_sensors := xyz_sensors T;
     hits := hits T; azimuths := azimuths T; elevations := elevations T;
     xyz_views := xyz_views T; xyz_sensor_timesteps := xyz_sensor_timesteps T |}.

Definition set_buildings (T : Tracer) (v : list Building) : Tracer :=
  {| config := config T; nodes := nodes T; buildings := v;
     edges := edges T; xy_sensors := xy_sensors T; xyz_sensors := xyz_sensors T;
     hits := hits T; azimuths := azimuths T; elevations := elevations T;
     xyz_views := xyz_views T; xyz_sensor_timesteps := xyz_sensor_timesteps T |}.

(** ** Sky resampling: [Sky.reinhart_to_meridinal_parallel_sky] *)

(** A band of the sky is a list of patches, each a row of hourly radiances. *)

(** [a.repeat(k, axis=0)]: every row [k] times in a row. *)
Definition np_repeat {A : Type} (k : nat) (rows : list A) : list A :=
  rows ≫= replicate k.

(** [a.reshape(n_groups, g, 8760)] of an array of rows of 8760 values: the
    rows cut into [n_groups] groups of [g]; an error unless the sizes agree. *)
Fixpoint cut_groups {A : Type} (n_groups g : nat) (rows : list A) : list (list A) :=
  match n_groups with
  | O => []
  | S n => take g rows :: cut_groups n g (drop g rows)
  end.
Definition reshape_groups {A : Type} (n_groups g : nat) (rows : list A)
  : option (list (list A)) :=
  if bool_decide (length rows = n_groups * g)%nat
  then Some (cut_groups n_groups g rows) else None.

(** [group.mean(axis=0)]: the sum of the rows of the group over their number. *)
Definition row_mean (group : list (list Q)) : list Q :=
  match group with
  | [] => []
  | r :: rs =>
      map (fun x => x / inject_Z (Z.of_nat (length group)))
          (fold_left (zip_with Qplus) rs r)
  end.

(** The body of the loop over the elevation bands: subdivide each patch of
    the band, regroup to [n_azimuths] groups, take the mean of each group. *)
Definition resample_band (n_azimuths : nat) (elevation_patches : list (list Q))
  : option (list (list Q)) :=
  let patches_in_elevation := length elevation_patches in
  if bool_decide (patches_in_elevation = 0 \/ n_azimuths = 0)%nat then None
  else
    let lcm := Nat.lcm patches_in_elevation n_azimuths in
    let div_factor := (lcm / patches_in_elevation)%nat in
    let grouping_factor := (lcm / n_azimuths)%nat in
    let subdivided_patches := np_repeat div_factor elevation_patches in
    grouped_patches ← reshape_groups n_azimuths grouping_factor subdivided_patches;
    Some (map row_mean grouped_patches).

Definition base_patches_per_elevation : list nat := [30; 30; 24; 24; 18; 12; 6]%nat.

(** [base_patches_per_elevation.repeat(self.mfactor) * self.mfactor]. *)
Definition patches_per_elevation (mfactor : nat) : list nat :=
  map (fun b => (b * mfactor)%nat) (np_repeat mfactor base_patches_per_elevation).

(** The rows [start:end] of every band, from the band sizes. *)
Fixpoint split_bands {A : Type} (sizes : list nat) (rows : list A) : list (list A) :=
  match sizes with
  | [] => []
  | n :: r => take n rows :: split_bands r (drop n rows)
  end.

(** The radiance array of the resampled sky, band by band; the input has the
    ground patch first and the zenith patch last. *)
Definition reinhart_to_meridinal_parallel_sky (mfactor n_azimuths : nat)
    (sky_patch_timeseries : list (list Q)) : option (list (list (list Q))) :=
  let sizes := patches_per_elevation mfactor in
  if bool_decide (foldr Nat.add 0%nat sizes + 2 = length sky_patch_timeseries)%nat then
    let inner := take (length sky_patch_timeseries - 2) (drop 1 sky_patch_timeseries) in
    mapM (resample_band n_azimuths) (split_bands sizes inner)
  else None.

(** ** Edge properties and sensor layout *)

(** Python's float [x % m]: the remainder has the sign of [m]. *)
Definition fmod (x m : Q) : Q := x - inject_Z (Qfloor (x / m)) * m.

(** One edge of [extract_flat_edge_list] followed by [update_edge_properties]:
    the fields loaded from the flattened arrays, then slope, normal angle,
    orientation bin and azimuth start angle. *)
Definition make_edge `{MathLib} (cfg : Config) (bid : nat) (height : Q)
    (start_pt end_pt : vec2) (sensor_start : Z) : Edge :=
  let rr := run_rise start_pt end_pt in
  let nrm := edge_normal rr in
  let xm := vx rr in
  let ym := vy rr in
  let slope := ym / xm in
  let normal_theta := atan2 (vy nrm) (vx nrm) in
  let orientation :=
    to_i8 (Qfloor (fmod ((fmod (normal_theta + 2 * pi) (2 * pi) + pi / 4) / (pi / 2)) 4)) in
  let az_start_angle := normal_theta - pi * (1 # 2) + azimuth_inc cfg / 2 in
  let ct := sensor_count (sensor_inset cfg) (sensor_spacing cfg)
              (edge_length start_pt end_pt) in
  {| building_id := bid; e_start := start_pt; e_end := end_pt; slopevec := rr;
     slope := slope; normal := nrm; normal_theta := normal_theta;
     az_start_angle := az_start_angle; orientation := orientation;
     edge_height := height; weight := Some 0; qualified_length := 0;
     edge_n_floors := to_i8 (Qceiling (height / f2f_height cfg));
     sensor_start_ix := sensor_start; sensor_end_ix := (sensor_start + ct)%Z;
     sensor_ct := ct |}.

(** The edges of one polygon ring:
    [start_pts = np.array(geom.boundary.coords)[:-1]] (the closing vertex
    dropped), [end_pts = np.roll(start_pts, shift=-1, axis=0)]. *)
Definition polygon_edges (boundary_coords : list vec2) : list (vec2 * vec2) :=
  let start_pts := removelast boundary_coords in
  let end_pts := rotate 1 start_pts in
  zip start_pts end_pts.

(** The flattened arrays of [extract_flat_edge_list]: one entry (building
    index, building height, start, end) per edge, over the rows of the table
    (a height and the rings of the row's polygons). *)
Definition flatten_geometry (gdf : list (Q * list (list vec2)))
  : list (nat * Q * (vec2 * vec2)) :=
  mjoin (imap (fun i row =>
                 row.2 ≫= fun geom => map (fun se => (i, row.1, se)) (polygon_edges geom))
           gdf).

(** The edge objects of the flattened arrays; [sensor_start] carries the
    running sum of the sensor counts ([np.cumsum], rolled by one). *)
Fixpoint edges_from `{MathLib} (cfg : Config) (flat : list (nat * Q * (vec2 * vec2)))
    (sensor_start : Z) : list Edge :=
  match flat with
  | [] => []
  | (bid, height, (start_pt, end_pt)) :: r =>
      let E := make_edge cfg bid height start_pt end_pt sensor_start in
      E :: edges_from cfg r (sensor_end_ix E)
  end.

(** [extract_flat_edge_list] with [update_edge_properties]. *)
Definition extract_flat_edge_list `{MathLib} (cfg : Config)
    (gdf : list (Q * list (list vec2))) : list Edge :=
  edges_from cfg (flatten_geometry gdf) 0.

(** [init_xy_sensors], one sensor. *)
Definition init_xy_sensor (cfg : Config) (edge : Edge) (parent_id : nat)
    (sensor_ix : Z) (xyz_start : Z) : XYSensor :=
  let slope := slopevec edge in
  let start_gap := vscale (sensor_inset cfg) slope in
  let gap_ct := (sensor_ix - sensor_start_ix edge)%Z in
  let distance := vadd start_gap (vscale (inject_Z gap_ct * sensor_spacing cfg) slope) in
  let start_loc := e_start edge in
  {| hit_count := 0;
     loc := vadd (vadd start_loc distance)
              (vscale (sensor_normal_offset cfg) (normal edge));
     parent_edge_id := parent_id;
     xyz_sensor_start_ix := xyz_start;
     xyz_sensor_ct := edge_n_floors edge |}.

(** [init_xyz_sensors], one sensor: [height = floor_ix * 1.5 * self.f2f_height]. *)
Definition init_xyz_sensor (cfg : Config) (parent_id : nat) (floor_ix : Z) : XYZSensor :=
  {| xyz_height := inject_Z floor_ix * (3 # 2) * f2f_height cfg;
     rad := 0; parent_sensor_id := parent_id |}.

(** The xy sensors of the edges, in edge order ([np.repeat] of the edge
    indices by their sensor counts), with their xyz start indices. *)
Fixpoint layout_xy_sensors (cfg : Config) (es : list Edge) (edge_ix : nat)
    (xyz_start : Z) : list XYSensor :=
  match es with
  | [] => []
  | e :: r =>
      let ct := Z.to_nat (sensor_ct e) in
      map (fun k => init_xy_sensor cfg e edge_ix
                      (sensor_start_ix e + Z.of_nat k)%Z
                      (xyz_start + Z.of_nat k * edge_n_floors e)%Z)
          (seq 0 ct)
      ++ layout_xy_sensors cfg r (S edge_ix)
           (xyz_start + Z.of_nat ct * edge_n_floors e)%Z
  end.

(** The xyz sensors stacked over the xy sensors. *)
Definition layout_xyz_sensors (cfg : Config) (xys : list XYSensor) : list XYZSensor :=
  imap (fun parent_id xy =>
          map (fun f => init_xyz_sensor cfg parent_id (Z.of_nat f))
              (seq 0 (Z.to_nat (xyz_sensor_ct xy)))) xys
  ≫= id.

(** The tracer as [ray_trace] has it when tracing starts: sensors laid out,
    tables filled, no hit logged, no bit set, time series zero. *)
Definition make_tracer `{MathLib} (cfg : Config) (grid : gmap (Z * Z) Node)
    (bs : list Building) (es : list Edge) : Tracer :=
  let xys := layout_xy_sensors cfg es 0 0 in
  {| config := cfg; nodes := grid; buildings := bs; edges := es;
     xy_sensors := xys; xyz_sensors := layout_xyz_sensors cfg xys;
     hits := ∅; azimuths := tracer_azimuths (n_azimuths cfg) (azimuth_inc cfg);
     elevations := sky_elevation_centers (n_elevations cfg);
     xyz_views := ∅; xyz_sensor_timesteps := fun _ _ => 0 |}.

(** ** Kernels as loops over an index domain *)

(** A parallel [for] over an index domain whose iterations commute, run in
    index order.  [None]: an iteration did not complete. *)
Fixpoint kernel_for {S I : Type} (body : S -> I -> option S) (dom : list I) (s : S)
  : option S :=
  match dom with
  | [] => Some s
  | i :: r => match body s i with Some s' => kernel_for body r s' | None => None end
  end.

(** [ti.ndrange(a, b, c)]. *)
Definition ndrange3 (a b c : nat) : list (nat * nat * nat) :=
  i ← seq 0 a; j ← seq 0 b; k ← seq 0 c; [(i, j, k)].

(** ** Orientation weights: [Tracer.compute_edge_orientation_weights] *)

Definition set_qualified_length (e : Edge) (v : Q) : Edge :=
  {| building_id := building_id e; e_start := e_start e; e_end := e_end e;
     slopevec := slopevec e; slope := slope e; normal := normal e;
     normal_theta := normal_theta e; az_start_angle := az_start_angle e;
     orientation := orientation e; edge_height := edge_height e;
     weight := weight e; qualified_length := v; edge_n_floors := edge_n_floors e;
     sensor_start_ix := sensor_start_ix e; sensor_end_ix := sensor_end_ix e;
     sensor_ct := sensor_ct e |}.

Definition set_weight (e : Edge) (v : flt) : Edge :=
  {| building_id := building_id e; e_start := e_start e; e_end := e_end e;
     slopevec := slopevec e; slope := slope e; normal := normal e;
     normal_theta := normal_theta e; az_start_angle := az_start_angle e;
     orientation := orientation e; edge_height := edge_height e;
     weight := v; qualified_length := qualified_length e;
     edge_n_floors := edge_n_floors e;
     sensor_start_ix := sensor_start_ix e; sensor_end_ix := sensor_end_ix e;
     sensor_ct := sensor_ct e |}.

(** The six accumulators of a building, replaced together. *)
Definition set_weights (b : Building) (n e s w : flt) (perim : Q) (wsum : flt)
  : Building :=
  {| bldg_height := bldg_height b; bldg_n_floors := bldg_n_floors b;
     archetype_ix := archetype_ix b; edge_start_ix := edge_start_ix b;
     edge_end_ix := edge_end_ix b; edge_ct := edge_ct b;
     north_weight := n; east_weight := e; south_weight := s; west_weight := w;
     qualified_perim_length := perim; qualified_edge_weight_sum := wsum |}.

(** The weights (north, east, south, west) of a normal angle in [0, 2 pi];
    [None] is the [assert False] of the last branch. *)
Definition cardinal_weights `{MathLib} (normal_theta : Q) : option (Q * Q * Q * Q) :=
  if Qle_bool 0 normal_theta && Qle_bool normal_theta (pi / 2) then
    let north := normal_theta / (pi / 2) in
    Some (north, 1 - north, 0, 0)
  else if Qlt_bool (pi / 2) normal_theta && Qle_bool normal_theta pi then
    let north := (pi - normal_theta) / (pi / 2) in
    Some (north, 0, 0, 1 - north)
  else if Qlt_bool pi normal_theta && Qle_bool normal_theta (3 * pi / 2) then
    let south := (normal_theta - pi) / (pi / 2) in
    Some (0, 0, south, 1 - south)
  else if Qlt_bool (3 * pi / 2) normal_theta && Qle_bool normal_theta (2 * pi) then
    let south := (2 * pi - normal_theta) / (pi / 2) in
    Some (0, 1 - south, south, 0)
  else None.

(** First loop: qualified length of the edge, its cardinal weights added to
    the parent building. *)
Definition weights_pass1 `{MathLib} (T : Tracer) (edge_ix : nat) : option Tracer :=
  edge ← edges T !! edge_ix;
  let building_id := building_id edge in
  b ← buildings T !! building_id;
  let normal_theta := fmod (normal_theta edge + 2 * pi) (2 * pi) in
  let edge_start := e_start edge in
  let edge_end := e_end edge in
  let qualified_edge_length :=
    sqrt ((vx edge_start - vx edge_end) * (vx edge_start - vx edge_end)
          + (vy edge_start - vy edge_end) * (vy edge_start - vy edge_end)) in
  let qualified_edge_length :=
    if Qlt_bool qualified_edge_length 2 then 0 else qualified_edge_length in
  '(north, east, south, west) ← cardinal_weights normal_theta;
  let b' := set_weights b
              (fadd (north_weight b) (Some (north * qualified_edge_length)))
              (fadd (east_weight b) (Some (east * qualified_edge_length)))
              (fadd (south_weight b) (Some (south * qualified_edge_length)))
              (fadd (west_weight b) (Some (west * qualified_edge_length)))
              (qualified_perim_length b + qualified_edge_length)
              (qualified_edge_weight_sum b) in
  Some (set_buildings
          (set_edges T (<[edge_ix := set_qualified_length edge qualified_edge_length]>
                          (edges T)))
          (<[building_id := b']> (buildings T))).

(** Second loop: the edge's share of the qualified perimeter, dropped to 0
    below 1.5 %, and added to the building's sum of weights. *)
Definition weights_pass2 (T : Tracer) (edge_ix : nat) : option Tracer :=
  edge ← edges T !! edge_ix;
  b ← buildings T !! building_id edge;
  let building_perim_length := qualified_perim_length b in
  let wt := fdiv (Some (qualified_length edge)) (Some building_perim_length) in
  let wt := if flt_lt_bool wt (15 # 1000) then Some 0 else wt in
  let b' := set_weights b (north_weight b) (east_weight b)
              (south_weight b) (west_weight b)
              (qualified_perim_length b)
              (fadd (qualified_edge_weight_sum b) wt) in
  Some (set_buildings
          (set_edges T (<[edge_ix := set_weight edge wt]> (edges T)))
          (<[building_id edge := b']> (buildings T))).

(** Third loop: the edge weights renormalized. *)
Definition weights_pass3 (T : Tracer) (edge_ix : nat) : option Tracer :=
  edge ← edges T !! edge_ix;
  b ← buildings T !! building_id edge;
  let wt := fdiv (weight edge) (qualified_edge_weight_sum b) in
  Some (set_edges T (<[edge_ix := set_weight edge wt]> (edges T))).

(** Fourth loop: the cardinal weights of a building normalized. *)
Definition weights_pass4 (T : Tracer) (building_ix : nat) : option Tracer :=
  b ← buildings T !! building_ix;
  let weight_sum :=
    fadd (fadd (fadd (north_weight b) (east_weight b))
            (south_weight b)) (west_weight b) in
  let b' := set_weights b
              (fdiv (north_weight b) weight_sum)
              (fdiv (east_weight b) weight_sum)
              (fdiv (south_weight b) weight_sum)
              (fdiv (west_weight b) weight_sum)
              (qualified_perim_length b) (qualified_edge_weight_sum b) in
  Some (set_buildings T (<[building_ix := b']> (buildings T))).

Definition compute_edge_orientation_weights `{MathLib} (T : Tracer) : option Tracer :=
  T1 ← kernel_for weights_pass1 (seq 0 (length (edges T))) T;
  T2 ← kernel_for weights_pass2 (seq 0 (length (edges T1))) T1;
  T3 ← kernel_for weights_pass3 (seq 0 (length (edges T2))) T2;
  kernel_for weights_pass4 (seq 0 (length (buildings T3))) T3.

(** The sum of the weight fields of the edges of building [bid]. *)
Definition edge_weight_sum (T : Tracer) (bid : nat) : flt :=
  foldr fadd (Some 0)
    (map weight (filter (fun e => building_id e = bid) (edges T))).

(** The sum of the four cardinal weights of a building. *)
Definition cardinal_weight_sum (b : Building) : flt :=
  fadd (fadd (fadd (north_weight b) (east_weight b)) (south_weight b)) (west_weight b).

(** ** Ray tracer: [Tracer.trace_xyz_ray] and [Tracer.xyz_trace_unified] *)

(** [distance = ray_step_ix * self.ray_step_size]; [ray_step_ix] is a float
    that only ever holds a non-negative integer. *)
Definition ray_distance (T : Tracer) (ray_step_ix : Z) : Q :=
  inject_Z ray_step_ix * ray_step_size T.

(** [next_loc = start + distance * slope]. *)
Definition ray_loc (T : Tracer) (start slope : vec2) (ray_step_ix : Z) : vec2 :=
  vadd start (vscale (ray_distance T ray_step_ix) slope).

(** The [in_domain] flag of [trace_xyz_ray]. *)
Definition in_domain (T : Tracer) (next_loc : vec2) (distance : Q) : bool :=
  Qlt_bool 0 (vx next_loc) && Qlt_bool 0 (vy next_loc)
  && Qlt_bool (vx next_loc) (width T) && Qlt_bool (vy next_loc) (length_ T)
  && Qlt_bool distance (max_ray_length T).

(** The local variables of the [while] loop of [trace_xyz_ray]. *)
Record RayState := {
  rs_ray_step_ix : Z;
  rs_distance : Q;
  rs_next_loc : vec2;
  rs_in_domain : bool;
  rs_hit_found : Z
}.

(** One pass through the body of the loop. *)
Definition ray_body `{MathLib} (T : Tracer) (start slope : vec2)
    (el_angle xyz_sensor_height : Q) (st : RayState) : RayState :=
  let x_loc_ix := Qfloor (vx (rs_next_loc st)) in
  let y_loc_ix := Qfloor (vy (rs_next_loc st)) in
  let hit_found :=
    match nodes T !! (x_loc_ix, y_loc_ix) with
    | Some node =>
        let node_height := node_height node in
        let height_diff := node_height - xyz_sensor_height in
        let theta := atan2 height_diff (rs_distance st) in
        if Qlt_bool el_angle theta then 1%Z else rs_hit_found st
    | None => rs_hit_found st
    end in
  let ray_step_ix := (rs_ray_step_ix st + 1)%Z in
  let distance := ray_distance T ray_step_ix in
  let next_loc := ray_loc T start slope ray_step_ix in
  {| rs_ray_step_ix := ray_step_ix; rs_distance := distance;
     rs_next_loc := next_loc; rs_in_domain := in_domain T next_loc distance;
     rs_hit_found := hit_found |}.

(** [while in_domain and hit_found != 1: body].  The source loop has no
    bound; [None] means the fuel ran out before the guard failed. *)
Fixpoint ray_loop `{MathLib} (fuel : nat) (T : Tracer) (start slope : vec2)
    (el_angle xyz_sensor_height : Q) (st : RayState) : option RayState :=
  if rs_in_domain st && negb (rs_hit_found st =? 1)%Z then
    match fuel with
    | O => None
    | S fuel' =>
        ray_loop fuel' T start slope el_angle xyz_sensor_height
          (ray_body T start slope el_angle xyz_sensor_height st)
    end
  else Some st.

(** [trace_xyz_ray]: the returned distance, [-1] when no obstruction was found. *)
Definition trace_xyz_ray `{MathLib} (fuel : nat) (T : Tracer) (start slope : vec2)
    (el_angle xyz_sensor_height : Q) : option Q :=
  let ray_step_ix := 0%Z in
  let distance := ray_distance T ray_step_ix in
  let next_loc := ray_loc T start slope ray_step_ix in
  let st0 := {| rs_ray_step_ix := ray_step_ix; rs_distance := distance;
                rs_next_loc := next_loc;
                rs_in_domain := in_domain T next_loc distance;
                rs_hit_found := 0 |} in
  st ← ray_loop fuel T start slope el_angle xyz_sensor_height st0;
  Some (if (rs_hit_found st =? 0)%Z then -1 else rs_distance st).

(** [self.xyz_sensors[sensor_ix].rad += 1]. *)
Definition bump_rad (sen : XYZSensor) : XYZSensor :=
  {| xyz_height := xyz_height sen; rad := rad sen + 1;
     parent_sensor_id := parent_sensor_id sen |}.

(** What a ray found unobstructed records. *)
Definition record_view (T : Tracer) (ix : nat * nat * nat) : Tracer :=
  set_xyz_views (set_xyz_sensors T (alter bump_rad ix.1.1 (xyz_sensors T)))
    ({[ ix ]} ∪ xyz_views T).

(** The ray cast for azimuth index [az_ix] from an xy sensor:
    its start and its xy slope [(cos az_angle, sin az_angle)]. *)
Definition ray_of `{MathLib} (T : Tracer) (parent_sensor : XYSensor) (az_ix : nat)
  : option (vec2 * vec2) :=
  az ← azimuths T !! az_ix;
  edge ← edges T !! parent_edge_id parent_sensor;
  let az_angle := az + az_start_angle edge in
  let dx := cos az_angle in
  let dy := sin az_angle in
  Some (loc parent_sensor, Vec2 dx dy).

(** One iteration of the body of [xyz_trace_unified]. *)
Definition xyz_trace_unified_body `{MathLib} (fuel : nat) (T : Tracer)
    (ix : nat * nat * nat) : option Tracer :=
  let '(sensor_ix, az_ix, el_ix) := ix in
  sen ← xyz_sensors T !! sensor_ix;
  parent_sensor ← xy_sensors T !! parent_sensor_id sen;
  let xyz_sensor_height := xyz_height sen in
  el_angle ← elevations T !! el_ix;
  ray ← ray_of T parent_sensor az_ix;
  distance ← trace_xyz_ray fuel T ray.1 ray.2 el_angle xyz_sensor_height;
  if Qlt_bool distance 0 then Some (record_view T ix) else Some T.

Definition xyz_trace_unified `{MathLib} (fuel : nat) (T : Tracer) : option Tracer :=
  kernel_for (xyz_trace_unified_body fuel)
    (ndrange3 (length (xyz_sensors T)) (n_azimuths T) (n_elevations T)) T.

(** ** Two-phase trace: [Tracer.xy_trace] then [Tracer.xyz_trace] *)

(** [self.n_ray_steps = int(self.max_ray_length / ray_step_size)]. *)
Definition n_ray_steps (T : Tracer) : Z :=
  Qtrunc (max_ray_length T / ray_step_size T).

(** [N_LOOPS_TO_UNROLL = int(np.ceil(self.n_ray_steps / self.steps_per_unroll_loop))]. *)
Definition N_LOOPS_TO_UNROLL (T : Tracer) : Z :=
  Qceiling (inject_Z (n_ray_steps T) / inject_Z (steps_per_unroll_loop T)).

Definition bump_hit_count (s : XYSensor) : XYSensor :=
  {| hit_count := hit_count s + 1; loc := loc s;
     parent_edge_id := parent_edge_id s;
     xyz_sensor_start_ix := xyz_sensor_start_ix s;
     xyz_sensor_ct := xyz_sensor_ct s |}.

(** One iteration of the inner loop of [xy_trace], in unrolled pass [loop_ix]. *)
Definition xy_trace_body `{MathLib} (loop_ix : nat) (T : Tracer)
    (ix : nat * nat * nat) : option Tracer :=
  let '(sensor_ix, az_ix, ray_step_ix) := ix in
  let step_offset := (Z.of_nat loop_ix * steps_per_unroll_loop T)%Z in
  sensor ← xy_sensors T !! sensor_ix;
  ray ← ray_of T sensor az_ix;
  let start := ray.1 in
  let slope := ray.2 in
  let distance := ray_step_size T * inject_Z (Z.of_nat ray_step_ix + step_offset) in
  let next_loc := vadd start (vscale distance slope) in
  let in_domain :=
    Qlt_bool 0 (vx next_loc) && Qlt_bool 0 (vy next_loc)
    && Qlt_bool (vx next_loc) (width T) && Qlt_bool (vy next_loc) (length_ T) in
  if in_domain then
    let x_loc_ix := Qfloor (vx next_loc) in
    let y_loc_ix := Qfloor (vy next_loc) in
    match nodes T !! (x_loc_ix, y_loc_ix) with
    | Some node =>
        let hit := {| loc_x_ix := to_i16 x_loc_ix; loc_y_ix := to_i16 y_loc_ix;
                      hit_height := node_height node; hit_distance := distance |} in
        let l := default [] (hits T !! (sensor_ix, az_ix)) in
        Some (set_xy_sensors
                (set_hits T (<[(sensor_ix, az_ix) := l ++ [hit]]> (hits T)))
                (alter bump_hit_count sensor_ix (xy_sensors T)))
    | None => Some T
    end
  else Some T.

(** [xy_trace]: the statically unrolled outer loop around the parallel one. *)
Definition xy_trace `{MathLib} (T : Tracer) : option Tracer :=
  kernel_for
    (fun T loop_ix =>
       kernel_for (xy_trace_body loop_ix)
         (ndrange3 (length (xy_sensors T)) (n_azimuths T)
            (Z.to_nat (steps_per_unroll_loop T))) T)
    (seq 0 (Z.to_nat (N_LOOPS_TO_UNROLL T))) T.

(** The [while hit_ix < n_hits_to_check and hit_found != 1] loop of
    [xyz_trace]; [todo] counts the hits still to check, so the loop is total. *)
Fixpoint xyz_hit_loop `{MathLib} (todo : nat) (hit_list : list Hit)
    (el_angle xyz_sensor_height : Q) (hit_ix : nat) (hit_found : Z) : Z :=
  match todo with
  | O => hit_found
  | S todo' =>
      if (hit_found =? 1)%Z then hit_found
      else
        let hit := default zero_hit (hit_list !! hit_ix) in
        let height_diff := hit_height hit - xyz_sensor_height in
        let theta := atan2 height_diff (hit_distance hit) in
        let hit_found := if Qlt_bool el_angle theta then 1%Z else hit_found in
        xyz_hit_loop todo' hit_list el_angle xyz_sensor_height (S hit_ix) hit_found
  end.

(** One iteration of the body of [xyz_trace].  The number of hits checked is
    the xy sensor's [hit_count], which counts the hits of all its azimuths. *)
Definition xyz_trace_body `{MathLib} (T : Tracer) (ix : nat * nat * nat)
  : option Tracer :=
  let '(sensor_ix, az_ix, el_ix) := ix in
  sen ← xyz_sensors T !! sensor_ix;
  let parent_sensor_id := parent_sensor_id sen in
  let xyz_sensor_height := xyz_height sen in
  parent_sensor ← xy_sensors T !! parent_sensor_id;
  let n_hits_to_check := hit_count parent_sensor in
  el_angle ← elevations T !! el_ix;
  let hit_list := default [] (hits T !! (parent_sensor_id, az_ix)) in
  let hit_found :=
    xyz_hit_loop (Z.to_nat n_hits_to_check) hit_list el_angle xyz_sensor_height 0 0 in
  if (hit_found =? 1)%Z then Some T else Some (record_view T ix).

Definition xyz_trace `{MathLib} (T : Tracer) : option Tracer :=
  kernel_for xyz_trace_body
    (ndrange3 (length (xyz_sensors T)) (n_azimuths T) (n_elevations T)) T.

(** The two-phase trace: option 1 of [ray_trace]. *)
Definition two_phase_trace `{MathLib} (T : Tracer) : option Tracer :=
  T' ← xy_trace T; xyz_trace T'.

(** ** Accumulator: [Tracer.timestep_sky] *)

(** [f[i, j] += v] on a dense field. *)
Definition field_add (f : nat -> nat -> Q) (i j : nat) (v : Q) : nat -> nat -> Q :=
  fun i' j' => if bool_decide (i' = i /\ j' = j) then f i' j' + v else f i' j'.

(** The world azimuth of the ray of azimuth index [az_ix] cast from an edge. *)
Definition ray_az_angle (T : Tracer) (parent_edge : Edge) (az_ix : nat) : option Q :=
  az ← azimuths T !! az_ix; Some (az + az_start_angle parent_edge).

(** [ti.cast(ti.floor(az_angle / self.azimuth_inc), int) % self.sky.n_azimuths];
    [%] is the floored remainder, with the sign of the divisor. *)
Definition sky_patch_az_ix (T : Tracer) (az_angle : Q) : Z :=
  (Qfloor (az_angle / azimuth_inc T) mod sky_n_azimuths T)%Z.

Definition incidence_factor `{MathLib} (az_angle normal_theta el_angle : Q) : Q :=
  cos (Qabs (az_angle - normal_theta)) * cos el_angle.

(** One iteration of the body of [timestep_sky], for one set bit. *)
Definition timestep_sky_body `{MathLib} (T : Tracer) (ix : nat * nat * nat)
  : option Tracer :=
  let '(sensor_ix, az_ix, el_ix) := ix in
  xyz_sensor ← xyz_sensors T !! sensor_ix;
  parent_xy_sen ← xy_sensors T !! parent_sensor_id xyz_sensor;
  parent_edge ← edges T !! parent_edge_id parent_xy_sen;
  az_angle ← ray_az_angle T parent_edge az_ix;
  el_angle ← elevations T !! el_ix;
  let sky_patch_az_ix := sky_patch_az_ix T az_angle in
  let incidence_factor := incidence_factor az_angle (normal_theta parent_edge) el_angle in
  Some (set_xyz_sensor_timesteps T
          (fold_left
             (fun ts timestep =>
                let E := sky_normal_irradiance_field T el_ix sky_patch_az_ix timestep in
                field_add ts sensor_ix timestep (E * incidence_factor))
             (seq 0 n_timesteps) (xyz_sensor_timesteps T))).

(** The struct-for of [timestep_sky] visits the set bits of the mask. *)
Definition active_views (T : Tracer) : list (nat * nat * nat) :=
  filter (fun ix => ix ∈ xyz_views T)
    (ndrange3 (length (xyz_sensors T)) (n_azimuths T) (n_elevations T)).

Definition timestep_sky `{MathLib} (T : Tracer) : option Tracer :=
  kernel_for timestep_sky_body (active_views T) T.

(** ** Construction and entry point: [Tracer.__init__], [Tracer.ray_trace] *)

(** What the constructor reads of its arguments: the configuration, the
    number of rows and the column names of the table of buildings, its
    bounding box, and the sky's azimuth count, aperture and elevation count. *)
Record InitArgs := {
  arg_node_width : Q;
  arg_sensor_inset : Q;
  arg_sensor_normal_offset : Q;
  arg_sensor_spacing : Q;
  arg_f2f_height : Q;
  arg_max_ray_length : Q;
  arg_ray_step_size : Q;
  arg_steps_per_unroll_loop : Z;
  gdf_len : Z;
  gdf_columns : list string;
  height_col : string;
  id_col : string;
  archetype_col : string;
  total_bounds : Q * Q * Q * Q;   (* x_low, y_low, x_high, y_high *)
  sky_arg_n_azimuths : Z;
  sky_arg_azimuthal_aperture : Q;
  sky_arg_n_elevations : nat;
  sky_arg_normal_irradiance : nat -> Z -> nat -> Q
}.

(** The ways the constructor raises. *)
Inductive init_error :=
  | NodeWidthUnsupported   (* assert node_width == 1 *)
  | ArithmeticRaised       (* a division by zero, or int() of a non-finite value *)
  | TooManyBuildings       (* assert len(self.gdf) < 2**16 *)
  | MissingColumn          (* assert ..._col in self.gdf.columns *)
  | DepthTooLarge          (* assert self.depth < 16 *)
  | OddSkyAzimuths         (* assert self.sky.n_azimuths / 2 == int(...) *)
  | AzimuthIncMismatch.    (* assert self.azimuth_inc == 2 * np.pi / (2 * self.n_azimuths) *)

(** [padding = 5 * node_width]; the scene's width and length after the
    footprints are moved so that their bounding box starts at (padding, padding). *)
Definition scene_extent (a : InitArgs) : Q * Q :=
  let padding := 5 * arg_node_width a in
  let '(x_low, y_low, x_high, y_high) := total_bounds a in
  let x_high' := x_high + (- x_low + padding) in
  let y_high' := y_high + (- y_low + padding) in
  (x_high' + padding, y_high' + padding).

(** [min_nodes_required = int(np.ceil(max_dim / self.node_width))]. *)
Definition min_nodes_required (a : InitArgs) : Z :=
  let '(width, length) := scene_extent a in
  let max_dim := if Qlt_bool width length then length else width in
  Qtrunc (inject_Z (Qceiling (max_dim / arg_node_width a))).

(** [self.depth = int(np.ceil(np.log2(min_nodes_required)))]. *)
Definition required_depth (a : InitArgs) : Z := Z.log2_up (min_nodes_required a).

(** [Tracer.__init__], up to the tables of angles: the checks in the order
    of the source, then the configuration stored in the object.  Besides the
    asserts, the divisions and [int()] conversions that raise are kept: a zero
    step or unroll count, a non-finite sensor estimate (zero spacing or floor
    height), the NaN bounds of an empty table, a non-positive node count. *)
Definition Tracer_init `{MathLib} (a : InitArgs) : init_error + Config :=
  if negb (Qeq_bool (arg_node_width a) 1) then inl NodeWidthUnsupported
  else if Qeq_bool (arg_ray_step_size a) 0 then inl ArithmeticRaised
  else if (arg_steps_per_unroll_loop a =? 0)%Z then inl ArithmeticRaised
  else if negb (gdf_len a <? 2 ^ 16)%Z then inl TooManyBuildings
  else if negb (bool_decide (height_col a ∈ gdf_columns a)) then inl MissingColumn
  else if negb (bool_decide (id_col a ∈ gdf_columns a)) then inl MissingColumn
  else if negb (bool_decide (archetype_col a ∈ gdf_columns a)) then inl MissingColumn
  else if (0 <? gdf_len a)%Z
          && (Qeq_bool (arg_sensor_spacing a) 0 || Qeq_bool (arg_f2f_height a) 0)
       then inl ArithmeticRaised
  else if (gdf_len a <=? 0)%Z then inl ArithmeticRaised
  else if (min_nodes_required a <=? 0)%Z then inl ArithmeticRaised
  else if negb (required_depth a <? 16)%Z then inl DepthTooLarge
  else if negb (sky_arg_n_azimuths a mod 2 =? 0)%Z then inl OddSkyAzimuths
  else
    let n_azimuths := (sky_arg_n_azimuths a / 2)%Z in
    let azimuth_inc := sky_arg_azimuthal_aperture a in
    if (n_azimuths =? 0)%Z then inl ArithmeticRaised
    else if negb (Qeq_bool azimuth_inc (2 * pi / (2 * inject_Z n_azimuths)))
    then inl AzimuthIncMismatch
    else
      inr {| node_width := arg_node_width a; sensor_inset := arg_sensor_inset a;
             sensor_normal_offset := arg_sensor_normal_offset a;
             sensor_spacing := arg_sensor_spacing a;
             f2f_height := arg_f2f_height a;
             max_ray_length := arg_max_ray_length a;
             ray_step_size := arg_ray_step_size a;
             steps_per_unroll_loop := arg_steps_per_unroll_loop a;
             n_azimuths := Z.to_nat n_azimuths;
             n_elevations := sky_arg_n_elevations a;
             azimuth_inc := azimuth_inc;
             sky_n_azimuths := sky_arg_n_azimuths a;
             sky_normal_irradiance_field := sky_arg_normal_irradiance a;
             width := (scene_extent a).1; length_ := (scene_extent a).2 |}.

(** [xyz_ray_ct = xyz_sensor_count * self.n_azimuths * self.n_elevations]. *)
Definition xyz_ray_ct (T : Tracer) : Z :=
  (Z.of_nat (length (xyz_sensors T)) * Z.of_nat (n_azimuths T)
   * Z.of_nat (n_elevations T))%Z.

Inductive ray_trace_error :=
  | TooManyRays.   (* assert xyz_ray_ct < 2**32 *)

(** [Tracer.ray_trace] from the point where the sensors are laid out: the
    check of the ray count, then the unified trace and the accumulation.
    [inr None]: a kernel did not complete. *)
Definition ray_trace `{MathLib} (fuel : nat) (T : Tracer)
  : ray_trace_error + option Tracer :=
  if negb (xyz_ray_ct T <? 2 ^ 32)%Z then inl TooManyRays
  else inr (T1 ← xyz_trace_unified fuel T; timestep_sky T1).

(** ** The angles of the rays, over the reals *)

(** The same assignments as in [Sky.__init__], [Tracer.__init__],
    [update_edge_properties] and [timestep_sky], read over the real numbers
    with the real [PI] and [cos]. *)
Module RealAngles.
Import Reals.
Local Open Scope R_scope.

(** [self.azimuthal_aperture = np.radians(360) / self.n_azimuths]. *)
Definition azimuthal_aperture (sky_n_azimuths : Z) : R := 2 * PI / IZR sky_n_azimuths.

(** [self.n_azimuths = int(self.sky.n_azimuths / 2)]. *)
Definition tracer_n_azimuths (sky_n_azimuths : Z) : Z := (sky_n_azimuths / 2)%Z.

(** [azimuths = np.arange(self.n_azimuths) * self.azimuth_inc], entry [a]. *)
Definition azimuth (azimuth_inc : R) (a : Z) : R := IZR a * azimuth_inc.

(** [az_start_angle = normal_theta - np.pi * 0.5 + self.azimuth_inc / 2]. *)
Definition az_start_angle (normal_theta azimuth_inc : R) : R :=
  normal_theta - PI * (1 / 2) + azimuth_inc / 2.

(** [az_angle = self.azimuths[az_ix] + parent_edge.az_start_angle]. *)
Definition az_angle (normal_theta azimuth_inc : R) (a : Z) : R :=
  azimuth azimuth_inc a + az_start_angle normal_theta azimuth_inc.

(** [self.elevational_aperture = np.radians(90 - 6) / self.n_elevations]. *)
Definition elevational_aperture (n_elevations : Z) : R :=
  ((90 - 6) * PI / 180) / IZR n_elevations.

(** [elevational_aperture * np.arange(n_elevations) + elevational_aperture / 2],
    entry [e]. *)
Definition elevation_center (n_elevations e : Z) : R :=
  elevational_aperture n_elevations * IZR e + elevational_aperture n_elevations / 2.

(** [ti.cos(ti.abs(az_angle - parent_edge.normal_theta)) * ti.cos(self.elevations[el_ix])]. *)
Definition incidence_factor (az_angle normal_theta el_angle : R) : R :=
  cos (Rabs (az_angle - normal_theta)) * cos el_angle.

End RealAngles.

(** ** What the claims about a ray talk about *)

Section RaySpec.
Context `{MathLib}.
Variables (T : Tracer) (start slope : vec2) (el_angle xyz_sensor_height : Q).

(** The location of step [k] lies strictly inside (0,width) x (0,length). *)
Definition loc_in_scene (k : Z) : Prop :=
  let p := ray_loc T start slope k in
  0 < vx p /\ 0 < vy p /\ vx p < width T /\ vy p < length_ T.

(** Step [k] is a sampled step: inside the scene and short of the ray length. *)
Definition step_in_domain (k : Z) : Prop :=
  loc_in_scene k /\ ray_distance T k < max_ray_length T.

(** Step [k] lands in an active cell whose height obstructs elevation
    [el_angle]: [atan2(h - sensor_height, d) > el_angle]. *)
Definition step_obstructed (k : Z) : Prop :=
  let p := ray_loc T start slope k in
  exists node, nodes T !! (Qfloor (vx p), Qfloor (vy p)) = Some node
    /\ el_angle < atan2 (node_height node - xyz_sensor_height) (ray_distance T k).

(** No sampled step of the ray is obstructed. *)
Definition ray_clear : Prop :=
  forall k : Z, (0 <= k)%Z -> step_in_domain k -> ~ step_obstructed k.

(** The loop state of [trace_xyz_ray] on entry to step [k]. *)
Definition ray_state_at (k : Z) (hit_found : Z) : RayState :=
  {| rs_ray_step_ix := k; rs_distance := ray_distance T k;
     rs_next_loc := ray_loc T start slope k;
     rs_in_domain := in_domain T (ray_loc T start slope k) (ray_distance T k);
     rs_hit_found := hit_found |}.

(** The same, for the steps up to the first one that is not sampled. *)
Definition ray_clear_prefix : Prop :=
  forall k : Z, (0 <= k)%Z ->
    (forall j : Z, (0 <= j <= k)%Z -> step_in_domain j) -> ~ step_obstructed k.
End RaySpec.

(** [step_obstructed], computed. *)
Definition step_obstructed_b `{MathLib} (T : Tracer) (start slope : vec2)
    (el_angle xyz_sensor_height : Q) (k : Z) : bool :=
  let p := ray_loc T start slope k in
  match nodes T !! (Qfloor (vx p), Qfloor (vy p)) with
  | Some node =>
      Qlt_bool el_angle (atan2 (node_height node - xyz_sensor_height) (ray_distance T k))
  | None => false
  end.

(** Iterations that make the guard of [trace_xyz_ray] fail when the step is positive. *)
Definition ray_fuel (T : Tracer) : nat :=
  Z.to_nat (Qceiling (max_ray_length T / ray_step_size T)).

(** The start, slope, elevation and sensor height of the ray of index [ix]. *)
Definition ray_params `{MathLib} (T : Tracer) (ix : nat * nat * nat)
  : option (vec2 * vec2 * Q * Q) :=
  sen ← xyz_sensors T !! ix.1.1;
  parent_sensor ← xy_sensors T !! parent_sensor_id sen;
  el_angle ← elevations T !! ix.2;
  ray ← ray_of T parent_sensor ix.1.2;
  Some (ray.1, ray.2, el_angle, xyz_height sen).

(** The ray of index [ix] meets no obstruction at any sampled step. *)
Definition view_clear `{MathLib} (T : Tracer) (ix : nat * nat * nat) : Prop :=
  exists start slope el_angle h,
    ray_params T ix = Some (start, slope, el_angle, h)
    /\ ray_clear T start slope el_angle h.

(** The point lies strictly inside the scene. *)
Definition inside_scene (T : Tracer) (p : vec2) : bool :=
  Qlt_bool 0 (vx p) && Qlt_bool 0 (vy p)
  && Qlt_bool (vx p) (width T) && Qlt_bool (vy p) (length_ T).

(** The ray of index [ix] is cast from a point strictly inside the scene. *)
Definition sensor_inside `{MathLib} (T : Tracer) (ix : nat * nat * nat) : Prop :=
  exists start slope el_angle h,
    ray_params T ix = Some (start, slope, el_angle, h)
    /\ inside_scene T start = true.

(** The ray of index [ix] meets no obstruction before its first step that is
    not sampled. *)
Definition view_clear_prefix `{MathLib} (T : Tracer) (ix : nat * nat * nat) : Prop :=
  exists start slope el_angle h,
    ray_params T ix = Some (start, slope, el_angle, h)
    /\ ray_clear_prefix T start slope el_angle h.

(** A scene ready for tracing: a positive step, parent links and angle
    tables in range, no bit set yet. *)
Definition traceable (T : Tracer) : bool :=
  Qlt_bool 0 (ray_step_size T)
  && forallb (fun s => bool_decide (parent_edge_id s < length (edges T))%nat)
       (xy_sensors T)
  && forallb (fun s => bool_decide (parent_sensor_id s < length (xy_sensors T))%nat)
       (xyz_sensors T)
  && bool_decide (length (azimuths T) = n_azimuths T)
  && bool_decide (length (elevations T) = n_elevations T)
  && bool_decide (xyz_views T = ∅).

(** The rays of sensor [s] whose bit is set. *)
Definition views_of (T : Tracer) (s : nat) : list (nat * nat * nat) :=
  filter (fun ix => ix.1.1 = s /\ ix ∈ xyz_views T)
    (ndrange3 (length (xyz_sensors T)) (n_azimuths T) (n_elevations T)).

(** The decision [xyz_trace_unified] takes for the ray of index [ix]. *)
Definition visible_b `{MathLib} (fuel : nat) (T : Tracer) (ix : nat * nat * nat) : bool :=
  match ray_params T ix with
  | Some (start, slope, el_angle, h) =>
      match trace_xyz_ray fuel T start slope el_angle h with
      | Some distance => Qlt_bool distance 0
      | None => false
      end
  | None => false
  end.

(** Step [k] of the ray of index [ix] is a sampled step and is obstructed. *)
Definition obstructed_at_b `{MathLib} (T : Tracer) (ix : nat * nat * nat) (k : Z) : bool :=
  match ray_params T ix with
  | Some (start, slope, el_angle, h) =>
      in_domain T (ray_loc T start slope k) (ray_distance T k)
      && step_obstructed_b T start slope el_angle h k
  | None => false
  end.

(** Two tracer states that agree on everything a trace kernel reads. *)
Definition same_reads (T Tc : Tracer) : Prop :=
  config T = config Tc /\ nodes T = nodes Tc /\ edges T = edges Tc
  /\ xy_sensors T = xy_sensors Tc /\ azimuths T = azimuths Tc
  /\ elevations T = elevations Tc
  /\ length (xyz_sensors T) = length (xyz_sensors Tc)
  /\ forall s sen, xyz_sensors T !! s = Some sen ->
       exists sen', xyz_sensors Tc !! s = Some sen'
         /\ xyz_height sen' = xyz_height sen
         /\ parent_sensor_id sen' = parent_sensor_id sen.

(** What holds after the iterations [done] of [xyz_trace_unified] started
    in [T]: the bits set are those of the rays found unobstructed, and every
    sensor's tally has grown by their number. *)
Definition traced_after `{MathLib} (fuel : nat) (T : Tracer)
    (done : list (nat * nat * nat)) (Tc : Tracer) : Prop :=
  same_reads T Tc
  /\ (forall ix, ix ∈ xyz_views Tc <-> ix ∈ done /\ visible_b fuel T ix = true)
  /\ (forall s sen, xyz_sensors T !! s = Some sen ->
        exists sen', xyz_sensors Tc !! s = Some sen'
          /\ rad sen' == rad sen
             + inject_Z (Z.of_nat (length (filter
                 (fun ix => ix.1.1 = s /\ visible_b fuel T ix = true) done)))).

(** ** What the claim about the accumulator talks about *)

(** The term the claim has the accumulator add for a set bit (a, e) of a
    sensor on [parent_edge], at hour [t]:
    normal_irradiance[e, a_sky, t] * cos(|psi - normal_theta|) * cos(el),
    psi = a * azimuth_inc + az_start_angle,
    a_sky = floor(psi / azimuth_inc) mod n_azimuths_sky. *)
Definition sky_term `{MathLib} (T : Tracer) (parent_edge : Edge) (a e : nat)
    (el_angle : Q) (t : nat) : Q :=
  let psi := inject_Z (Z.of_nat a) * azimuth_inc T + az_start_angle parent_edge in
  let a_sky := (Qfloor (psi / azimuth_inc T) mod sky_n_azimuths T)%Z in
  sky_normal_irradiance_field T e a_sky t
  * (cos (Qabs (psi - normal_theta parent_edge)) * cos el_angle).

(** The same, from the index of the bit. *)
Definition bit_term `{MathLib} (T : Tracer) (ix : nat * nat * nat) (t : nat) : Q :=
  default 0
    (xyz_sensor ← xyz_sensors T !! ix.1.1;
     parent_xy_sen ← xy_sensors T !! parent_sensor_id xyz_sensor;
     parent_edge ← edges T !! parent_edge_id parent_xy_sen;
     el_angle ← elevations T !! ix.2;
     Some (sky_term T parent_edge ix.1.2 ix.2 el_angle t)).

Definition Qsum (l : list Q) : Q := fold_right Qplus 0 l.

(** Parent links and angle tables in range. *)
Definition linked (T : Tracer) : bool :=
  forallb (fun s => bool_decide (parent_edge_id s < length (edges T))%nat) (xy_sensors T)
  && forallb (fun s => bool_decide (parent_sensor_id s < length (xy_sensors T))%nat)
       (xyz_sensors T)
  && bool_decide (length (azimuths T) = n_azimuths T)
  && bool_decide (length (elevations T) = n_elevations T).

(** ** Grid population: [Tracer.add_edges_to_tree] *)

(** [ti.min], [ti.max] of two floats. *)
Definition fmin (a b : Q) : Q := if Qlt_bool b a then b else a.
Definition fmax (a b : Q) : Q := if Qlt_bool a b then b else a.

(** [ti.atomic_max(self.nodes[i, j].height, h)].  The write activates the
    cell, and a cell that was inactive reads as 0.  The field has a shape of
    [2^depth] by [2^depth] cells; an index outside it is an error ([None]):
    the kernels run with bound checks. *)
Definition node_atomic_max (depth : Z) (h : Q) (grid : gmap (Z * Z) Node)
    (ij : Z * Z) : option (gmap (Z * Z) Node) :=
  if ((0 <=? ij.1) && (ij.1 <? 2 ^ depth) && (0 <=? ij.2) && (ij.2 <? 2 ^ depth))%Z
  then
    let old := match grid !! ij with Some node => node_height node | None => 0 end in
    Some (<[ij := {| node_height := fmax old h |}]> grid)
  else None.

(** The float held by [edge.slope].  [update_edge_properties] stores
    [slopevec.y / slopevec.x]: an infinity for a vertical edge and NaN for an
    edge of length zero, neither of which the rational field [slope] can
    hold; otherwise the float is the field. *)
Inductive fslope :=
  | SlopeFinite (m : Q)
  | SlopeInfinite
  | SlopeNaN.

Definition edge_fslope (edge : Edge) : fslope :=
  if Qeq_bool (vx (slopevec edge)) 0 then
    if Qeq_bool (vy (slopevec edge)) 0 then SlopeNaN else SlopeInfinite
  else SlopeFinite (slope edge).

(** [y = slope * (x - x0) + y0].  [None]: the float is not finite (an
    infinite slope times the offset, which is zero or not), so that the cell
    index [ti.floor(y, int)] is not defined. *)
Definition crossing_y (m : fslope) (x0 y0 : Q) (x : Z) : option Q :=
  match m with
  | SlopeFinite slope => Some (slope * (inject_Z x - x0) + y0)
  | SlopeInfinite | SlopeNaN => None
  end.

(** [x = (1 / slope) * (y - y0) + x0].  [1 / slope] is infinite for a slope
    of zero and zero for an infinite slope. *)
Definition crossing_x (m : fslope) (x0 y0 : Q) (y : Z) : option Q :=
  match m with
  | SlopeFinite slope =>
      if Qeq_bool slope 0 then None
      else Some ((1 / slope) * (inject_Z y - y0) + x0)
  | SlopeInfinite => Some (0 * (inject_Z y - y0) + x0)
  | SlopeNaN => None
  end.

(** The cells the "thicken the edges" branches add at an x threshold. *)
Definition x_thicken_cells `{MathLib} (normal_theta : Q) (x y_ix : Z) : list (Z * Z) :=
  if Qle_bool 0 normal_theta && Qlt_bool normal_theta (pi / 4)
  then [(x - 2, y_ix); (x - 1, y_ix)]%Z
  else if Qle_bool (3 * pi / 4) normal_theta && Qlt_bool normal_theta (5 * pi / 4)
  then [(x, y_ix); (x + 1, y_ix)]%Z
  else if Qle_bool (7 * pi / 4) normal_theta && Qlt_bool normal_theta (2 * pi)
  then [(x - 2, y_ix); (x - 1, y_ix)]%Z
  else [].

(** The same at a y threshold. *)
Definition y_thicken_cells `{MathLib} (normal_theta : Q) (x_ix y : Z) : list (Z * Z) :=
  if Qle_bool (pi / 4) normal_theta && Qlt_bool normal_theta (3 * pi / 4)
  then [(x_ix, y - 2); (x_ix, y - 1)]%Z
  else if Qle_bool (5 * pi / 4) normal_theta && Qlt_bool normal_theta (7 * pi / 4)
  then [(x_ix, y); (x_ix, y + 1)]%Z
  else [].

(** One pass of [for x_int_ix in range(n_x_thresholds)]. *)
Definition x_threshold_body `{MathLib} (depth : Z) (edge : Edge) (x_start : Z)
    (grid : gmap (Z * Z) Node) (x_int_ix : nat) : option (gmap (Z * Z) Node) :=
  let x0 := vx (e_start edge) in
  let y0 := vy (e_start edge) in
  let h := edge_height edge in
  let x := (x_start + Z.of_nat x_int_ix)%Z in
  y ← crossing_y (edge_fslope edge) x0 y0 x;
  let y_ix := Qfloor y in
  grid ← node_atomic_max depth h grid (x - 1, y_ix)%Z;
  grid ← node_atomic_max depth h grid (x, y_ix);
  kernel_for (node_atomic_max depth h) (x_thicken_cells (normal_theta edge) x y_ix) grid.

(** One pass of [for y_int_ix in range(n_y_thresholds)]. *)
Definition y_threshold_body `{MathLib} (depth : Z) (edge : Edge) (y_start : Z)
    (grid : gmap (Z * Z) Node) (y_int_ix : nat) : option (gmap (Z * Z) Node) :=
  let x0 := vx (e_start edge) in
  let y0 := vy (e_start edge) in
  let h := edge_height edge in
  let y := (y_start + Z.of_nat y_int_ix)%Z in
  x ← crossing_x (edge_fslope edge) x0 y0 y;
  let x_ix := Qfloor x in
  grid ← node_atomic_max depth h grid (x_ix, y - 1)%Z;
  grid ← node_atomic_max depth h grid (x_ix, y);
  kernel_for (node_atomic_max depth h) (y_thicken_cells (normal_theta edge) x_ix y) grid.

(** The body of the loop over the edges: the grid lines the edge crosses. *)
Definition add_edge_to_tree `{MathLib} (depth : Z) (edge : Edge)
    (grid : gmap (Z * Z) Node) : option (gmap (Z * Z) Node) :=
  let x0 := vx (e_start edge) in
  let y0 := vy (e_start edge) in
  let x1 := vx (e_end edge) in
  let y1 := vy (e_end edge) in
  let x_min := fmin x0 x1 in
  let x_max := fmax x0 x1 in
  let y_min := fmin y0 y1 in
  let y_max := fmax y0 y1 in
  let x_start := Qceiling x_min in
  let x_end := Qfloor x_max in
  let y_start := Qceiling y_min in
  let y_end := Qfloor y_max in
  let n_x_thresholds := (1 + x_end - x_start)%Z in
  let n_y_thresholds := (1 + y_end - y_start)%Z in
  grid ← kernel_for (x_threshold_body depth edge x_start)
            (seq 0 (Z.to_nat n_x_thresholds)) grid;
  kernel_for (y_threshold_body depth edge y_start)
    (seq 0 (Z.to_nat n_y_thresholds)) grid.

Definition set_nodes (T : Tracer) (v : gmap (Z * Z) Node) : Tracer :=
  {| config := config T; nodes := v; buildings := buildings T;
     edges := edges T; xy_sensors := xy_sensors T; xyz_sensors := xyz_sensors T;
     hits := hits T; azimuths := azimuths T; elevations := elevations T;
     xyz_views := xyz_views T; xyz_sensor_timesteps := xyz_sensor_timesteps T |}.

(** [add_edges_to_tree]; [depth] is the quadtree depth of the constructor. *)
Definition add_edges_to_tree `{MathLib} (depth : Z) (T : Tracer) : option Tracer :=
  kernel_for
    (fun T edge_ix =>
       edge ← edges T !! edge_ix;
       grid ← add_edge_to_tree depth edge (nodes T);
       Some (set_nodes T grid))
    (seq 0 (length (edges T))) T.

(** A cell index within the field's shape. *)
Definition in_shape (depth : Z) (ij : Z * Z) : Prop :=
  (0 <= ij.1 < 2 ^ depth)%Z /\ (0 <= ij.2 < 2 ^ depth)%Z.

(** Every active cell of [g] is active in [g'] and at least as high. *)
Definition grid_le (g g' : gmap (Z * Z) Node) : Prop :=
  forall c n, g !! c = Some n ->
    exists n', g' !! c = Some n' /\ node_height n <= node_height n'.

(** Cell [c] is active and at least [h] high. *)
Definition covered (h : Q) (g : gmap (Z * Z) Node) (c : Z * Z) : Prop :=
  exists n, g !! c = Some n /\ h <= node_height n.

(** The coordinate does not lie on a grid line. *)
Definition off_grid_line (v : Q) : bool := negb (Qeq_bool (inject_Z (Qfloor v)) v).

(** An edge the kernel handles with finite arithmetic and within the field:
    its end points keep two cells away from the border of the field, and it is
    either oblique with the slope of its segment, or parallel to an axis and
    off the grid lines. *)
Definition edge_fits (depth : Z) (edge : Edge) : bool :=
  let x0 := vx (e_start edge) in
  let y0 := vy (e_start edge) in
  let x1 := vx (e_end edge) in
  let y1 := vy (e_end edge) in
  let far := inject_Z (2 ^ depth) - 2 in
  Qle_bool 2 x0 && Qle_bool x0 far && Qle_bool 2 x1 && Qle_bool x1 far
  && Qle_bool 2 y0 && Qle_bool y0 far && Qle_bool 2 y1 && Qle_bool y1 far
  && match edge_fslope edge with
     | SlopeFinite slope =>
         if Qeq_bool slope 0 then Qeq_bool y0 y1 && off_grid_line y0
         else Qeq_bool (slope * (x1 - x0)) (y1 - y0)
     | SlopeInfinite => Qeq_bool x0 x1 && off_grid_line x0
     | SlopeNaN => false
     end.

(** The two cells of the crossing of the grid line [x] are covered, and the
    same for the grid line [y]. *)
Definition x_crossing_covered (edge : Edge) (g : gmap (Z * Z) Node) (x : Z) : Prop :=
  forall y, crossing_y (edge_fslope edge) (vx (e_start edge)) (vy (e_start edge)) x
            = Some y ->
    covered (edge_height edge) g (x - 1, Qfloor y)%Z
    /\ covered (edge_height edge) g (x, Qfloor y).

Definition y_crossing_covered (edge : Edge) (g : gmap (Z * Z) Node) (y : Z) : Prop :=
  forall x, crossing_x (edge_fslope edge) (vx (e_start edge)) (vy (e_start edge)) y
            = Some x ->
    covered (edge_height edge) g (Qfloor x, y - 1)%Z
    /\ covered (edge_height edge) g (Qfloor x, y).

(** ** The divergent xy trace: [Tracer.xy_trace_divergent] *)








(** ** What the properties of the xy traces talk about *)






(** ** The flattened index ranges of [extract_flat_edge_list] and [ray_trace] *)

(** [np.cumsum(counts)]. *)
Fixpoint cumsum_from (acc : Z) (counts : list Z) : list Z :=
  match counts with
  | [] => []
  | c :: r => (acc + c)%Z :: cumsum_from (acc + c)%Z r
  end.
Definition np_cumsum (counts : list Z) : list Z := cumsum_from 0 counts.

(** [starts = np.roll(ends, shift=1); starts[0] = 0].  [None] is the
    [IndexError] of the assignment on an empty array. *)
Definition rolled_starts (ends : list Z) : option (list Z) :=
  match rotate (length ends - 1) ends with
  | [] => None
  | _ :: r => Some (0%Z :: r)
  end.

(** [np.repeat(np.arange(len(counts)), counts)]: index [i], [counts[i]]
    times.  [None] is the [ValueError] of a negative count. *)
Definition repeat_arange (counts : list Z) : option (list nat) :=
  if forallb (fun c => (0 <=? c)%Z) counts
  then Some (mjoin (imap (fun i c => replicate (Z.to_nat c) i) counts))
  else None.

(** [sensor_parent_ix] of [ray_trace]: the parent edge of every xy sensor. *)
Definition sensor_parent_ix (es : list Edge) : option (list nat) :=
  repeat_arange (map sensor_ct es).

(** [int] fields of the structs are 32-bit. *)
Definition to_i32 (z : Z) : Z := wrap_signed 32 z.

(** [self.buildings[self.edges[edge_ix].building_id].edge_ct += 1], the last
    statement of [update_edge_properties], over all edges. *)
Definition bump_edge_ct (b : Building) : Building :=
  {| bldg_height := bldg_height b; bldg_n_floors := bldg_n_floors b;
     archetype_ix := archetype_ix b; edge_start_ix := edge_start_ix b;
     edge_end_ix := edge_end_ix b; edge_ct := to_i32 (edge_ct b + 1);
     north_weight := north_weight b; east_weight := east_weight b;
     south_weight := south_weight b; west_weight := west_weight b;
     qualified_perim_length := qualified_perim_length b;
     qualified_edge_weight_sum := qualified_edge_weight_sum b |}.

Definition count_building_edges (es : list Edge) (bs : list Building) : list Building :=
  fold_left (fun bs e => alter bump_edge_ct (building_id e) bs) es bs.

Definition set_edge_range (b : Building) (start_ix end_ix : Z) : Building :=
  {| bldg_height := bldg_height b; bldg_n_floors := bldg_n_floors b;
     archetype_ix := archetype_ix b; edge_start_ix := start_ix;
     edge_end_ix := end_ix; edge_ct := edge_ct b;
     north_weight := north_weight b; east_weight := east_weight b;
     south_weight := south_weight b; west_weight := west_weight b;
     qualified_perim_length := qualified_perim_length b;
     qualified_edge_weight_sum := qualified_edge_weight_sum b |}.

(** The end of [extract_flat_edge_list]: the range of edge indices of every
    building, from the cumulative sums of the edge counts. *)
Definition set_building_edge_ranges (bs : list Building) : option (list Building) :=
  let edges_per_bldg := map edge_ct bs in
  let edge_ends := np_cumsum edges_per_bldg in
  edge_starts ← rolled_starts edge_ends;
  Some (zip_with (fun b se => set_edge_range b (to_i32 se.1) (to_i32 se.2)) bs
          (zip edge_starts edge_ends)).

(** The number of edges of a row of the table: the segments of its rings. *)
Definition row_edge_count (row : Q * list (list vec2)) : nat :=
  length (row.2 ≫= polygon_edges).

(** ** The solid angles of the sky patches, over the reals *)

(** [compute_quad_solid_angle] and the arguments [Sky] calls it with, read
    over the real numbers as in [RealAngles]. *)
Module RealSky.
Import Reals.
Local Open Scope R_scope.

Definition compute_quad_solid_angle
    (azimuthal_aperture elevational_aperture elevation_start : R) : R :=
  let elevation_top := elevation_start + elevational_aperture in
  let lune_frac := azimuthal_aperture / (2 * PI) in
  let zone_height := sin elevation_top - sin elevation_start in
  let zone_frac := zone_height / 2 in
  let quad_frac := lune_frac * zone_frac in
  let omega := quad_frac * 4 * PI in
  omega.

(** [np.arange(self.n_elevations).astype(float) * self.elevational_aperture],
    entry [e]. *)
Definition elevation_start (n_elevations e : Z) : R :=
  IZR e * RealAngles.elevational_aperture n_elevations.

(** [self.solid_angles], entry [e]: every patch of band [e] has this size. *)
Definition solid_angle (sky_n_azimuths n_elevations e : Z) : R :=
  compute_quad_solid_angle (RealAngles.azimuthal_aperture sky_n_azimuths)
    (RealAngles.elevational_aperture n_elevations)
    (elevation_start n_elevations e).

(** The sum of [f 0], ..., [f (n - 1)]. *)
Fixpoint sum_upto (n : nat) (f : nat -> R) : R :=
  match n with
  | O => 0
  | S k => sum_upto k f + f k
  end.

End RealSky.

(** ** An executable float library *)

Definition pi_approx : Q := 355 # 113.

(** Reduction of an angle to [-pi, pi). *)
Definition reduce_angle (x : Q) : Q :=
  Qred (x - 2 * pi_approx * inject_Z (Qfloor ((x + pi_approx) / (2 * pi_approx)))).

Definition cos_taylor (r : Q) : Q :=
  let r2 := Qred (r * r) in
  Qred (1 - r2 / 2 * (1 - r2 / 12 * (1 - r2 / 30 * (1 - r2 / 56 * (1 - r2 / 90))))).
Definition sin_taylor (r : Q) : Q :=
  let r2 := Qred (r * r) in
  Qred (r * (1 - r2 / 6 * (1 - r2 / 20 * (1 - r2 / 42 * (1 - r2 / 72 * (1 - r2 / 110)))))).

Definition cos_approx (x : Q) : Q :=
  let r := Qabs (reduce_angle x) in
  if Qle_bool r (pi_approx / 2) then cos_taylor r else - cos_taylor (pi_approx - r).
Definition sin_approx (x : Q) : Q :=
  let r := reduce_angle x in
  if Qle_bool (Qabs r) (pi_approx / 2) then sin_taylor r
  else if Qle_bool 0 r then sin_taylor (pi_approx - r) else - sin_taylor (pi_approx + r).

(** [atan] on [-1, 1], within 0.004 rad. *)
Definition atan_unit (t : Q) : Q :=
  Qred (pi_approx / 4 * t + (273 # 1000) * t * (1 - Qabs t)).
Definition atan_approx (t : Q) : Q :=
  if Qle_bool (Qabs t) 1 then atan_unit t
  else if Qle_bool 0 t then pi_approx / 2 - atan_unit (/ t)
  else - (pi_approx / 2) - atan_unit (/ t).
Definition atan2_approx (y x : Q) : Q :=
  if Qlt_bool 0 x then atan_approx (y / x)
  else if Qlt_bool x 0 then
    (if Qle_bool 0 y then atan_approx (y / x) + pi_approx
     else atan_approx (y / x) - pi_approx)
  else if Qlt_bool 0 y then pi_approx / 2
  else if Qlt_bool y 0 then - (pi_approx / 2)
  else 0.

(** Square root, exact on squares of rationals with up to six decimals. *)
Definition sqrt_approx (q : Q) : Q :=
  Qred (Z.sqrt (Qnum q * Zpos (Qden q) * 10 ^ 12) # (Qden q * 10 ^ 6)).

#[export] Instance approx_lib : MathLib :=
  {| atan2 := atan2_approx; cos := cos_approx; sin := sin_approx;
     sqrt := sqrt_approx; pi := pi_approx |}.


(** ** Concrete scenes *)

(** A configuration with the constructor's defaults except where given: a sky
    of [sky_n] azimuths and seven elevations ([mfactor = 1]) for a scene of
    600 m by 100 m. *)
Definition demo_config (sky_n : Z) (offset max_len : Q) (spl : Z) : Config :=
  {| node_width := 1; sensor_inset := 1 # 2; sensor_normal_offset := offset;
     sensor_spacing := 1; f2f_height := 3; max_ray_length := max_len;
     ray_step_size := 1; steps_per_unroll_loop := spl;
     n_azimuths := Z.to_nat (sky_n / 2); n_elevations := 7;
     azimuth_inc := sky_azimuthal_aperture sky_n; sky_n_azimuths := sky_n;
     sky_normal_irradiance_field := fun _ _ _ => 1;
     width := 600; length_ := 100 |}.

Definition zero_building (h : Q) : Building :=
  {| bldg_height := h; bldg_n_floors := 1; archetype_ix := 0; edge_start_ix := 0;
     edge_end_ix := 0; edge_ct := 0; north_weight := Some 0; east_weight := Some 0;
     south_weight := Some 0; west_weight := Some 0; qualified_perim_length := 0;
     qualified_edge_weight_sum := Some 0 |}.

(** An east-facing wall from (10,20) down to (10,18), 3 m high, seen by a sky
    of two azimuths: one ray per sensor, along +x.  A cell of height 1000 may
    stand in its way. *)
Definition wall_scene (max_len : Q) (spl : Z) (grid : gmap (Z * Z) Node) : Tracer :=
  let cfg := demo_config 2 (3 # 2) max_len spl in
  make_tracer cfg grid [zero_building 3]
    (edges_from cfg [(0%nat, 3, (Vec2 10 20, Vec2 10 18))] 0).

Definition tall_node : Node := {| node_height := 1000 |}.

(** A wall rising to the upper right from the scene's left edge, (5,20) to
    (7,21.25), with [sensor_normal_offset = 12] and a sky of four azimuths. *)
Definition corner_scene (grid : gmap (Z * Z) Node) : Tracer :=
  let cfg := demo_config 4 12 400 100 in
  make_tracer cfg grid [zero_building 3]
    (edges_from cfg [(0%nat, 3, (Vec2 5 20, Vec2 7 (85 # 4)))] 0).

(** A square block of 50 m by 50 m whose ring, from (5,5), has a vertex
    every 2 m: one hundred edges of 2 m each. *)
Definition block_ring : list vec2 :=
  map (fun k => Vec2 (5 + 2 * inject_Z (Z.of_nat k)) 5) (seq 0 25)
  ++ map (fun k => Vec2 55 (5 + 2 * inject_Z (Z.of_nat k))) (seq 0 25)
  ++ map (fun k => Vec2 (55 - 2 * inject_Z (Z.of_nat k)) 55) (seq 0 25)
  ++ map (fun k => Vec2 5 (55 - 2 * inject_Z (Z.of_nat k))) (seq 0 25)
  ++ [Vec2 5 5].

Definition block_scene : Tracer :=
  let cfg := demo_config 2 (3 # 2) 400 100 in
  {| config := cfg; nodes := ∅; buildings := [zero_building 3];
     edges := extract_flat_edge_list cfg [(3, [block_ring])];
     xy_sensors := []; xyz_sensors := []; hits := ∅;
     azimuths := tracer_azimuths (n_azimuths cfg) (azimuth_inc cfg);
     elevations := sky_elevation_centers (n_elevations cfg);
     xyz_views := ∅; xyz_sensor_timesteps := fun _ _ => 0 |}.

(** A table of one building of height 3 with one ring. *)
Definition one_building (ring : list vec2) : list (Q * list (list vec2)) :=
  [(3, [ring])].

(** A right triangle with legs of 3 m and 4 m, a unit square, and a
    rectangle of 1.5 m by 3 m. *)
Definition triangle_ring : list vec2 := [Vec2 5 5; Vec2 8 9; Vec2 5 9; Vec2 5 5].
Definition square_ring : list vec2 := [Vec2 5 5; Vec2 6 5; Vec2 6 6; Vec2 5 6; Vec2 5 5].
Definition slab_ring : list vec2 :=
  [Vec2 5 5; Vec2 (13 # 2) 5; Vec2 (13 # 2) 8; Vec2 5 8; Vec2 5 5].

(** A building of 10 m by 6 m, ready for the orientation weights. *)
Definition plain_ring : list vec2 :=
  [Vec2 5 5; Vec2 15 5; Vec2 15 11; Vec2 5 11; Vec2 5 5].
Definition plain_scene : Tracer :=
  let cfg := demo_config 2 (3 # 2) 400 100 in
  {| config := cfg; nodes := ∅; buildings := [zero_building 3];
     edges := extract_flat_edge_list cfg (one_building plain_ring);
     xy_sensors := []; xyz_sensors := []; hits := ∅;
     azimuths := tracer_azimuths (n_azimuths cfg) (azimuth_inc cfg);
     elevations := sky_elevation_centers (n_elevations cfg);
     xyz_views := ∅; xyz_sensor_timesteps := fun _ _ => 0 |}.

(** The constructor's defaults, a table of [n] buildings with the three
    columns asked for, in a bounding box of [w] by [l], under a sky of 24
    azimuths and 7 elevations. *)
Definition demo_args (n : Z) (node_w w l : Q) : InitArgs :=
  {| arg_node_width := node_w; arg_sensor_inset := 1 # 2;
     arg_sensor_normal_offset := 3 # 2; arg_sensor_spacing := 1;
     arg_f2f_height := 3; arg_max_ray_length := 400; arg_ray_step_size := 1;
     arg_steps_per_unroll_loop := 100; gdf_len := n;
     gdf_columns := ["HEIGHT"; "OBJECTID"; "BUILTYPE"];
     height_col := "HEIGHT"; id_col := "OBJECTID"; archetype_col := "BUILTYPE";
     total_bounds := (0, 0, w, l);
     sky_arg_n_azimuths := 24; sky_arg_azimuthal_aperture := sky_azimuthal_aperture 24;
     sky_arg_n_elevations := 7; sky_arg_normal_irradiance := fun _ _ _ => 1 |}.

(** The right triangle moved by half a cell, so that no vertex lies on a
    grid line, in a field of 128 by 128 cells. *)
Definition offgrid_ring : list vec2 :=
  [Vec2 (11 # 2) (11 # 2); Vec2 (17 # 2) (19 # 2); Vec2 (11 # 2) (19 # 2);
   Vec2 (11 # 2) (11 # 2)].
Definition offgrid_scene : Tracer :=
  let cfg := demo_config 2 (3 # 2) 400 100 in
  make_tracer cfg ∅ [zero_building 3] (extract_flat_edge_list cfg (one_building offgrid_ring)).

(** * Properties *)

(** ** Comparisons *)

Lemma Qlt_bool_iff (a b : Q) : Qlt_bool a b = true <-> a < b.
Proof.
  unfold Qlt_bool. rewrite negb_true_iff.
  split.
  - intros Hb. apply Qnot_le_lt. intros Hle.
    apply Qle_bool_iff in Hle. congruence.
  - intros Hlt. destruct (Qle_bool b a) eqn:E; [|reflexivity].
    apply Qle_bool_iff in E. exfalso. apply (Qlt_not_le _ _ Hlt E).
Qed.

Lemma Qlt_bool_false_iff (a b : Q) : Qlt_bool a b = false <-> b <= a.
Proof.
  unfold Qlt_bool. rewrite negb_false_iff. apply Qle_bool_iff.
Qed.

(** ** The loop of [trace_xyz_ray] *)

Lemma in_domain_iff (T : Tracer) (start slope : vec2) (k : Z) :
  in_domain T (ray_loc T start slope k) (ray_distance T k) = true
  <-> step_in_domain T start slope k.
Proof.
  unfold in_domain, step_in_domain, loc_in_scene.
  rewrite !andb_true_iff, !Qlt_bool_iff. cbv zeta. tauto.
Qed.

Section RayLoop.
Context `{MathLib}.
Variables (T : Tracer) (start slope : vec2) (el_angle xyz_sensor_height : Q).

Local Abbreviation body := (ray_body T start slope el_angle xyz_sensor_height).
Local Abbreviation dom := (step_in_domain T start slope).
Local Abbreviation obs := (step_obstructed T start slope el_angle xyz_sensor_height).

Lemma obs_dec (k : Z) : {obs k} + {~ obs k}.
Proof.
  unfold obs, step_obstructed. cbv zeta.
  destruct (nodes T !! (Qfloor (vx (ray_loc T start slope k)),
                        Qfloor (vy (ray_loc T start slope k)))) as [node|] eqn:E.
  - destruct (Qlt_bool el_angle
                (atan2 (node_height node - xyz_sensor_height) (ray_distance T k)))
      eqn:Hlt.
    + left. exists node. split; [reflexivity|]. by apply Qlt_bool_iff.
    + right. intros (node' & Hn & Hlt'). inversion Hn; subst node'.
      apply Qlt_bool_iff in Hlt'. congruence.
  - right. intros (node' & Hn & _). discriminate.
Qed.

Lemma ray_body_at (k : Z) :
  body (ray_state_at T start slope k 0) =
  ray_state_at T start slope (k + 1) (if obs_dec k then 1 else 0)%Z.
Proof.
  unfold body, ray_body, ray_state_at. cbn [rs_ray_step_ix rs_distance rs_next_loc
    rs_in_domain rs_hit_found].
  f_equal.
  destruct (obs_dec k) as [(node & Hn & Hlt)|Hno].
  - rewrite Hn. apply Qlt_bool_iff in Hlt. by rewrite Hlt.
  - destruct (nodes T !! _) as [node|] eqn:E; [|reflexivity].
    destruct (Qlt_bool _ _) eqn:Hlt; [|reflexivity].
    exfalso. apply Hno. exists node. split; [exact E|]. by apply Qlt_bool_iff.
Qed.

(** What the loop returns when started at step [k] with no hit and some step
    [k + n] is not sampled: it stops either at the first step that is not
    sampled, with no hit, or just after the first obstructed step. *)
Lemma ray_loop_from (n : nat) : forall (k : Z) (fuel : nat),
  (n <= fuel)%nat -> ~ dom (k + Z.of_nat n) ->
  exists st, ray_loop fuel T start slope el_angle xyz_sensor_height
               (ray_state_at T start slope k 0) = Some st
    /\ ((rs_hit_found st = 0%Z
         /\ exists K, (k <= K <= k + Z.of_nat n)%Z /\ ~ dom K
              /\ forall j, (k <= j < K)%Z -> dom j /\ ~ obs j)
        \/ (rs_hit_found st = 1%Z
            /\ exists j, (k <= j)%Z /\ obs j
                 /\ (forall i, (k <= i <= j)%Z -> dom i)
                 /\ (forall i, (k <= i < j)%Z -> ~ obs i)
                 /\ rs_distance st = ray_distance T (j + 1))).
Proof.
  induction n as [|n IH]; intros k fuel Hfuel Hout.
  - replace (k + Z.of_nat 0)%Z with k in Hout by lia.
    assert (Hd : in_domain T (ray_loc T start slope k) (ray_distance T k) = false).
    { destruct (in_domain _ _ _) eqn:E; [|reflexivity].
      apply in_domain_iff in E. contradiction. }
    exists (ray_state_at T start slope k 0). split.
    + destruct fuel; simpl; rewrite Hd; reflexivity.
    + left. split; [reflexivity|]. exists k. split; [lia|]. split; [exact Hout|].
      intros j Hj. lia.
  - destruct (in_domain T (ray_loc T start slope k) (ray_distance T k)) eqn:Hd.
    + destruct fuel as [|fuel]; [lia|].
      cbn [ray_loop ray_state_at rs_in_domain rs_hit_found]. rewrite Hd.
      cbn [andb negb Z.eqb].
      fold (ray_state_at T start slope k 0). fold body. rewrite ray_body_at.
      apply in_domain_iff in Hd.
      destruct (obs_dec k) as [Hobs|Hno].
      * exists (ray_state_at T start slope (k + 1) 1). split.
        -- destruct fuel; cbn; rewrite andb_false_r; reflexivity.
        -- right. split; [reflexivity|]. exists k.
           split; [lia|]. split; [exact Hobs|].
           split; [intros i Hi; by replace i with k by lia|].
           split; [intros i Hi; lia|reflexivity].
      * destruct (IH (k + 1)%Z fuel) as (st & Hst & Hcases).
        { lia. }
        { by replace (k + 1 + Z.of_nat n)%Z with (k + Z.of_nat (S n))%Z by lia. }
        exists st. split; [exact Hst|].
        destruct Hcases as [(Hhf & K & HK & HoutK & Hpre)
                           |(Hhf & j & Hj & Hobsj & Hdomj & Hclr & Hdist)].
        -- left. split; [exact Hhf|]. exists K. split; [lia|].
           split; [exact HoutK|]. intros j Hj.
           destruct (Z.eq_dec j k) as [->|Hne]; [by split|].
           apply Hpre. lia.
        -- right. split; [exact Hhf|]. exists j. split; [lia|].
           split; [exact Hobsj|]. split.
           ++ intros i Hi. destruct (Z.eq_dec i k) as [->|Hne]; [exact Hd|].
              apply Hdomj. lia.
           ++ split; [|exact Hdist]. intros i Hi.
              destruct (Z.eq_dec i k) as [->|Hne]; [exact Hno|].
              apply Hclr. lia.
    + exists (ray_state_at T start slope k 0). split.
      * destruct fuel; simpl; rewrite Hd; reflexivity.
      * left. split; [reflexivity|]. exists k. split; [lia|]. split.
        -- intros Hk. apply in_domain_iff in Hk. congruence.
        -- intros j Hj. lia.
Qed.
End RayLoop.

Section RayResult.
Context `{MathLib}.
Variables (T : Tracer) (start slope : vec2) (el_angle xyz_sensor_height : Q).
Hypothesis step_pos : 0 < ray_step_size T.

(** With a positive step the ray outruns [max_ray_length] within [ray_fuel] steps. *)
Lemma ray_fuel_out : ~ step_in_domain T start slope (Z.of_nat (ray_fuel T)).
Proof.
  intros [_ Hlt]. unfold ray_distance, ray_fuel in Hlt.
  set (x := max_ray_length T / ray_step_size T) in *.
  assert (Hx : x <= inject_Z (Z.of_nat (Z.to_nat (Qceiling x)))).
  { eapply Qle_trans; [apply Qle_ceiling|].
    rewrite <- Zle_Qle. lia. }
  assert (Hm : max_ray_length T == x * ray_step_size T).
  { unfold x. field. intros E. rewrite E in step_pos. by apply Qlt_irrefl in step_pos. }
  apply (Qmult_le_compat_r _ _ (ray_step_size T)) in Hx; [|by apply Qlt_le_weak].
  rewrite <- Hm in Hx. apply (Qlt_not_le _ _ Hlt Hx).
Qed.

Lemma ray_distance_pos (k : Z) : (0 < k)%Z -> 0 < ray_distance T k.
Proof.
  intros Hk. unfold ray_distance.
  apply Qmult_lt_0_compat; [|exact step_pos].
  replace 0 with (inject_Z 0) by reflexivity. by rewrite <- Zlt_Qlt.
Qed.

(** [trace_xyz_ray] returns; the result is [-1] exactly when no step before
    the first unsampled one is obstructed, and positive otherwise. *)
Lemma trace_xyz_ray_result (fuel : nat) :
  (ray_fuel T <= fuel)%nat ->
  exists d, trace_xyz_ray fuel T start slope el_angle xyz_sensor_height = Some d
    /\ ((d = -1 /\ ray_clear_prefix T start slope el_angle xyz_sensor_height)
        \/ (0 < d /\ ~ ray_clear_prefix T start slope el_angle xyz_sensor_height)).
Proof.
  intros Hfuel.
  destruct (ray_loop_from T start slope el_angle xyz_sensor_height
              (ray_fuel T) 0 fuel Hfuel) as (st & Hst & Hcases).
  { rewrite Z.add_0_l. apply ray_fuel_out. }
  unfold trace_xyz_ray. cbv zeta.
  fold (ray_state_at T start slope 0 0). rewrite Hst. cbn [mbind option_bind].
  destruct Hcases as [(Hhf & K & HK & HoutK & Hpre)
                     |(Hhf & j & Hj & Hobsj & Hdomj & Hclr & Hdist)].
  - rewrite Hhf. cbn [Z.eqb]. eexists. split; [reflexivity|]. left.
    split; [reflexivity|]. intros k Hk Hall.
    destruct (Z_lt_le_dec k K) as [Hlt|Hge].
    + apply Hpre. lia.
    + exfalso. apply HoutK. apply Hall. lia.
  - rewrite Hhf. cbn [Z.eqb]. eexists. split; [reflexivity|]. right.
    split.
    + rewrite Hdist. apply ray_distance_pos. lia.
    + intros Hclear. apply (Hclear j); [lia| |exact Hobsj].
      intros i Hi. apply Hdomj. lia.
Qed.

(** A straight ray that starts inside the scene cannot leave it and come
    back: the sampled steps are an initial segment. *)
Lemma step_in_domain_prefix (j k : Z) :
  inside_scene T start = true -> (0 <= j <= k)%Z ->
  step_in_domain T start slope k -> step_in_domain T start slope j.
Proof.
  unfold inside_scene. rewrite !andb_true_iff, !Qlt_bool_iff.
  intros [[[Hx0 Hy0] Hxw] Hyl] Hjk [(Hkx & Hky & Hkw & Hkl) Hkd].
  unfold step_in_domain, loc_in_scene, ray_loc, ray_distance, vadd, vscale in *.
  cbn [vx vy] in *.
  assert (Hj0 : 0 <= inject_Z j).
  { replace 0 with (inject_Z 0) by reflexivity. rewrite <- Zle_Qle. lia. }
  assert (Hjk' : inject_Z j <= inject_Z k) by (rewrite <- Zle_Qle; lia).
  set (qj := inject_Z j) in *. set (qk := inject_Z k) in *.
  set (s := ray_step_size T) in *.
  assert (Hlin : forall a d w : Q, 0 < a -> a < w ->
            0 < a + qk * s * d -> a + qk * s * d < w ->
            0 < a + qj * s * d /\ a + qj * s * d < w).
  { intros a d w Ha Haw Hk0 Hkw'.
    destruct (Qlt_le_dec (s * d) 0) as [Hneg|Hpos].
    - assert (qk * (s * d) <= qj * (s * d)) by (clear - Hjk' Hneg; nra).
      assert (qj * (s * d) <= 0) by (clear - Hj0 Hneg; nra).
      split; lra.
    - assert (qj * (s * d) <= qk * (s * d)) by (clear - Hjk' Hpos; nra).
      assert (0 <= qj * (s * d)) by (clear - Hj0 Hpos; nra).
      split; lra. }
  destruct (Hlin (vx start) (vx slope) (width T) Hx0 Hxw Hkx Hkw) as [? ?].
  destruct (Hlin (vy start) (vy slope) (length_ T) Hy0 Hyl Hky Hkl) as [? ?].
  repeat split; try assumption.
  assert (qj * s <= qk * s) by (clear - Hjk' step_pos; fold s in step_pos; nra).
  lra.
Qed.

Lemma ray_clear_iff_prefix :
  inside_scene T start = true ->
  ray_clear T start slope el_angle xyz_sensor_height
  <-> ray_clear_prefix T start slope el_angle xyz_sensor_height.
Proof.
  intros Hin. split.
  - intros Hc k Hk Hall. apply Hc; [exact Hk|]. apply Hall. lia.
  - intros Hc k Hk Hdom. apply Hc; [exact Hk|].
    intros j Hj. by apply (step_in_domain_prefix j k).
Qed.
End RayResult.

(** ** Kernels *)

Lemma kernel_for_invariant {S I : Type} (body : S -> I -> option S)
    (P : list I -> S -> Prop) (dom : list I) :
  forall (done : list I) (s : S),
    P done s ->
    (forall done' i s', i ∈ dom -> P done' s' ->
       exists s'', body s' i = Some s'' /\ P (done' ++ [i]) s'') ->
    exists s', kernel_for body dom s = Some s' /\ P (done ++ dom) s'.
Proof.
  induction dom as [|i dom IH]; intros done s HP Hstep.
  - exists s. rewrite app_nil_r. by split.
  - destruct (Hstep done i s) as (s1 & Hb & HP1); [left|exact HP|].
    destruct (IH (done ++ [i]) s1 HP1) as (s' & Hk & HP').
    { intros done' j s2 Hj. apply Hstep. by right. }
    exists s'. cbn [kernel_for]. rewrite Hb. split; [exact Hk|].
    by rewrite <- app_assoc in HP'.
Qed.

Lemma elem_of_ndrange3 (a b c : nat) (ix : nat * nat * nat) :
  ix ∈ ndrange3 a b c <-> (ix.1.1 < a /\ ix.1.2 < b /\ ix.2 < c)%nat.
Proof.
  destruct ix as [[i j] k]. unfold ndrange3. cbn [fst snd].
  rewrite list_elem_of_bind. split.
  - intros (i' & Hi & Hi'). apply list_elem_of_bind in Hi as (j' & Hj & Hj').
    apply list_elem_of_bind in Hj as (k' & Hk & Hk').
    apply list_elem_of_singleton in Hk. inversion Hk; subst.
    apply elem_of_seq in Hi', Hj', Hk'. lia.
  - intros (Hi & Hj & Hk). exists i. split; [|apply elem_of_seq; lia].
    apply list_elem_of_bind. exists j. split; [|apply elem_of_seq; lia].
    apply list_elem_of_bind. exists k. split; [|apply elem_of_seq; lia].
    by apply list_elem_of_singleton.
Qed.

Lemma filter_ext_elem {A : Type} (P Q : A -> Prop)
    `{!forall x, Decision (P x)} `{!forall x, Decision (Q x)} (l : list A) :
  (forall x, x ∈ l -> P x <-> Q x) -> filter P l = filter Q l.
Proof.
  induction l as [|x l IH]; intros Hext; [reflexivity|].
  rewrite !filter_cons.
  assert (Hx : P x <-> Q x) by (apply Hext; left).
  rewrite IH by (intros y Hy; apply Hext; by right).
  destruct (decide (P x)), (decide (Q x)); tauto.
Qed.

(** The trace of one ray reads the configuration and the height grid only. *)
Lemma ray_loop_reads `{MathLib} (T Tc : Tracer) (start slope : vec2) (el h : Q) :
  config T = config Tc -> nodes T = nodes Tc ->
  forall fuel st, ray_loop fuel T start slope el h st
                  = ray_loop fuel Tc start slope el h st.
Proof.
  intros Hc Hn fuel. induction fuel as [|fuel IH]; intros st; cbn [ray_loop].
  - reflexivity.
  - destruct (rs_in_domain st && negb (rs_hit_found st =? 1)%Z); [|reflexivity].
    rewrite IH. f_equal.
    unfold ray_body, ray_loc, ray_distance, in_domain. by rewrite Hc, Hn.
Qed.

Lemma trace_xyz_ray_reads `{MathLib} (T Tc : Tracer) (start slope : vec2) (el h : Q)
    (fuel : nat) :
  config T = config Tc -> nodes T = nodes Tc ->
  trace_xyz_ray fuel T start slope el h = trace_xyz_ray fuel Tc start slope el h.
Proof.
  intros Hc Hn. unfold trace_xyz_ray. cbv zeta.
  rewrite (ray_loop_reads T Tc) by assumption.
  unfold ray_loc, ray_distance, in_domain. by rewrite Hc.
Qed.

Lemma same_reads_refl (T : Tracer) : same_reads T T.
Proof. unfold same_reads. repeat split; try reflexivity. intros s sen Hs. eauto. Qed.

Lemma same_reads_record_view (T Tc : Tracer) (ix : nat * nat * nat) :
  same_reads T Tc -> same_reads T (record_view Tc ix).
Proof.
  intros (Hc & Hn & He & Hxy & Ha & Hel & Hlen & Hs).
  unfold same_reads, record_view. cbn.
  repeat split; try assumption.
  - by rewrite length_alter.
  - intros s sen Hsen. destruct (Hs s sen Hsen) as (sen' & Hsen' & Hh & Hp).
    destruct (decide (ix.1.1 = s)) as [->|Hne].
    + exists (bump_rad sen'). rewrite list_lookup_alter_eq, Hsen'. by cbn.
    + exists sen'. by rewrite list_lookup_alter_ne.
Qed.

Section UnifiedTrace.
Context `{MathLib}.
Variables (T : Tracer) (fuel : nat).
Hypothesis Hwf : traceable T = true.
Hypothesis Hfuel : (ray_fuel T <= fuel)%nat.

Lemma traceable_step_pos : 0 < ray_step_size T.
Proof.
  unfold traceable in Hwf. rewrite !andb_true_iff in Hwf.
  apply Qlt_bool_iff. tauto.
Qed.

Lemma traceable_views_empty : xyz_views T = ∅.
Proof.
  unfold traceable in Hwf. rewrite !andb_true_iff in Hwf.
  destruct Hwf as [_ Hv]. by apply bool_decide_eq_true in Hv.
Qed.

(** Every index of the kernel's domain names a ray. *)
Lemma traceable_ray_params (ix : nat * nat * nat) :
  ix ∈ ndrange3 (length (xyz_sensors T)) (n_azimuths T) (n_elevations T) ->
  exists start slope el h, ray_params T ix = Some (start, slope, el, h).
Proof.
  intros Hix. apply elem_of_ndrange3 in Hix as (Hs & Ha & He).
  unfold traceable in Hwf. rewrite !andb_true_iff in Hwf.
  destruct Hwf as [[[[[_ Hxy] Hxyz] Haz] Hel] _].
  apply bool_decide_eq_true in Haz, Hel.
  rewrite forallb_forall in Hxy, Hxyz.
  destruct (lookup_lt_is_Some_2 (xyz_sensors T) ix.1.1 Hs) as [sen Hsen].
  assert (Hp : (parent_sensor_id sen < length (xy_sensors T))%nat).
  { eapply bool_decide_eq_true_1, Hxyz, list_elem_of_In.
    eapply list_elem_of_lookup_2; eauto. }
  destruct (lookup_lt_is_Some_2 _ _ Hp) as [xy Hxys].
  assert (Hpe : (parent_edge_id xy < length (edges T))%nat).
  { eapply bool_decide_eq_true_1, Hxy, list_elem_of_In.
    eapply list_elem_of_lookup_2; eauto. }
  destruct (lookup_lt_is_Some_2 _ _ Hpe) as [edge Hedge].
  destruct (lookup_lt_is_Some_2 (azimuths T) ix.1.2) as [az Haz']; [lia|].
  destruct (lookup_lt_is_Some_2 (elevations T) ix.2) as [el Hel']; [lia|].
  eexists _, _, _, _. unfold ray_params, ray_of.
  rewrite Hsen. cbn. rewrite Hxys. cbn. rewrite Hel'. cbn. rewrite Haz'. cbn.
  rewrite Hedge. cbn. reflexivity.
Qed.

(** The decision taken for a ray: no obstruction up to the first step that
    is not sampled. *)
Lemma visible_b_iff (ix : nat * nat * nat) :
  ix ∈ ndrange3 (length (xyz_sensors T)) (n_azimuths T) (n_elevations T) ->
  visible_b fuel T ix = true <-> view_clear_prefix T ix.
Proof.
  intros Hix.
  destruct (traceable_ray_params ix Hix) as (start & slope & el & h & Hp).
  unfold visible_b, view_clear_prefix. rewrite Hp.
  destruct (trace_xyz_ray_result T start slope el h traceable_step_pos fuel Hfuel)
    as (d & Hd & Hcases).
  rewrite Hd. split.
  - intros Hlt. exists start, slope, el, h. split; [reflexivity|].
    destruct Hcases as [[_ Hc]|[Hpos _]]; [exact Hc|].
    apply Qlt_bool_iff in Hlt. exfalso. apply (Qlt_irrefl 0).
    by apply Qlt_trans with d.
  - intros (start' & slope' & el' & h' & Heq & Hc). inversion Heq; subst.
    destruct Hcases as [[-> _]|[_ Hno]]; [reflexivity|contradiction].
Qed.

(** A ray with no obstructed sampled step has none before its first
    unsampled step; for a ray cast from inside the scene the two are the same. *)
Lemma view_clear_prefix_weaker (ix : nat * nat * nat) :
  view_clear T ix -> view_clear_prefix T ix.
Proof using Type.
  intros (start & slope & el & h & Hp & Hc). exists start, slope, el, h.
  split; [exact Hp|]. intros k Hk Hall. apply Hc; [exact Hk|].
  apply Hall. clear - Hk. lia.
Qed.

Lemma view_clear_iff_prefix (ix : nat * nat * nat) :
  sensor_inside T ix -> (view_clear T ix <-> view_clear_prefix T ix).
Proof using Hwf.
  intros (start & slope & el & h & Hp & Hin). split.
  - apply view_clear_prefix_weaker.
  - intros (start' & slope' & el' & h' & Hp' & Hc).
    rewrite Hp in Hp'. inversion Hp'; subst.
    exists start', slope', el', h'. split; [exact Hp|].
    by apply ray_clear_iff_prefix; [exact traceable_step_pos|exact Hin|].
Qed.

(** One iteration, run in any state that agrees with [T] on what is read. *)
Lemma xyz_trace_unified_body_step (Tc : Tracer) (ix : nat * nat * nat) :
  ix ∈ ndrange3 (length (xyz_sensors T)) (n_azimuths T) (n_elevations T) ->
  same_reads T Tc ->
  xyz_trace_unified_body fuel Tc ix
  = Some (if visible_b fuel T ix then record_view Tc ix else Tc).
Proof.
  intros Hix Hsame.
  destruct (traceable_ray_params ix Hix) as (start & slope & el & h & Hp).
  destruct (trace_xyz_ray_result T start slope el h traceable_step_pos fuel Hfuel)
    as (d & Hd & _).
  unfold visible_b. rewrite Hp, Hd.
  destruct Hsame as (Hc & Hn & He & Hxy & Ha & Hel & Hlen & Hs).
  destruct ix as [[s a] e]. unfold ray_params, ray_of in Hp. cbn [fst snd] in Hp.
  destruct (xyz_sensors T !! s) as [sen|] eqn:Hsen; [|discriminate].
  cbn in Hp.
  destruct (xy_sensors T !! parent_sensor_id sen) as [xy|] eqn:Hxys; [|discriminate].
  cbn in Hp.
  destruct (elevations T !! e) as [el0|] eqn:Hel0; [|discriminate]. cbn in Hp.
  destruct (azimuths T !! a) as [az|] eqn:Haz; [|discriminate]. cbn in Hp.
  destruct (edges T !! parent_edge_id xy) as [edge|] eqn:Hedge; [|discriminate].
  cbn in Hp. inversion Hp; subst start slope el0 h. clear Hp.
  destruct (Hs s sen Hsen) as (sen' & Hsen' & Hh & Hpar).
  unfold xyz_trace_unified_body, ray_of.
  rewrite Hsen'. cbn. rewrite Hpar, <- Hxy, Hxys. cbn.
  rewrite <- Hel, Hel0. cbn. rewrite <- Ha, Haz. cbn. rewrite <- He, Hedge. cbn.
  rewrite Hh, <- (trace_xyz_ray_reads T Tc) by assumption.
  rewrite Hd. cbn. by destruct (Qlt_bool d 0).
Qed.
End UnifiedTrace.

Section UnifiedTraceWhole.
Context `{MathLib}.
Variables (T : Tracer) (fuel : nat).
Hypothesis Hwf : traceable T = true.
Hypothesis Hfuel : (ray_fuel T <= fuel)%nat.

Local Abbreviation dom :=
  (ndrange3 (length (xyz_sensors T)) (n_azimuths T) (n_elevations T)).
Local Abbreviation traced := (traced_after fuel T).

Lemma traced_start : traced [] T.
Proof.
  split; [apply same_reads_refl|]. split.
  - intros ix. rewrite (traceable_views_empty T Hwf). split.
    + intros Hin. by apply not_elem_of_empty in Hin.
    + intros [Hin _]. by apply not_elem_of_nil in Hin.
  - intros s sen Hs. exists sen. split; [exact Hs|]. cbn. ring.
Qed.

Lemma traced_step (done : list (nat * nat * nat)) (ix : nat * nat * nat) (Tc : Tracer) :
  ix ∈ dom -> traced done Tc ->
  exists Tc', xyz_trace_unified_body fuel Tc ix = Some Tc' /\ traced (done ++ [ix]) Tc'.
Proof.
  intros Hix (Hsame & Hviews & Hrad).
  rewrite (xyz_trace_unified_body_step T fuel Hwf Hfuel Tc ix Hix Hsame).
  eexists. split; [reflexivity|].
  destruct (visible_b fuel T ix) eqn:Hv.
  - split; [by apply same_reads_record_view|]. split.
    + intros ix'. unfold record_view. cbn.
      rewrite elem_of_union, elem_of_singleton, Hviews, elem_of_app,
        list_elem_of_singleton.
      split.
      * intros [->|[Hd Hv']]; [by split; [right|]|by split; [left|]].
      * intros [[Hd| ->] Hv']; [right; by split|by left].
    + intros s sen Hs. destruct (Hrad s sen Hs) as (sen' & Hs' & Hr).
      rewrite filter_app, length_app.
      unfold record_view, set_xyz_views, set_xyz_sensors. cbn [xyz_sensors].
      destruct (decide (ix.1.1 = s)) as [Heq|Hne].
      * exists (bump_rad sen'). rewrite Heq, list_lookup_alter_eq, Hs'.
        split; [reflexivity|]. cbn [bump_rad rad].
        rewrite filter_cons_True by (split; [exact Heq|exact Hv]).
        cbn [length filter]. rewrite Hr, Nat2Z.inj_add, inject_Z_plus.
        cbn. ring.
      * exists sen'. rewrite list_lookup_alter_ne by exact Hne.
        split; [exact Hs'|].
        rewrite filter_cons_False by (intros [? _]; contradiction).
        cbn [length filter]. by rewrite Nat.add_0_r.
  - split; [exact Hsame|]. split.
    + intros ix'. rewrite Hviews, elem_of_app, list_elem_of_singleton.
      split; [intros [? ?]; by split; [left|]|].
      intros [[Hd| ->] Hv']; [by split|]. congruence.
    + intros s sen Hs. destruct (Hrad s sen Hs) as (sen' & Hs' & Hr).
      exists sen'. split; [exact Hs'|].
      rewrite filter_app, length_app.
      rewrite filter_cons_False by (intros [_ Hv']; congruence).
      cbn [length filter]. by rewrite Nat.add_0_r.
Qed.

Lemma xyz_trace_unified_traced :
  exists T', xyz_trace_unified fuel T = Some T' /\ traced dom T'.
Proof.
  destruct (kernel_for_invariant (xyz_trace_unified_body fuel) traced dom [] T
              traced_start) as (T' & Hk & HT').
  { intros done i Tc Hi HP. by apply traced_step. }
  exists T'. split; [exact Hk|exact HT'].
Qed.
End UnifiedTraceWhole.

Lemma step_obstructed_b_iff `{MathLib} (T : Tracer) (start slope : vec2) (el h : Q) (k : Z) :
  step_obstructed_b T start slope el h k = true <-> step_obstructed T start slope el h k.
Proof.
  unfold step_obstructed_b, step_obstructed. cbv zeta.
  destruct (nodes T !! _) as [node|].
  - rewrite Qlt_bool_iff. split.
    + intros Hlt. by exists node.
    + intros (node' & Hn & Hlt). by inversion Hn; subst.
  - split; [discriminate|]. intros (node' & Hn & _). discriminate.
Qed.

Lemma obstructed_at_not_clear `{MathLib} (T : Tracer) (ix : nat * nat * nat) (k : Z) :
  (0 <= k)%Z -> obstructed_at_b T ix k = true -> ~ view_clear T ix.
Proof.
  intros Hk Hb (start & slope & el & h & Hp & Hc).
  unfold obstructed_at_b in Hb. rewrite Hp in Hb.
  apply andb_true_iff in Hb as [Hd Ho].
  apply (Hc k Hk); [by apply in_domain_iff|by apply step_obstructed_b_iff].
Qed.

(** ** C1: what the unified trace records *)

(** C1, as amended.  With a positive ray step, every index in range and no
    bit set beforehand, the unified trace completes, and for every
    (xyz sensor, azimuth, elevation) triple whose sensor lies strictly inside
    (0,width) x (0,length) the visibility bit is set if and only if no sampled
    step of its ray (distance k * ray_step_size, location strictly inside the
    scene, distance below max_ray_length) lands in an active cell of height h
    with atan2(h - sensor_height, d) > el_angle.  For every triple, wherever
    its sensor lies, the bit is set if and only if no step before the first
    one that is not sampled is obstructed; each sensor's rad grows by one per
    bit set for it; and a ray all of whose sampled active cells have
    atan2(h - sensor_height, d) <= el_angle, equality included, has its bit
    set. *)
Theorem unified_trace_visibility `{MathLib} (T : Tracer) (fuel : nat) :
  traceable T = true -> (ray_fuel T <= fuel)%nat ->
  exists T', xyz_trace_unified fuel T = Some T'
    /\ (forall ix,
          ix ∈ ndrange3 (length (xyz_sensors T)) (n_azimuths T) (n_elevations T) ->
          sensor_inside T ix ->
          (ix ∈ xyz_views T' <-> view_clear T ix))
    /\ (forall ix,
          ix ∈ ndrange3 (length (xyz_sensors T)) (n_azimuths T) (n_elevations T) ->
          (ix ∈ xyz_views T' <-> view_clear_prefix T ix))
    /\ (forall s sen, xyz_sensors T !! s = Some sen ->
          exists sen', xyz_sensors T' !! s = Some sen'
            /\ rad sen' == rad sen + inject_Z (Z.of_nat (length (views_of T' s))))
    /\ (forall ix start slope el h,
          ix ∈ ndrange3 (length (xyz_sensors T)) (n_azimuths T) (n_elevations T) ->
          ray_params T ix = Some (start, slope, el, h) ->
          (forall k node, (0 <= k)%Z -> step_in_domain T start slope k ->
             nodes T !! (Qfloor (vx (ray_loc T start slope k)),
                         Qfloor (vy (ray_loc T start slope k))) = Some node ->
             atan2 (node_height node - h) (ray_distance T k) <= el) ->
          ix ∈ xyz_views T').
Proof.
  intros Hwf Hfuel.
  destruct (xyz_trace_unified_traced T fuel Hwf Hfuel) as (T' & Hrun & Hsame & Hviews & Hrad).
  exists T'. split; [exact Hrun|].
  assert (Hbit : forall ix,
            ix ∈ ndrange3 (length (xyz_sensors T)) (n_azimuths T) (n_elevations T) ->
            (ix ∈ xyz_views T' <-> view_clear_prefix T ix)).
  { intros ix Hix. rewrite Hviews, <- (visible_b_iff T fuel Hwf Hfuel ix Hix).
    cbn. tauto. }
  split; [|split; [exact Hbit|split]].
  - intros ix Hix Hin. rewrite (Hbit ix Hix).
    symmetry. exact (view_clear_iff_prefix T Hwf ix Hin).
  - intros s sen Hs. destruct (Hrad s sen Hs) as (sen' & Hs' & Hr).
    exists sen'. split; [exact Hs'|]. rewrite Hr.
    unfold views_of.
    destruct Hsame as (Hc & _ & _ & _ & _ & _ & Hlen & _).
    rewrite <- Hlen, <- Hc.
    rewrite (filter_ext_elem
               (fun ix => ix.1.1 = s /\ ix ∈ xyz_views T')
               (fun ix => ix.1.1 = s /\ visible_b fuel T ix = true)); [reflexivity|].
    intros ix Hix. rewrite Hviews. cbn. tauto.
  - intros ix start slope el h Hix Hp Hle. apply (Hbit ix Hix).
    apply view_clear_prefix_weaker.
    exists start, slope, el, h. split; [exact Hp|].
    intros k Hk Hdom (node & Hn & Hlt).
    apply (Qlt_not_le _ _ Hlt). by apply (Hle k node).
Qed.

Lemma unified_trace_visibility_witness :
  let T := wall_scene 400 100 ∅ in
  traceable T = true /\ (ray_fuel T <= 400)%nat
  /\ sensor_inside T (0, 0, 0)%nat
  /\ exists T', xyz_trace_unified 400 T = Some T'
       /\ ((0, 0, 0)%nat ∈ xyz_views T' <-> view_clear T (0, 0, 0)%nat).
Proof.
  cbv zeta.
  set (T := wall_scene 400 100 ∅).
  assert (Hwf : traceable T = true) by (vm_compute; reflexivity).
  assert (Hfuel : (ray_fuel T <= 400)%nat) by (vm_compute; lia).
  assert (Hin : sensor_inside T (0, 0, 0)%nat).
  { pose (p := default (Vec2 0 0, Vec2 0 0, 0, 0) (ray_params T (0, 0, 0)%nat)).
    exists p.1.1.1, p.1.1.2, p.1.2, p.2. split; vm_compute; reflexivity. }
  split; [exact Hwf|]. split; [exact Hfuel|]. split; [exact Hin|].
  destruct (unified_trace_visibility T 400 Hwf Hfuel) as (T' & Hrun & Hbit & _).
  exists T'. split; [exact Hrun|]. apply Hbit; [|exact Hin].
  apply elem_of_ndrange3. vm_compute. lia.
Defined.

(** C1, as stated, fails for a sensor outside the scene.  The wall from
    (5,20) to (7,21.25) with [sensor_normal_offset = 12] puts its first sensor
    at about (-0.94, 30.44); its first ray points up and to the right and
    enters the scene at step 5.  The loop of [trace_xyz_ray] never starts,
    because step 0 is outside, so bit (0,0,0) is set; yet step 29, at about
    (5.69, 58.67) and distance 29, is a sampled step in the sense of the claim
    and lands in the active cell (5,58) of height 1000, which obstructs the
    lowest elevation. *)
Lemma unified_trace_outside_sensor :
  let T := corner_scene {[ (5, 58)%Z := tall_node ]} in
  traceable T = true
  /\ (exists T', xyz_trace_unified (ray_fuel T) T = Some T'
                 /\ (0, 0, 0)%nat ∈ xyz_views T')
  /\ obstructed_at_b T (0, 0, 0)%nat 29 = true
  /\ ~ view_clear T (0, 0, 0)%nat.
Proof.
  cbv zeta. split; [vm_compute; reflexivity|]. split; [|split].
  - assert (Hb : (T'' ← xyz_trace_unified
                         (ray_fuel (corner_scene {[ (5, 58)%Z := tall_node ]}))
                         (corner_scene {[ (5, 58)%Z := tall_node ]});
                  Some (bool_decide ((0, 0, 0)%nat ∈ xyz_views T''))) = Some true)
      by (vm_compute; reflexivity).
    destruct (xyz_trace_unified _ _) as [T'|]; [|discriminate].
    exists T'. split; [reflexivity|].
    refine (bool_decide_eq_true_1 _ _). cbn in Hb. by inversion Hb.
  - vm_compute; reflexivity.
  - apply (obstructed_at_not_clear _ _ 29); [lia|vm_compute; reflexivity].
Qed.

(** ** C5: where the ray-length check sits *)

Lemma loc_in_scene_iff (T : Tracer) (start slope : vec2) (k : Z) :
  inside_scene T (ray_loc T start slope k) = true <-> loc_in_scene T start slope k.
Proof.
  unfold inside_scene, loc_in_scene. cbv zeta.
  rewrite !andb_true_iff, !Qlt_bool_iff. tauto.
Qed.

(** C5, as amended.  The comparison of the distance with max_ray_length is
    part of the loop guard of [trace_xyz_ray], evaluated before the cell of a
    step is looked at: when step [k] is at a distance of max_ray_length or
    more and no earlier step obstructs, the ray is reported unobstructed
    whatever cell step [k] lands in. *)
Theorem ray_length_checked_before_cell `{MathLib} (T : Tracer) (start slope : vec2)
    (el_angle h : Q) (k : Z) (fuel : nat) :
  (0 <= k)%Z -> (Z.to_nat k <= fuel)%nat ->
  max_ray_length T <= ray_distance T k ->
  (forall j, (0 <= j < k)%Z ->
     step_in_domain T start slope j /\ ~ step_obstructed T start slope el_angle h j) ->
  trace_xyz_ray fuel T start slope el_angle h = Some (-1).
Proof.
  intros Hk Hfuel Hmax Hpre.
  assert (Hout : ~ step_in_domain T start slope (0 + Z.of_nat (Z.to_nat k))).
  { rewrite Z.add_0_l, Z2Nat.id by exact Hk. intros [_ Hlt].
    apply (Qlt_not_le _ _ Hlt Hmax). }
  destruct (ray_loop_from T start slope el_angle h (Z.to_nat k) 0 fuel Hfuel Hout)
    as (st & Hst & Hcases).
  unfold trace_xyz_ray. cbv zeta. fold (ray_state_at T start slope 0 0).
  rewrite Hst. cbn [mbind option_bind].
  destruct Hcases as [(Hhf & _)|(Hhf & j & Hj & Hobsj & Hdomj & _)].
  - by rewrite Hhf.
  - exfalso. destruct (Z_lt_le_dec j k) as [Hlt|Hge].
    + destruct (Hpre j) as [_ Hno]; [lia|]. contradiction.
    + rewrite Z.add_0_l, Z2Nat.id in Hout by exact Hk. apply Hout, Hdomj. lia.
Qed.

Lemma ray_length_checked_before_cell_witness :
  let T := wall_scene 3 100 {[ (14, 19)%Z := tall_node ]} in
  trace_xyz_ray 3 T (Vec2 (23 # 2) (39 # 2)) (Vec2 1 0) (1 # 10) 0 = Some (-1).
Proof.
  cbv zeta.
  apply (ray_length_checked_before_cell _ _ _ _ _ 3); [lia|vm_compute; lia| |].
  - apply Qlt_bool_false_iff. vm_compute; reflexivity.
  - intros j Hj.
    assert (Hjs : j = 0%Z \/ j = 1%Z \/ j = 2%Z) by lia.
    split.
    + apply in_domain_iff. destruct Hjs as [->|[->| ->]]; vm_compute; reflexivity.
    + intros Ho. apply step_obstructed_b_iff in Ho.
      destruct Hjs as [->|[->| ->]]; vm_compute in Ho; discriminate.
Defined.

(** C5, as stated, fails.  In front of the east-facing wall the first sensor
    sits at (11.5, 19.5) and looks along +x; with max_ray_length = 400 and a
    unit step, step 400 is at (411.5, 19.5): inside the scene, at a distance
    equal to max_ray_length, in the active cell (411,19) of height 1000, which
    obstructs the lowest elevation.  The claim has that cell sampled; the
    trace returns -1, unobstructed. *)
Lemma ray_length_boundary_not_sampled :
  let T := wall_scene 400 100 {[ (411, 19)%Z := tall_node ]} in
  exists start slope el h,
    ray_params T (0, 0, 0)%nat = Some (start, slope, el, h)
    /\ loc_in_scene T start slope 400
    /\ ray_distance T 400 == max_ray_length T
    /\ step_obstructed T start slope el h 400
    /\ (forall j, (0 <= j < 400)%Z -> ~ step_obstructed T start slope el h j)
    /\ trace_xyz_ray (ray_fuel T) T start slope el h = Some (-1).
Proof.
  cbv zeta.
  set (T := wall_scene 400 100 {[ (411, 19)%Z := tall_node ]}).
  pose (p := default (Vec2 0 0, Vec2 0 0, 0, 0) (ray_params T (0, 0, 0)%nat)).
  exists p.1.1.1, p.1.1.2, p.1.2, p.2.
  split; [vm_compute; reflexivity|].
  split; [apply loc_in_scene_iff; vm_compute; reflexivity|].
  split; [apply Qeq_bool_iff; vm_compute; reflexivity|].
  split; [apply step_obstructed_b_iff; vm_compute; reflexivity|].
  split; [|vm_compute; reflexivity].
  intros j Hj Ho. apply step_obstructed_b_iff in Ho.
  assert (Hall : forallb (fun k =>
            negb (step_obstructed_b T p.1.1.1 p.1.1.2 p.1.2 p.2 (Z.of_nat k)))
            (seq 0 400) = true)
    by (vm_compute; reflexivity).
  rewrite forallb_forall in Hall.
  specialize (Hall (Z.to_nat j)). rewrite Z2Nat.id in Hall by lia.
  rewrite Ho in Hall. discriminate Hall. apply in_seq. lia.
Qed.

(** ** C7: the two-phase trace against the unified trace *)

(** C7, evaluated where the two traces part.  With max_ray_length = 400, a
    unit step and steps_per_unroll_loop = 150, [xy_trace] runs
    ceil(400 / 150) = 3 passes of 150 steps and has no check of the distance
    against max_ray_length, so it logs the active cell (431,19), 420 m from
    the first sensor; [xyz_trace] then finds the lowest elevation obstructed.
    The unified trace stops at 400 m and sets the bit. *)
Theorem two_phase_trace_overshoots :
  let T := wall_scene 400 150 {[ (431, 19)%Z := tall_node ]} in
  N_LOOPS_TO_UNROLL T = 3%Z
  /\ exists Tu Tp su sp,
       xyz_trace_unified (ray_fuel T) T = Some Tu
       /\ two_phase_trace T = Some Tp
       /\ (0, 0, 0)%nat ∈ xyz_views Tu
       /\ ((0, 0, 0)%nat ∉ xyz_views Tp)
       /\ (xyz_sensors Tu !! 0%nat) = Some su /\ rad su == 7
       /\ (xyz_sensors Tp !! 0%nat) = Some sp /\ rad sp == 1.
Proof.
  cbv zeta. split; [vm_compute; reflexivity|].
  set (T := wall_scene 400 150 {[ (431, 19)%Z := tall_node ]}).
  pose (summary := fun T' : Tracer =>
          (bool_decide ((0, 0, 0)%nat ∈ xyz_views T'),
           match xyz_sensors T' !! 0%nat with
           | Some sen => Some (Qred (rad sen))
           | None => None
           end)).
  assert (Hu : summary <$> xyz_trace_unified (ray_fuel T) T = Some (true, Some 7))
    by (vm_compute; reflexivity).
  assert (Hp : summary <$> two_phase_trace T = Some (false, Some 1))
    by (vm_compute; reflexivity).
  clearbody T.
  destruct (xyz_trace_unified _ _) as [Tu|]; [|discriminate Hu].
  destruct (two_phase_trace _) as [Tp|]; [|discriminate Hp].
  unfold summary in Hu, Hp. cbn [fmap option_fmap option_map] in Hu, Hp.
  destruct (xyz_sensors Tu !! 0%nat) as [su|] eqn:Esu; [|discriminate Hu].
  destruct (xyz_sensors Tp !! 0%nat) as [sp|] eqn:Esp; [|discriminate Hp].
  inversion Hu as [[Hu1 Hu2]]. inversion Hp as [[Hp1 Hp2]].
  exists Tu, Tp, su, sp.
  split; [reflexivity|]. split; [reflexivity|].
  split; [refine (bool_decide_eq_true_1 _ _); exact Hu1|].
  split; [refine (bool_decide_eq_false_1 _ _); exact Hp1|].
  split; [exact Esu|].
  split; [rewrite <- (Qred_correct (rad su)), Hu2; reflexivity|].
  split; [exact Esp|]. rewrite <- (Qred_correct (rad sp)), Hp2. reflexivity.
Qed.

(** ** C3: the normal stored for an edge *)

Lemma edges_from_elem `{MathLib} (cfg : Config) (flat : list (nat * Q * (vec2 * vec2))) :
  forall (sensor_start : Z) (E : Edge),
    E ∈ edges_from cfg flat sensor_start ->
    exists bid height start_pt end_pt st,
      E = make_edge cfg bid height start_pt end_pt st.
Proof.
  induction flat as [|[[bid height] [start_pt end_pt]] flat IH]; intros st E HE.
  - by apply not_elem_of_nil in HE.
  - cbn [edges_from] in HE. apply elem_of_cons in HE as [->|HE].
    + by exists bid, height, start_pt, end_pt, st.
    + by apply (IH _ _ HE).
Qed.

(** C3, as amended.  The normal stored for an edge is the cross product of +z
    with the unit slope vector, restricted to the xy-plane:
    normal = (+z x slopevec).xy = (-slope_y, slope_x); it has unit length
    whenever slopevec has. *)
Theorem edge_normal_is_up_cross_slope `{MathLib} (cfg : Config)
    (gdf : list (Q * list (list vec2))) (E : Edge) :
  E ∈ extract_flat_edge_list cfg gdf ->
  veq (normal E) (Vec2 (- vy (slopevec E)) (vx (slopevec E)))
  /\ (vx (slopevec E) * vx (slopevec E) + vy (slopevec E) * vy (slopevec E) == 1 ->
      vx (normal E) * vx (normal E) + vy (normal E) * vy (normal E) == 1).
Proof.
  intros HE. apply edges_from_elem in HE as (bid & height & start_pt & end_pt & st & ->).
  unfold make_edge, edge_normal, np_cross, veq.
  cbn [normal slopevec vx vy v3x v3y v3z].
  set (rr := run_rise start_pt end_pt).
  split; [split; ring|]. intros Hunit.
  apply (Qeq_trans _ (vx rr * vx rr + vy rr * vy rr)); [ring|exact Hunit].
Qed.

Lemma edge_normal_is_up_cross_slope_witness :
  let cfg := demo_config 2 (3 # 2) 400 100 in
  let E := make_edge cfg 0 3 (Vec2 5 5) (Vec2 8 9) 0 in
  extract_flat_edge_list cfg (one_building triangle_ring) !! 0%nat = Some E
  /\ vx (slopevec E) * vx (slopevec E) + vy (slopevec E) * vy (slopevec E) == 1
  /\ vx (normal E) * vx (normal E) + vy (normal E) * vy (normal E) == 1.
Proof.
  cbv zeta.
  set (cfg := demo_config 2 (3 # 2) 400 100).
  set (E := make_edge cfg 0 3 (Vec2 5 5) (Vec2 8 9) 0).
  assert (H0 : extract_flat_edge_list cfg (one_building triangle_ring) !! 0%nat = Some E)
    by (vm_compute; reflexivity).
  assert (Hu : vx (slopevec E) * vx (slopevec E) + vy (slopevec E) * vy (slopevec E) == 1)
    by (apply Qeq_bool_iff; vm_compute; reflexivity).
  split; [exact H0|]. split; [exact Hu|].
  exact (proj2 (edge_normal_is_up_cross_slope cfg (one_building triangle_ring) E
                  (list_elem_of_lookup_2 _ _ _ H0)) Hu).
Defined.

(** C3, as stated, fails: the first edge of the unit square, from (5,5) to
    (6,5), has the unit slope (1,0) and the stored normal (0,1), not
    (slope_y, -slope_x) = (0,-1). *)
Lemma edge_normal_not_slope_cross_up :
  exists E,
    extract_flat_edge_list (demo_config 2 (3 # 2) 400 100) (one_building square_ring)
      !! 0%nat = Some E
    /\ veq (e_start E) (Vec2 5 5) /\ veq (e_end E) (Vec2 6 5)
    /\ veq (slopevec E) (Vec2 1 0)
    /\ veq (normal E) (Vec2 0 1)
    /\ ~ veq (normal E) (Vec2 (vy (slopevec E)) (- vx (slopevec E))).
Proof.
  eexists. split; [vm_compute; reflexivity|].
  split; [split; apply Qeq_bool_iff; vm_compute; reflexivity|].
  split; [split; apply Qeq_bool_iff; vm_compute; reflexivity|].
  split; [split; apply Qeq_bool_iff; vm_compute; reflexivity|].
  split; [split; apply Qeq_bool_iff; vm_compute; reflexivity|].
  intros [_ Hy]. apply Qeq_bool_iff in Hy. vm_compute in Hy. discriminate Hy.
Qed.

(** ** C4: sensors per edge *)

Lemma Qfloor_unique (x : Q) (z : Z) :
  inject_Z z <= x -> x < inject_Z (z + 1) -> Qfloor x = z.
Proof.
  intros Hle Hlt.
  assert (H1 : (z <= Qfloor x)%Z).
  { rewrite <- (Qfloor_Z z). by apply Qfloor_resp_le. }
  assert (H2 : (Qfloor x < z + 1)%Z).
  { rewrite Zlt_Qlt. eapply Qle_lt_trans; [apply Qfloor_le|exact Hlt]. }
  lia.
Qed.

Lemma Qfloor_add_1 (x : Q) : Qfloor (x + 1) = (Qfloor x + 1)%Z.
Proof.
  apply Qfloor_unique.
  - rewrite inject_Z_plus. apply Qplus_le_compat; [apply Qfloor_le|apply Qle_refl].
  - pose proof (Qlt_floor x) as Hlt. rewrite !inject_Z_plus in *.
    change (inject_Z 1) with 1 in *. lra.
Qed.

(** C4, as amended.  With L the length of the edge and
    q = (L - 2 * sensor_inset) / sensor_spacing, the sensor count of the edge
    is floor(q) + 1 whenever q >= 1, and 0 otherwise; in particular it is 0,
    not 1, for 0 <= q < 1. *)
Theorem sensor_count_threshold `{MathLib} (cfg : Config)
    (gdf : list (Q * list (list vec2))) (E : Edge) :
  ~ sensor_spacing cfg == 0 ->
  E ∈ extract_flat_edge_list cfg gdf ->
  let L := edge_length (e_start E) (e_end E) in
  let q := (L - 2 * sensor_inset cfg) / sensor_spacing cfg in
  (1 <= q -> sensor_ct E = (Qfloor q + 1)%Z)
  /\ (q < 1 -> sensor_ct E = 0%Z)
  /\ (0 <= q < 1 -> sensor_ct E = 0%Z).
Proof.
  intros _ HE.
  apply edges_from_elem in HE as (bid & height & start_pt & end_pt & st & ->).
  cbv zeta. unfold make_edge, sensor_count. cbn [sensor_ct e_start e_end].
  set (q := (edge_length start_pt end_pt - 2 * sensor_inset cfg) / sensor_spacing cfg).
  assert (Hsmall : q < 1 -> Qfloor (if Qle_bool 1 q then q + 1 else 0) = 0%Z).
  { intros Hlt. destruct (Qle_bool 1 q) eqn:E; [|reflexivity].
    apply Qle_bool_iff in E. exfalso. apply (Qlt_not_le _ _ Hlt E). }
  split; [|split].
  - intros Hge. apply Qle_bool_iff in Hge. rewrite Hge. apply Qfloor_add_1.
  - exact Hsmall.
  - intros [_ Hlt]. by apply Hsmall.
Qed.

Lemma sensor_count_threshold_witness :
  let cfg := demo_config 2 (3 # 2) 400 100 in
  let E := make_edge cfg 0 3 (Vec2 5 5) (Vec2 8 9) 0 in
  ~ sensor_spacing cfg == 0
  /\ extract_flat_edge_list cfg (one_building triangle_ring) !! 0%nat = Some E
  /\ edge_length (e_start E) (e_end E) == 5
  /\ sensor_ct E = 5%Z.
Proof.
  cbv zeta.
  set (cfg := demo_config 2 (3 # 2) 400 100).
  set (E := make_edge cfg 0 3 (Vec2 5 5) (Vec2 8 9) 0).
  assert (Hs : ~ sensor_spacing cfg == 0)
    by (intros Hs; apply Qeq_bool_iff in Hs; vm_compute in Hs; discriminate Hs).
  assert (H0 : extract_flat_edge_list cfg (one_building triangle_ring) !! 0%nat = Some E)
    by (vm_compute; reflexivity).
  split; [exact Hs|]. split; [exact H0|].
  split; [apply Qeq_bool_iff; vm_compute; reflexivity|].
  destruct (sensor_count_threshold cfg (one_building triangle_ring) E Hs
              (list_elem_of_lookup_2 _ _ _ H0)) as [Hge _].
  rewrite Hge; [vm_compute; reflexivity|].
  apply Qle_bool_iff. vm_compute; reflexivity.
Defined.

(** C4, as stated, fails: the first edge of the slab, from (5,5) to (6.5,5),
    has length 1.5, so with the default inset 0.5 and spacing 1 the quotient
    q is 0.5, within [0,1), and the edge gets no sensor, not one. *)
Lemma sensor_count_short_edge :
  let cfg := demo_config 2 (3 # 2) 400 100 in
  exists E,
    extract_flat_edge_list cfg (one_building slab_ring) !! 0%nat = Some E
    /\ let q := (edge_length (e_start E) (e_end E) - 2 * sensor_inset cfg)
                / sensor_spacing cfg in
       q == 1 # 2 /\ (Qfloor q + 1 = 1)%Z /\ sensor_ct E = 0%Z /\ sensor_ct E <> 1%Z.
Proof.
  cbv zeta. eexists. split; [vm_compute; reflexivity|].
  split; [apply Qeq_bool_iff; vm_compute; reflexivity|].
  split; [vm_compute; reflexivity|]. split; [vm_compute; reflexivity|].
  vm_compute. discriminate.
Qed.

(** ** C6: resampling a band that already has the requested size *)

Lemma Qdiv_1_r_eq (x : Q) : x / inject_Z (Z.of_nat 1) = x.
Proof.
  destruct x as [n d]. unfold Qdiv, Qmult, Qinv. cbn.
  by rewrite Z.mul_1_r, Pos.mul_1_r.
Qed.

Lemma row_mean_singleton (r : list Q) : row_mean [r] = r.
Proof.
  unfold row_mean. cbn [fold_left length].
  induction r as [|x r IH]; [reflexivity|].
  cbn [map]. by rewrite Qdiv_1_r_eq, IH.
Qed.

Lemma np_repeat_1 {A : Type} (rows : list A) : np_repeat 1 rows = rows.
Proof.
  unfold np_repeat. induction rows as [|x rows IH]; [reflexivity|].
  cbn. cbn in IH. by rewrite IH.
Qed.

Lemma cut_groups_1 {A : Type} (rows : list A) :
  cut_groups (length rows) 1 rows = map (fun x => [x]) rows.
Proof.
  induction rows as [|x rows IH]; [reflexivity|].
  cbn [length cut_groups map]. rewrite <- IH. reflexivity.
Qed.

Lemma resample_band_same_size (n_azimuths : nat) (band : list (list Q)) :
  (0 < n_azimuths)%nat -> length band = n_azimuths ->
  resample_band n_azimuths band = Some band.
Proof.
  intros Hpos Hlen. unfold resample_band. rewrite Hlen.
  rewrite bool_decide_eq_false_2 by lia.
  replace (Nat.lcm n_azimuths n_azimuths) with n_azimuths
    by (symmetry; apply Nat.lcm_diag).
  rewrite Nat.div_same by lia. rewrite np_repeat_1.
  unfold reshape_groups. rewrite bool_decide_eq_true_2 by lia.
  cbn [mbind option_bind]. f_equal. rewrite <- Hlen, cut_groups_1.
  rewrite map_map. clear. induction band as [|r band IH]; [reflexivity|].
  cbn [map]. by rewrite row_mean_singleton, IH.
Qed.

(** C6.  A band whose native patch count equals the requested azimuth count
    comes out of the resampling step unchanged (the least common multiple is
    the count itself, every patch is repeated once, every group is one patch
    and its mean is that patch); hence resampling bands that all have the
    requested count is the identity on the radiance array. *)
Theorem resample_same_size_identity (n_azimuths : nat) :
  (0 < n_azimuths)%nat ->
  (forall band : list (list Q),
     length band = n_azimuths -> resample_band n_azimuths band = Some band)
  /\ (forall bands : list (list (list Q)),
        Forall (fun band => length band = n_azimuths) bands ->
        mapM (resample_band n_azimuths) bands = Some bands).
Proof.
  intros Hpos. split.
  - intros band Hlen. by apply resample_band_same_size.
  - intros bands Hall. apply mapM_Some.
    induction Hall as [|band bands Hlen Hall IH]; constructor; [|exact IH].
    by apply resample_band_same_size.
Qed.

Lemma resample_same_size_identity_witness :
  (0 < 2)%nat
  /\ resample_band 2 [[1; 2; 3]; [4; 5; 6]] = Some [[1; 2; 3]; [4; 5; 6]].
Proof.
  split; [lia|].
  apply (proj1 (resample_same_size_identity 2 ltac:(lia))). reflexivity.
Defined.

(** The resampler run on a whole sky: with [mfactor = 1] and thirty azimuths
    the two lowest bands, of thirty patches each, are returned as they are. *)
Lemma reinhart_band_unchanged (sky : list (list Q)) (radiance : list (list (list Q)))
    (i : nat) (band : list (list Q)) :
  reinhart_to_meridinal_parallel_sky 1 30 sky = Some radiance ->
  split_bands (patches_per_elevation 1)
    (take (length sky - 2) (drop 1 sky)) !! i = Some band ->
  length band = 30%nat ->
  radiance !! i = Some band.
Proof.
  unfold reinhart_to_meridinal_parallel_sky.
  destruct (bool_decide _); [|discriminate].
  intros Hrun Hband Hlen. apply mapM_Some in Hrun.
  destruct (Forall2_lookup_l _ _ _ _ _ Hrun Hband) as (out & Hout & Hres).
  rewrite resample_band_same_size in Hres by (lia || exact Hlen).
  by inversion Hres; subst.
Qed.

(** ** C2: what the accumulator adds for a set bit *)

Lemma tracer_azimuths_lookup (n : nat) (inc : Q) (a : nat) :
  (a < n)%nat -> tracer_azimuths n inc !! a = Some (inject_Z (Z.of_nat a) * inc).
Proof.
  intros Ha. unfold tracer_azimuths.
  rewrite list_lookup_fmap, lookup_seq_lt by exact Ha. reflexivity.
Qed.

(** The hourly loop of [timestep_sky] adds its term once to every hour of
    the sensor's row and leaves the other rows alone. *)
Lemma hourly_loop_adds (g : nat -> Q) (s : nat) (hours : list nat)
    (f : nat -> nat -> Q) :
  NoDup hours ->
  forall s' t,
    fold_left (fun ts timestep => field_add ts s timestep (g timestep)) hours f s' t
    = if bool_decide (s' = s /\ t ∈ hours) then f s' t + g t else f s' t.
Proof.
  intros Hnd. revert f. induction Hnd as [|h hours Hnotin Hnd IH]; intros f s' t.
  - cbn. rewrite bool_decide_eq_false_2; [reflexivity|].
    intros [_ Hin]. by apply not_elem_of_nil in Hin.
  - cbn [fold_left]. rewrite IH. unfold field_add.
    destruct (decide (s' = s)) as [->|Hs].
    + destruct (decide (t = h)) as [->|Ht].
      * rewrite (bool_decide_eq_false_2 (s = s /\ h ∈ hours)) by tauto.
        rewrite bool_decide_eq_true_2 by done.
        rewrite bool_decide_eq_true_2; [reflexivity|]. split; [done|left].
      * rewrite (bool_decide_eq_false_2 (s = s /\ t = h)) by tauto.
        destruct (decide (t ∈ hours)) as [Hin|Hout].
        -- rewrite !bool_decide_eq_true_2; [reflexivity| |]; split; try done.
           by right.
        -- rewrite !bool_decide_eq_false_2; [reflexivity| |]; intros [_ Hin].
           ++ apply elem_of_cons in Hin as [?|?]; contradiction.
           ++ contradiction.
    + rewrite !bool_decide_eq_false_2; [reflexivity| | |]; tauto.
Qed.

Section Accumulator.
Context `{MathLib}.
Variable T : Tracer.
Hypothesis Hlinked : linked T = true.
Hypothesis Haz : azimuths T = tracer_azimuths (n_azimuths T) (azimuth_inc T).

(** The lookups of the kernel body succeed on every index in range. *)
Lemma linked_lookups (ix : nat * nat * nat) :
  ix ∈ ndrange3 (length (xyz_sensors T)) (n_azimuths T) (n_elevations T) ->
  exists sen xy edge el,
    xyz_sensors T !! ix.1.1 = Some sen
    /\ xy_sensors T !! parent_sensor_id sen = Some xy
    /\ edges T !! parent_edge_id xy = Some edge
    /\ elevations T !! ix.2 = Some el.
Proof.
  intros Hix. apply elem_of_ndrange3 in Hix as (Hs & Ha & He).
  unfold linked in Hlinked. rewrite !andb_true_iff in Hlinked.
  destruct Hlinked as [[[Hxy Hxyz] _] Hel].
  apply bool_decide_eq_true in Hel.
  rewrite forallb_forall in Hxy, Hxyz.
  destruct (lookup_lt_is_Some_2 (xyz_sensors T) ix.1.1 Hs) as [sen Hsen].
  assert (Hp : (parent_sensor_id sen < length (xy_sensors T))%nat).
  { eapply bool_decide_eq_true_1, Hxyz, list_elem_of_In.
    eapply list_elem_of_lookup_2; eauto. }
  destruct (lookup_lt_is_Some_2 _ _ Hp) as [xy Hxys].
  assert (Hpe : (parent_edge_id xy < length (edges T))%nat).
  { eapply bool_decide_eq_true_1, Hxy, list_elem_of_In.
    eapply list_elem_of_lookup_2; eauto. }
  destruct (lookup_lt_is_Some_2 _ _ Hpe) as [edge Hedge].
  destruct (lookup_lt_is_Some_2 (elevations T) ix.2) as [el Hel']; [lia|].
  by exists sen, xy, edge, el.
Qed.

(** One iteration of the kernel body. *)
Lemma timestep_sky_body_step (ix : nat * nat * nat) :
  ix ∈ ndrange3 (length (xyz_sensors T)) (n_azimuths T) (n_elevations T) ->
  exists f',
    timestep_sky_body T ix = Some (set_xyz_sensor_timesteps T f')
    /\ forall s t,
         f' s t = if bool_decide (s = ix.1.1 /\ t < n_timesteps)%nat
                  then xyz_sensor_timesteps T s t + bit_term T ix t
                  else xyz_sensor_timesteps T s t.
Proof.
  intros Hix.
  destruct (linked_lookups ix Hix) as (sen & xy & edge & el & Hsen & Hxy & Hedge & Hel).
  apply elem_of_ndrange3 in Hix as (Hs & Ha & He).
  destruct ix as [[s a] e]. cbn [fst snd] in *.
  unfold timestep_sky_body, ray_az_angle, bit_term. cbn [fst snd].
  rewrite Hsen. cbn [mbind option_bind]. rewrite Hxy. cbn [mbind option_bind].
  rewrite Hedge. cbn [mbind option_bind].
  rewrite Haz, tracer_azimuths_lookup by exact Ha. cbn [mbind option_bind].
  rewrite Hel. cbn [mbind option_bind default].
  eexists. split; [reflexivity|].
  intros s' t.
  rewrite (hourly_loop_adds
             (fun timestep =>
                sky_normal_irradiance_field T e
                  (sky_patch_az_ix T
                     (inject_Z (Z.of_nat a) * azimuth_inc T + az_start_angle edge))
                  timestep
                * incidence_factor
                    (inject_Z (Z.of_nat a) * azimuth_inc T + az_start_angle edge)
                    (normal_theta edge) el)) by apply NoDup_seq.
  assert (Hiff : (s' = s /\ t ∈ seq 0 n_timesteps) <-> (s' = s /\ (t < n_timesteps)%nat)).
  { rewrite elem_of_seq. split; intros [? ?]; split; (done || lia). }
  destruct (decide (s' = s /\ (t < n_timesteps)%nat)) as [Hyes|Hno].
  - rewrite !bool_decide_eq_true_2 by tauto. reflexivity.
  - rewrite !bool_decide_eq_false_2 by tauto. reflexivity.
Qed.
End Accumulator.

Lemma elem_of_active_views (T : Tracer) (ix : nat * nat * nat) :
  ix ∈ active_views T
  <-> ix ∈ xyz_views T
      /\ ix ∈ ndrange3 (length (xyz_sensors T)) (n_azimuths T) (n_elevations T).
Proof. unfold active_views. by rewrite list_elem_of_filter. Qed.

Lemma Qsum_snoc (l : list Q) (x : Q) : Qsum (l ++ [x]) == Qsum l + x.
Proof.
  induction l as [|y l IH]; cbn [app Qsum fold_right]; [ring|].
  fold (Qsum (l ++ [x])). fold (Qsum l). rewrite IH. ring.
Qed.

(** The whole kernel: every hour of every sensor receives the terms of the
    sensor's set bits, one after the other. *)
Lemma timestep_sky_summed `{MathLib} (T : Tracer) :
  linked T = true ->
  azimuths T = tracer_azimuths (n_azimuths T) (azimuth_inc T) ->
  exists T', timestep_sky T = Some T'
    /\ forall s t, (t < n_timesteps)%nat ->
         xyz_sensor_timesteps T' s t
         == xyz_sensor_timesteps T s t
            + Qsum (map (fun ix => bit_term T ix t)
                      (filter (fun ix => ix.1.1 = s) (active_views T))).
Proof.
  intros Hlinked Haz.
  pose (summed := fun (done : list (nat * nat * nat)) (Tc : Tracer) =>
          exists f, Tc = set_xyz_sensor_timesteps T f
            /\ forall s t, (t < n_timesteps)%nat ->
                 f s t == xyz_sensor_timesteps T s t
                          + Qsum (map (fun ix => bit_term T ix t)
                                    (filter (fun ix => ix.1.1 = s) done))).
  destruct (kernel_for_invariant timestep_sky_body summed (active_views T) [] T)
    as (T' & Hrun & f & -> & Hf).
  - exists (xyz_sensor_timesteps T). split; [by destruct T|].
    intros s t _. cbn. ring.
  - intros done ix Tc Hix (f & -> & Hf).
    apply elem_of_active_views in Hix as [_ Hix].
    destruct (timestep_sky_body_step (set_xyz_sensor_timesteps T f) Hlinked Haz ix Hix)
      as (f' & Hbody & Hf').
    exists (set_xyz_sensor_timesteps T f'). split; [exact Hbody|].
    exists f'. split; [reflexivity|]. intros s t Ht.
    rewrite Hf'. cbn [xyz_sensor_timesteps set_xyz_sensor_timesteps].
    change (bit_term (set_xyz_sensor_timesteps T f) ix t) with (bit_term T ix t).
    rewrite filter_app, map_app.
    destruct (decide (ix.1.1 = s)) as [Heq|Hne].
    + rewrite bool_decide_eq_true_2 by (split; [done|exact Ht]).
      rewrite filter_cons_True by exact Heq. cbn [filter map list_filter].
      rewrite (Hf s t Ht), Qsum_snoc. ring.
    + rewrite bool_decide_eq_false_2 by (intros [? _]; congruence).
      rewrite filter_cons_False by exact Hne. cbn [filter map list_filter].
      rewrite app_nil_r. by apply Hf.
  - exists (set_xyz_sensor_timesteps T f). split; [exact Hrun|].
    intros s t Ht. by apply Hf.
Qed.

(** C2.  For every set bit (s, a, e) and every hour t < 8760, the iteration
    of the accumulator for that bit adds exactly
    normal_irradiance[e, a_sky, t] * cos(|psi - normal_theta|) * cos(el_e)
    to time_series[s, t], where psi = a * azimuth_inc + az_start_angle of the
    sensor's parent edge, normal_theta is that edge's normal angle and
    a_sky = floor(psi / azimuth_inc) mod n_azimuths_sky lies in
    [0, n_azimuths_sky) whatever the sign of psi; and the whole kernel leaves
    in time_series[s, t] the sum of these terms over the set bits of s. *)
Theorem timestep_sky_adds `{MathLib} (T : Tracer) :
  linked T = true ->
  azimuths T = tracer_azimuths (n_azimuths T) (azimuth_inc T) ->
  (0 < sky_n_azimuths T)%Z ->
  (forall s a e sen xy edge el t,
     (s, a, e) ∈ active_views T ->
     xyz_sensors T !! s = Some sen ->
     xy_sensors T !! parent_sensor_id sen = Some xy ->
     edges T !! parent_edge_id xy = Some edge ->
     elevations T !! e = Some el ->
     (t < n_timesteps)%nat ->
     let psi := inject_Z (Z.of_nat a) * azimuth_inc T + az_start_angle edge in
     let a_sky := (Qfloor (psi / azimuth_inc T) mod sky_n_azimuths T)%Z in
     (0 <= a_sky < sky_n_azimuths T)%Z
     /\ bit_term T (s, a, e) t
        = sky_normal_irradiance_field T e a_sky t
          * (cos (Qabs (psi - normal_theta edge)) * cos el)
     /\ exists f', timestep_sky_body T (s, a, e) = Some (set_xyz_sensor_timesteps T f')
          /\ f' s t = xyz_sensor_timesteps T s t
                      + sky_normal_irradiance_field T e a_sky t
                        * (cos (Qabs (psi - normal_theta edge)) * cos el))
  /\ exists T', timestep_sky T = Some T'
       /\ forall s t, (t < n_timesteps)%nat ->
            xyz_sensor_timesteps T' s t
            == xyz_sensor_timesteps T s t
               + Qsum (map (fun ix => bit_term T ix t)
                         (filter (fun ix => ix.1.1 = s) (active_views T))).
Proof.
  intros Hlinked Haz Hsky. split; [|by apply timestep_sky_summed].
  intros s a e sen xy edge el t Hix Hsen Hxy Hedge Hel Ht. cbv zeta.
  apply elem_of_active_views in Hix as [_ Hix].
  split; [by apply Z.mod_pos_bound|].
  assert (Hterm : bit_term T (s, a, e) t
                  = sky_normal_irradiance_field T e
                      (Qfloor ((inject_Z (Z.of_nat a) * azimuth_inc T + az_start_angle edge)
                               / azimuth_inc T) mod sky_n_azimuths T)%Z t
                    * (cos (Qabs (inject_Z (Z.of_nat a) * azimuth_inc T
                                  + az_start_angle edge - normal_theta edge))
                       * cos el)).
  { unfold bit_term. cbn [fst snd]. rewrite Hsen. cbn [mbind option_bind].
    rewrite Hxy. cbn [mbind option_bind]. rewrite Hedge. cbn [mbind option_bind].
    rewrite Hel. reflexivity. }
  split; [exact Hterm|].
  destruct (timestep_sky_body_step T Hlinked Haz (s, a, e) Hix) as (f' & Hbody & Hf').
  exists f'. split; [exact Hbody|].
  rewrite Hf'. cbn [fst snd]. rewrite bool_decide_eq_true_2 by (split; [done|exact Ht]).
  by rewrite Hterm.
Qed.

Lemma timestep_sky_adds_witness :
  let T := set_xyz_views (wall_scene 400 100 ∅) {[ (0, 0, 0)%nat ]} in
  linked T = true /\ (0 < sky_n_azimuths T)%Z
  /\ exists T', timestep_sky T = Some T'.
Proof.
  cbv zeta. split; [vm_compute; reflexivity|]. split; [vm_compute; reflexivity|].
  destruct (timestep_sky_adds (set_xyz_views (wall_scene 400 100 ∅) {[ (0, 0, 0)%nat ]}))
    as [_ (T' & Hrun & _)].
  - vm_compute; reflexivity.
  - reflexivity.
  - vm_compute; reflexivity.
  - by exists T'.
Defined.

(** ** C8: orientation weights *)

Lemma fmod_range (x m : Q) : 0 < m -> 0 <= fmod x m /\ fmod x m < m.
Proof.
  intros Hm. unfold fmod.
  pose proof (Qfloor_le (x / m)) as Hlo. pose proof (Qlt_floor (x / m)) as Hhi.
  rewrite inject_Z_plus in Hhi. change (inject_Z 1) with 1 in Hhi.
  set (f := inject_Z (Qfloor (x / m))) in *.
  assert (Hx : x == x / m * m).
  { field. intros E. rewrite E in Hm. by apply Qlt_irrefl in Hm. }
  assert (H1 : f * m <= x / m * m) by (apply Qmult_le_compat_r; [exact Hlo|lra]).
  assert (H2 : x / m * m < (f + 1) * m) by (apply Qmult_lt_compat_r; assumption).
  rewrite <- Hx in H1, H2. split; lra.
Qed.

(** The [assert False] of the first loop is never reached, and the four
    weights of an edge sum to 1. *)
Lemma cardinal_weights_total `{MathLib} (theta : Q) :
  0 < pi ->
  exists n e s w,
    cardinal_weights (fmod (theta + 2 * pi) (2 * pi)) = Some (n, e, s, w)
    /\ n + e + s + w == 1.
Proof.
  intros Hpi.
  destruct (fmod_range (theta + 2 * pi) (2 * pi)) as [H0 H2]; [lra|].
  set (t := fmod (theta + 2 * pi) (2 * pi)) in *.
  unfold cardinal_weights.
  apply Qle_bool_iff in H0. rewrite H0. cbn [andb].
  destruct (Qle_bool t (pi / 2)) eqn:E1.
  { eexists _, _, _, _. split; [reflexivity|]. ring. }
  assert (L1 : Qlt_bool (pi / 2) t = true) by (unfold Qlt_bool; by rewrite E1).
  rewrite L1. cbn [andb].
  destruct (Qle_bool t pi) eqn:E2.
  { eexists _, _, _, _. split; [reflexivity|]. ring. }
  assert (L2 : Qlt_bool pi t = true) by (unfold Qlt_bool; by rewrite E2).
  rewrite L2. cbn [andb].
  destruct (Qle_bool t (3 * pi / 2)) eqn:E3.
  { eexists _, _, _, _. split; [reflexivity|]. ring. }
  assert (L3 : Qlt_bool (3 * pi / 2) t = true) by (unfold Qlt_bool; by rewrite E3).
  rewrite L3. cbn [andb].
  assert (L4 : Qle_bool t (2 * pi) = true) by (apply Qle_bool_iff; lra).
  rewrite L4. eexists _, _, _, _. split; [reflexivity|]. ring.
Qed.

(** Where no edge is pruned the code does what it is meant to: for the
    building of 10 m by 6 m the edge weights and the cardinal weights both
    sum to 1. *)
Lemma orientation_weights_plain_building :
  exists T' b w c,
    compute_edge_orientation_weights plain_scene = Some T'
    /\ buildings T' !! 0%nat = Some b
    /\ edge_weight_sum T' 0 = Some w /\ w == 1
    /\ cardinal_weight_sum b = Some c /\ c == 1.
Proof.
  pose (summary := fun T' : Tracer =>
          match buildings T' !! 0%nat with
          | Some b =>
              match edge_weight_sum T' 0, cardinal_weight_sum b with
              | Some w, Some c => Qeq_bool w 1 && Qeq_bool c 1
              | _, _ => false
              end
          | None => false
          end).
  assert (Hs : summary <$> compute_edge_orientation_weights plain_scene = Some true)
    by (vm_compute; reflexivity).
  destruct (compute_edge_orientation_weights plain_scene) as [T'|]; [|discriminate Hs].
  unfold summary in Hs. cbn [fmap option_fmap option_map] in Hs.
  destruct (buildings T' !! 0%nat) as [b|] eqn:Hb; [|discriminate Hs].
  destruct (edge_weight_sum T' 0) as [w|] eqn:Ew; [|discriminate Hs].
  destruct (cardinal_weight_sum b) as [c|] eqn:Ec; [|discriminate Hs].
  injection Hs as Hs. apply andb_true_iff in Hs as [Hw Hc].
  apply Qeq_bool_iff in Hw, Hc.
  exists T', b, w, c. split; [reflexivity|]. split; [exact Hb|].
  split; [exact Ew|]. split; [exact Hw|]. split; [exact Ec|exact Hc].
Qed.

(** C8, evaluated where the code breaks it.  The square block, its edges
    extracted from its ring of one hundred vertices, has a qualified
    perimeter of 200 m in one hundred edges of 2 m, each 1 % of the perimeter.
    The second loop sets every edge weight to 0, so the building's sum of
    weights is 0 and the third loop divides 0 by 0: every edge weight ends up
    NaN and so does their sum, which the claim has equal to 1. *)
Theorem orientation_weights_all_pruned :
  exists T' b,
    compute_edge_orientation_weights block_scene = Some T'
    /\ buildings T' !! 0%nat = Some b
    /\ length (edges T') = 100%nat
    /\ qualified_perim_length b == 200
    /\ (exists w, qualified_edge_weight_sum b = Some w /\ w == 0)
    /\ Forall (fun e => weight e = None) (edges T')
    /\ edge_weight_sum T' 0 = None.
Proof.
  pose (summary := fun T' : Tracer =>
          match buildings T' !! 0%nat with
          | Some b =>
              (length (edges T') =? 100)%nat
              && Qeq_bool (qualified_perim_length b) 200
              && match qualified_edge_weight_sum b with
                 | Some w => Qeq_bool w 0 | None => false end
              && forallb (fun e => match weight e with None => true | Some _ => false end)
                   (edges T')
              && match edge_weight_sum T' 0 with None => true | Some _ => false end
          | None => false
          end).
  assert (Hs : summary <$> compute_edge_orientation_weights block_scene = Some true)
    by (vm_compute; reflexivity).
  destruct (compute_edge_orientation_weights block_scene) as [T'|]; [|discriminate Hs].
  unfold summary in Hs. cbn [fmap option_fmap option_map] in Hs.
  destruct (buildings T' !! 0%nat) as [b|] eqn:Hb; [|discriminate Hs].
  injection Hs as Hs. rewrite !andb_true_iff in Hs.
  destruct Hs as [[[[Hlen Hperim] Hwsum] Hall] Hsum].
  apply Nat.eqb_eq in Hlen.
  exists T', b. split; [reflexivity|]. split; [exact Hb|]. split; [exact Hlen|].
  split; [by apply Qeq_bool_iff|]. split.
  { destruct (qualified_edge_weight_sum b) as [w|]; [|discriminate Hwsum].
    exists w. split; [reflexivity|]. by apply Qeq_bool_iff. }
  split.
  { apply Forall_forall. intros e He. rewrite forallb_forall in Hall.
    specialize (Hall e). rewrite <- list_elem_of_In in Hall. specialize (Hall He).
    by destruct (weight e). }
  by destruct (edge_weight_sum T' 0).
Qed.

(** ** C9: the checks of the constructor and of [ray_trace] *)

(** C9.  The constructor raises whenever the table has 2^16 rows or more, or
    node_width is not 1, or the depth the grid needs is 16 or more; [ray_trace]
    raises, without tracing, whenever the ray count is 2^32 or more; and under
    the complementary conditions none of these four checks is what fails. *)
Theorem construction_and_ray_budget_checks `{MathLib} :
  (forall a : InitArgs,
     (2 ^ 16 <= gdf_len a)%Z \/ ~ arg_node_width a == 1 \/ (16 <= required_depth a)%Z ->
     exists e, Tracer_init a = inl e)
  /\ (forall (fuel : nat) (T : Tracer),
        (2 ^ 32 <= xyz_ray_ct T)%Z -> ray_trace fuel T = inl TooManyRays)
  /\ (forall a : InitArgs,
        (gdf_len a < 2 ^ 16)%Z -> arg_node_width a == 1 -> (required_depth a < 16)%Z ->
        Tracer_init a <> inl TooManyBuildings
        /\ Tracer_init a <> inl NodeWidthUnsupported
        /\ Tracer_init a <> inl DepthTooLarge)
  /\ (forall (fuel : nat) (T : Tracer),
        (xyz_ray_ct T < 2 ^ 32)%Z ->
        ray_trace fuel T = inr (T1 ← xyz_trace_unified fuel T; timestep_sky T1)).
Proof.
  split; [|split; [|split]].
  - intros a Hbad. unfold Tracer_init.
    repeat match goal with
           | |- exists e, (if ?c then _ else _) = inl e =>
               destruct c eqn:?; [by eexists|]
           | |- exists e, (let _ := _ in _) = inl e => cbv zeta
           end.
    exfalso.
    repeat match goal with
           | Hb : negb _ = false |- _ => apply negb_false_iff in Hb
           end.
    destruct Hbad as [Hn|[Hw|Hd]].
    + match goal with Hb : (gdf_len a <? _)%Z = true |- _ => apply Z.ltb_lt in Hb end.
      lia.
    + apply Hw. by apply Qeq_bool_iff.
    + match goal with Hb : (required_depth a <? _)%Z = true |- _ =>
        apply Z.ltb_lt in Hb end.
      lia.
  - intros fuel T Hct. unfold ray_trace.
    destruct (xyz_ray_ct T <? 2 ^ 32)%Z eqn:E; [|reflexivity].
    apply Z.ltb_lt in E. lia.
  - intros a Hn Hw Hd.
    apply Qeq_bool_iff in Hw. apply Z.ltb_lt in Hn, Hd.
    unfold Tracer_init. rewrite Hw, Hn, Hd. cbn [negb].
    repeat match goal with
           | |- context [if ?c then _ else _] => destruct c
           end; repeat split; discriminate.
  - intros fuel T Hct. unfold ray_trace.
    apply Z.ltb_lt in Hct. by rewrite Hct.
Qed.

Lemma construction_and_ray_budget_checks_witness :
  (exists e, Tracer_init (demo_args (2 ^ 16) 1 500 300) = inl e)
  /\ (exists e, Tracer_init (demo_args 10 2 500 300) = inl e)
  /\ (exists e, Tracer_init (demo_args 10 1 40000 300) = inl e)
  /\ Tracer_init (demo_args 10 1 500 300) <> inl DepthTooLarge.
Proof.
  destruct (@construction_and_ray_budget_checks approx_lib) as (Hraise & _ & Hpass & _).
  split; [|split; [|split]].
  - apply Hraise. left. vm_compute. discriminate.
  - apply Hraise. right. left. intros Hw. apply Qeq_bool_iff in Hw.
    vm_compute in Hw. discriminate Hw.
  - apply Hraise. right. right. vm_compute. discriminate.
  - apply Hpass.
    + vm_compute. reflexivity.
    + apply Qeq_bool_iff. vm_compute. reflexivity.
    + vm_compute. reflexivity.
Defined.

(** ** C10: every ray leaves its edge on the side of the normal *)

Section RealAngleFacts.
Import Reals.
Local Open Scope R_scope.

Lemma azimuthal_aperture_half (sky_n : Z) :
(0 < sky_n)%Z -> (sky_n mod 2 = 0)%Z ->
RealAngles.azimuthal_aperture sky_n * IZR (sky_n / 2) = PI.
Proof.
intros Hpos Heven. unfold RealAngles.azimuthal_aperture.
assert (Hn : sky_n = (2 * (sky_n / 2))%Z).
{ rewrite (Z.div_mod sky_n 2) at 1 by lia. lia. }
assert (Hm : (0 < sky_n / 2)%Z) by lia.
rewrite Hn at 1. rewrite mult_IZR.
apply IZR_lt in Hm. field. lra.
Qed.

(** C10.  With an even, positive sky azimuth count, for every tracer azimuth
  index a in [0, n_azimuths) the world azimuth psi = a * azimuth_inc +
  az_start_angle of the ray satisfies
  psi - normal_theta = -pi/2 + (a + 1/2) * azimuth_inc, which lies in
  [-pi/2 + azimuth_inc/2, pi/2 - azimuth_inc/2]; so the ray direction
  (cos psi, sin psi) has a positive component along the normal
  (cos normal_theta, sin normal_theta), and the incidence factor
  cos(|psi - normal_theta|) * cos(el_e) is positive for every elevation
  centre el_e. *)
Theorem rays_leave_on_normal_side (sky_n n_el a e : Z) (normal_theta : R) :
(0 < sky_n)%Z -> (sky_n mod 2 = 0)%Z ->
(0 <= a < RealAngles.tracer_n_azimuths sky_n)%Z ->
(0 <= e < n_el)%Z ->
let azimuth_inc := RealAngles.azimuthal_aperture sky_n in
let psi := RealAngles.az_angle normal_theta azimuth_inc a in
let el := RealAngles.elevation_center n_el e in
psi - normal_theta = - PI / 2 + (IZR a + 1 / 2) * azimuth_inc
/\ - PI / 2 + azimuth_inc / 2 <= psi - normal_theta <= PI / 2 - azimuth_inc / 2
/\ 0 < azimuth_inc
/\ 0 < cos psi * cos normal_theta + sin psi * sin normal_theta
/\ 0 < RealAngles.incidence_factor psi normal_theta el.
Proof.
intros Hpos Heven Ha He. cbv zeta.
unfold RealAngles.tracer_n_azimuths in Ha.
pose proof (azimuthal_aperture_half sky_n Hpos Heven) as Hhalf.
set (inc := RealAngles.azimuthal_aperture sky_n) in *.
set (m := IZR (sky_n / 2)) in *.
assert (Hm : 1 <= m) by (apply IZR_le; lia).
assert (Ha0 : 0 <= IZR a) by (apply IZR_le; lia).
assert (Ha1 : IZR a <= m - 1).
{ replace (m - 1) with (IZR (sky_n / 2 - 1)) by (rewrite minus_IZR; reflexivity).
  apply IZR_le. lia. }
assert (Hinc : 0 < inc).
{ pose proof PI_RGT_0. nra. }
assert (Hdiff : RealAngles.az_angle normal_theta inc a - normal_theta
                = - PI / 2 + (IZR a + 1 / 2) * inc).
{ unfold RealAngles.az_angle, RealAngles.azimuth, RealAngles.az_start_angle. lra. }
assert (Hlo : - PI / 2 + inc / 2
              <= RealAngles.az_angle normal_theta inc a - normal_theta).
{ rewrite Hdiff. nra. }
assert (Hhi : RealAngles.az_angle normal_theta inc a - normal_theta
              <= PI / 2 - inc / 2).
{ rewrite Hdiff. nra. }
split; [exact Hdiff|]. split; [split; assumption|]. split; [exact Hinc|].
set (d := RealAngles.az_angle normal_theta inc a - normal_theta) in *.
assert (Hcosd : 0 < cos d) by (apply cos_gt_0; lra).
split.
- rewrite <- cos_minus. exact Hcosd.
- unfold RealAngles.incidence_factor. fold d.
  apply Rmult_lt_0_compat.
  + apply cos_gt_0.
    * pose proof (Rabs_pos d). pose proof PI_RGT_0. lra.
    * apply Rabs_def1; lra.
  + unfold RealAngles.elevation_center, RealAngles.elevational_aperture.
    assert (Hn : 1 <= IZR n_el) by (apply IZR_le; lia).
    assert (He0 : 0 <= IZR e) by (apply IZR_le; lia).
    assert (He1 : IZR e <= IZR n_el - 1).
    { replace (IZR n_el - 1) with (IZR (n_el - 1)) by (rewrite minus_IZR; reflexivity).
      apply IZR_le. lia. }
    pose proof PI_RGT_0 as Hpi.
    set (ap := (90 - 6) * PI / 180 / IZR n_el).
    assert (Hap : ap * IZR n_el = (90 - 6) * PI / 180) by (unfold ap; field; lra).
    assert (Hap0 : 0 < ap) by nra.
    apply cos_gt_0; nra.
Qed.

Lemma rays_leave_on_normal_side_witness :
(0 < 24)%Z /\ (24 mod 2 = 0)%Z
/\ 0 < RealAngles.incidence_factor
         (RealAngles.az_angle 0 (RealAngles.azimuthal_aperture 24) 0) 0
         (RealAngles.elevation_center 7 0).
Proof.
split; [lia|]. split; [reflexivity|].
apply (rays_leave_on_normal_side 24 7 0 0 0).
- lia.
- reflexivity.
- split; [lia|reflexivity].
- lia.
Defined.

End RealAngleFacts.

(** * Further properties of the code *)

(** ** The unrolled passes of [xy_trace] *)

Lemma Qtrunc_nonneg (x : Q) : 0 <= x -> Qtrunc x = Qfloor x.
Proof. intros Hx. unfold Qtrunc. apply Qle_bool_iff in Hx. by rewrite Hx. Qed.

Lemma Qdiv_mult_cancel (x y : Q) : 0 < y -> x / y * y == x.
Proof. intros Hy. field. intros E. rewrite E in Hy. by apply Qlt_irrefl in Hy. Qed.

(** With a positive step and a positive unroll size, [n_ray_steps] is the last
    step whose distance is within [max_ray_length], and the unrolled passes of
    [xy_trace] sample at least [n_ray_steps] steps and less than one pass
    more. *)
Theorem unrolled_passes_cover_ray_steps (T : Tracer) :
  0 < ray_step_size T -> 0 <= max_ray_length T -> (0 < steps_per_unroll_loop T)%Z ->
  (0 <= n_ray_steps T)%Z
  /\ ray_distance T (n_ray_steps T) <= max_ray_length T
  /\ max_ray_length T < ray_distance T (n_ray_steps T + 1)
  /\ (n_ray_steps T <= N_LOOPS_TO_UNROLL T * steps_per_unroll_loop T)%Z
  /\ (N_LOOPS_TO_UNROLL T * steps_per_unroll_loop T
      < n_ray_steps T + steps_per_unroll_loop T)%Z.
Proof.
  intros Hstep Hmax Hspl.
  unfold N_LOOPS_TO_UNROLL, n_ray_steps, ray_distance.
  set (s := ray_step_size T) in *. set (m := max_ray_length T) in *.
  assert (Hq : 0 <= m / s).
  { apply Qle_shift_div_l; [exact Hstep|]. lra. }
  rewrite (Qtrunc_nonneg _ Hq).
  pose proof (Qfloor_le (m / s)) as Hlo. pose proof (Qlt_floor (m / s)) as Hhi.
  pose proof (Qdiv_mult_cancel m s Hstep) as Hms.
  set (n := Qfloor (m / s)) in *.
  assert (Hn : (0 <= n)%Z).
  { unfold n. rewrite <- (Qfloor_Z 0). by apply Qfloor_resp_le. }
  split; [exact Hn|]. split; [|split].
  - rewrite <- Hms. apply Qmult_le_compat_r; [exact Hlo|by apply Qlt_le_weak].
  - rewrite <- Hms at 1. by apply Qmult_lt_compat_r.
  - set (p := steps_per_unroll_loop T) in *.
    assert (Hp : 0 < inject_Z p).
    { replace 0 with (inject_Z 0) by reflexivity. by rewrite <- Zlt_Qlt. }
    pose proof (Qle_ceiling (inject_Z n / inject_Z p)) as Hc.
    pose proof (Qceiling_lt (inject_Z n / inject_Z p)) as Hc'.
    pose proof (Qdiv_mult_cancel (inject_Z n) (inject_Z p) Hp) as Hnp.
    set (N := Qceiling (inject_Z n / inject_Z p)) in *.
    split.
    + rewrite Zle_Qle, inject_Z_mult. rewrite <- Hnp at 1.
      apply Qmult_le_compat_r; [exact Hc|by apply Qlt_le_weak].
    + rewrite Zlt_Qlt, inject_Z_mult, inject_Z_plus.
      assert (H1 : inject_Z N < inject_Z n / inject_Z p + 1).
      { unfold Z.sub in Hc'. rewrite inject_Z_plus in Hc'.
        change (inject_Z (- (1))%Z) with (- (1)) in Hc'. lra. }
      apply (Qmult_lt_compat_r _ _ (inject_Z p)) in H1; [|exact Hp].
      rewrite Qmult_plus_distr_l, Hnp in H1. lra.
Qed.

Lemma unrolled_passes_cover_ray_steps_witness :
  let T := wall_scene 250 100 ∅ in
  (n_ray_steps T <= N_LOOPS_TO_UNROLL T * steps_per_unroll_loop T)%Z.
Proof.
  cbv zeta.
  refine (proj1 (proj2 (proj2 (proj2
            (unrolled_passes_cover_ray_steps (wall_scene 250 100 ∅) _ _ _))))).
  - vm_compute; reflexivity.
  - vm_compute. intros E; discriminate E.
  - vm_compute; reflexivity.
Defined.

(** ** The scene and the height grid *)

Lemma Qtrunc_inject_Z (z : Z) : Qtrunc (inject_Z z) = z.
Proof.
  unfold Qtrunc. destruct (Qle_bool 0 (inject_Z z)); [apply Qfloor_Z|apply Qceiling_Z].
Qed.

Lemma to_i16_small (z : Z) : (0 <= z < 2 ^ 15)%Z -> to_i16 z = z.
Proof.
  intros Hz. unfold to_i16, wrap_signed.
  change (2 ^ (16 - 1))%Z with 32768%Z. change (2 ^ 16)%Z with 65536%Z.
  change (2 ^ 15)%Z with 32768%Z in Hz.
  rewrite Z.mod_small by lia. lia.
Qed.

Lemma pow2_log2_up_ge (n : Z) : (0 < n)%Z -> (n <= 2 ^ Z.log2_up n)%Z.
Proof.
  intros Hn. destruct (Z.eq_dec n 1%Z) as [->|Hne]; [discriminate|].
  apply Z.log2_up_spec. lia.
Qed.

Lemma Qfloor_in_range (x : Q) (n : Z) :
  0 < x -> x < inject_Z n -> (0 <= Qfloor x < n)%Z.
Proof.
  intros H0 Hn. split.
  - rewrite <- (Qfloor_Z 0). apply Qfloor_resp_le. by apply Qlt_le_weak.
  - rewrite Zlt_Qlt. eapply Qle_lt_trans; [apply Qfloor_le|exact Hn].
Qed.

(** A scene the constructor accepts fits the height grid: the depth lies
    between 0 and 15, the grid of [2^depth] cells a side covers the bounding
    box, and every point strictly inside the scene falls in a cell of the
    grid whose indices a 16-bit hit location holds unchanged. *)
Theorem constructed_scene_fits_grid `{MathLib} (a : InitArgs) (cfg : Config) :
  Tracer_init a = inr cfg ->
  let side := (2 ^ required_depth a)%Z in
  (0 <= required_depth a <= 15)%Z
  /\ width cfg <= inject_Z side /\ length_ cfg <= inject_Z side
  /\ forall p : vec2,
       0 < vx p -> vx p < width cfg -> 0 < vy p -> vy p < length_ cfg ->
       (0 <= Qfloor (vx p) < side)%Z /\ (0 <= Qfloor (vy p) < side)%Z
       /\ to_i16 (Qfloor (vx p)) = Qfloor (vx p)
       /\ to_i16 (Qfloor (vy p)) = Qfloor (vy p).
Proof.
  intros Hinit. cbv zeta. unfold Tracer_init in Hinit.
  destruct (negb (Qeq_bool (arg_node_width a) 1)) eqn:Hnw; [discriminate Hinit|].
  apply negb_false_iff, Qeq_bool_iff in Hnw.
  repeat match type of Hinit with
         | (if ?c then inl _ else _) = _ =>
             let E := fresh "E" in destruct c eqn:E; [discriminate Hinit|]
         end.
  cbv zeta in Hinit.
  repeat match type of Hinit with
         | (if ?c then inl _ else _) = _ =>
             let E := fresh "E" in destruct c eqn:E; [discriminate Hinit|]
         end.
  injection Hinit as <-. cbn [width length_].
  match goal with E : (min_nodes_required a <=? 0)%Z = false |- _ =>
    apply Z.leb_gt in E; rename E into Hpos end.
  match goal with E : negb (required_depth a <? 16)%Z = false |- _ =>
    apply negb_false_iff, Z.ltb_lt in E; rename E into Hdepth end.
  assert (Hd0 : (0 <= required_depth a)%Z) by apply Z.log2_up_nonneg.
  pose proof (pow2_log2_up_ge _ Hpos) as Hside. fold (required_depth a) in Hside.
  assert (Hext : (scene_extent a).1 <= inject_Z (min_nodes_required a)
                 /\ (scene_extent a).2 <= inject_Z (min_nodes_required a)).
  { unfold min_nodes_required. destruct (scene_extent a) as [w l]. cbn [fst snd].
    rewrite Qtrunc_inject_Z.
    set (max_dim := if Qlt_bool w l then l else w).
    assert (Hmd : max_dim <= inject_Z (Qceiling (max_dim / arg_node_width a))).
    { eapply Qle_trans; [|apply Qle_ceiling]. rewrite Hnw.
      unfold Qdiv. change (/ 1) with 1. rewrite Qmult_1_r. apply Qle_refl. }
    unfold max_dim in *. destruct (Qlt_bool w l) eqn:Ewl.
    - apply Qlt_bool_iff in Ewl. split; lra.
    - apply Qlt_bool_false_iff in Ewl. split; lra. }
  assert (Hq : inject_Z (min_nodes_required a) <= inject_Z (2 ^ required_depth a)).
  { by rewrite <- Zle_Qle. }
  destruct Hext as [Hw Hl].
  assert (H15 : (2 ^ required_depth a <= 2 ^ 15)%Z).
  { apply Z.pow_le_mono_r; lia. }
  split; [lia|]. split; [lra|]. split; [lra|].
  intros p Hx0 Hxw Hy0 Hyl.
  assert (Hx : (0 <= Qfloor (vx p) < 2 ^ required_depth a)%Z).
  { apply Qfloor_in_range; [exact Hx0|lra]. }
  assert (Hy : (0 <= Qfloor (vy p) < 2 ^ required_depth a)%Z).
  { apply Qfloor_in_range; [exact Hy0|lra]. }
  split; [exact Hx|]. split; [exact Hy|].
  split; apply to_i16_small; lia.
Qed.

Lemma constructed_scene_fits_grid_witness :
  exists cfg, Tracer_init (demo_args 10 1 500 300) = inr cfg
    /\ width cfg <= inject_Z (2 ^ required_depth (demo_args 10 1 500 300)).
Proof.
  pose (r := Tracer_init (demo_args 10 1 500 300)).
  pose (cfg := match r with inr c => c | inl _ => demo_config 2 0 0 0 end).
  assert (Hr : Tracer_init (demo_args 10 1 500 300) = inr cfg).
  { unfold Tracer_init. vm_compute. reflexivity. }
  exists cfg. split; [exact Hr|].
  exact (proj1 (proj2 (constructed_scene_fits_grid _ _ Hr))).
Defined.

(** ** Orientation bins and cardinal weights *)

(** Linear arithmetic over [Q] with halves and quarters written as divisions. *)
Ltac qhalf :=
  repeat match goal with
  | |- context [?a / 2] => change (a / 2) with (a * (1 # 2))
  | |- context [?a / 4] => change (a / 4) with (a * (1 # 4))
  | H : context [?a / 2] |- _ => change (a / 2) with (a * (1 # 2)) in H
  | H : context [?a / 4] |- _ => change (a / 4) with (a * (1 # 4)) in H
  end.
Ltac qlra := qhalf; lra.

Lemma Qfloor_between (x : Q) (z : Z) :
  inject_Z z <= x -> x < inject_Z z + 1 -> Qfloor x = z.
Proof.
  intros Hle Hlt. apply Qfloor_unique; [exact Hle|].
  rewrite inject_Z_plus. exact Hlt.
Qed.

(** The orientation bin of a normal angle already reduced to [0, 2 pi). *)
Lemma orientation_bin_cases `{MathLib} (t : Q) :
  0 < pi -> 0 <= t -> t < 2 * pi ->
  let o := to_i8 (Qfloor (fmod ((t + pi / 4) / (pi / 2)) 4)) in
  (o = 0%Z /\ (t < pi / 4 \/ 7 * pi / 4 <= t))
  \/ (o = 1%Z /\ pi / 4 <= t /\ t < 3 * pi / 4)
  \/ (o = 2%Z /\ 3 * pi / 4 <= t /\ t < 5 * pi / 4)
  \/ (o = 3%Z /\ 5 * pi / 4 <= t /\ t < 7 * pi / 4).
Proof.
  intros Hpi Ht0 Ht2. cbv zeta.
  assert (Hh : 0 < pi / 2) by qlra.
  set (u := (t + pi / 4) / (pi / 2)).
  assert (Hu : u * (pi / 2) == t + pi / 4).
  { unfold u. field. qlra. }
  assert (Hlow : forall c : Q, c * (pi / 2) <= t + pi / 4 -> c <= u).
  { intros c Hc. unfold u. by apply Qle_shift_div_l. }
  assert (Hupp : forall c : Q, t + pi / 4 < c * (pi / 2) -> u < c).
  { intros c Hc. unfold u. by apply Qlt_shift_div_r. }
  assert (Hfl : forall k : Z, (0 <= k <= 3)%Z ->
            inject_Z k <= u -> u < inject_Z k + 1 ->
            to_i8 (Qfloor (fmod u 4)) = k).
  { intros k Hk Hlo Hhi.
    assert (Hk3 : inject_Z k <= 3).
    { change 3 with (inject_Z 3). rewrite <- Zle_Qle. lia. }
    assert (Hk0 : 0 <= inject_Z k).
    { change 0 with (inject_Z 0). rewrite <- Zle_Qle. lia. }
    assert (Hq : Qfloor (u / 4) = 0%Z).
    { apply Qfloor_between; change (inject_Z 0) with 0; qlra. }
    unfold fmod. rewrite Hq. change (inject_Z 0) with 0.
    rewrite (Qfloor_between _ k) by qlra.
    unfold to_i8, wrap_signed. change (2 ^ (8 - 1))%Z with 128%Z.
    change (2 ^ 8)%Z with 256%Z. rewrite Z.mod_small by lia. lia. }
  destruct (Qlt_le_dec t (pi / 4)) as [H1|H1].
  { left. split; [|by left]. apply (Hfl 0%Z); [lia| |]; change (inject_Z 0) with 0.
    - apply Hlow. qlra.
    - apply Hupp. qlra. }
  destruct (Qlt_le_dec t (3 * pi / 4)) as [H2|H2].
  { right; left. split; [|by split]. apply (Hfl 1%Z); [lia| |]; change (inject_Z 1) with 1.
    - apply Hlow. qlra.
    - apply Hupp. qlra. }
  destruct (Qlt_le_dec t (5 * pi / 4)) as [H3|H3].
  { right; right; left. split; [|by split].
    apply (Hfl 2%Z); [lia| |]; change (inject_Z 2) with 2.
    - apply Hlow. qlra.
    - apply Hupp. qlra. }
  destruct (Qlt_le_dec t (7 * pi / 4)) as [H4|H4].
  { right; right; right. split; [|by split].
    apply (Hfl 3%Z); [lia| |]; change (inject_Z 3) with 3.
    - apply Hlow. qlra.
    - apply Hupp. qlra. }
  left. split; [|by right].
  assert (H4u : 4 <= u) by (apply Hlow; qlra).
  assert (Hu5 : u < 5) by (apply Hupp; qlra).
  assert (Hq : Qfloor (u / 4) = 1%Z).
  { apply Qfloor_between; change (inject_Z 1) with 1; qlra. }
  unfold fmod. rewrite Hq. change (inject_Z 1) with 1.
  rewrite (Qfloor_between _ 0%Z); [reflexivity| |]; change (inject_Z 0) with 0.
  - qlra.
  - assert (u < 9 # 2) by (apply Hupp; qlra). qlra.
Qed.

(** The orientation stored for an edge is one of 0 to 3, by the quarter turn
    that holds the normal angle reduced to [0, 2 pi): 0 (east) within [pi/4]
    of 0, 1 (north) from [pi/4] to [3 pi/4], 2 (west) from [3 pi/4] to
    [5 pi/4], and 3 (south) from [5 pi/4] to [7 pi/4]. *)
Theorem orientation_bins `{MathLib} (cfg : Config) (bid : nat) (height : Q)
    (start_pt end_pt : vec2) (sensor_start : Z) :
  0 < pi ->
  let E := make_edge cfg bid height start_pt end_pt sensor_start in
  let t := fmod (normal_theta E + 2 * pi) (2 * pi) in
  (0 <= orientation E <= 3)%Z
  /\ (orientation E = 0%Z <-> t < pi / 4 \/ 7 * pi / 4 <= t)
  /\ (orientation E = 1%Z <-> pi / 4 <= t /\ t < 3 * pi / 4)
  /\ (orientation E = 2%Z <-> 3 * pi / 4 <= t /\ t < 5 * pi / 4)
  /\ (orientation E = 3%Z <-> 5 * pi / 4 <= t /\ t < 7 * pi / 4).
Proof.
  intros Hpi. cbv zeta.
  unfold make_edge. cbn [orientation normal_theta].
  set (theta := atan2 _ _).
  destruct (fmod_range (theta + 2 * pi) (2 * pi)) as [Ht0 Ht2]; [qlra|].
  set (t := fmod (theta + 2 * pi) (2 * pi)) in *.
  destruct (orientation_bin_cases t Hpi Ht0 Ht2)
    as [[Ho Hr]|[[Ho Hr]|[[Ho Hr]|[Ho Hr]]]]; cbv zeta in Ho; rewrite Ho;
    (split; [lia|]); repeat split; try discriminate; try (intros; qlra);
    try (intros _; exact Hr); try tauto.
  all: try (intros [?|?]; qlra).
Qed.

Lemma orientation_bins_witness :
  (0 <= orientation (make_edge (demo_config 2 (3 # 2) 400 100) 0 3
                       (Vec2 10 20) (Vec2 10 18) 0) <= 3)%Z.
Proof.
  refine (proj1 (orientation_bins (demo_config 2 (3 # 2) 400 100) 0 3
                   (Vec2 10 20) (Vec2 10 18) 0 _)).
  vm_compute; reflexivity.
Defined.

(** The share [x / (pi/2)] of a quarter turn. *)
Lemma quarter_share `{MathLib} (x : Q) :
  0 < pi -> 0 <= x -> x <= pi / 2 ->
  0 <= x / (pi / 2) /\ x / (pi / 2) <= 1
  /\ (x <= pi / 4 -> x / (pi / 2) <= 1 # 2)
  /\ (pi / 4 <= x -> 1 # 2 <= x / (pi / 2)).
Proof.
  intros Hpi H0 H1.
  assert (Hh : 0 < pi / 2) by qlra.
  split; [apply Qle_shift_div_l; [exact Hh|qlra]|].
  split; [apply Qle_shift_div_r; [exact Hh|qlra]|].
  split; intros Hx.
  - apply Qle_shift_div_r; [exact Hh|qlra].
  - apply Qle_shift_div_l; [exact Hh|qlra].
Qed.

(** The cardinal weights of the normal angle of an edge are defined, not
    negative and sum to 1; north and south are never both weighted, nor east
    and west; and the orientation of the edge names a direction that weighs
    at least one half. *)
Theorem orientation_names_dominant_weight `{MathLib} (cfg : Config) (bid : nat)
    (height : Q) (start_pt end_pt : vec2) (sensor_start : Z) :
  0 < pi ->
  let E := make_edge cfg bid height start_pt end_pt sensor_start in
  exists north east south west,
    cardinal_weights (fmod (normal_theta E + 2 * pi) (2 * pi))
    = Some (north, east, south, west)
    /\ 0 <= north /\ 0 <= east /\ 0 <= south /\ 0 <= west
    /\ north + east + south + west == 1
    /\ (north == 0 \/ south == 0) /\ (east == 0 \/ west == 0)
    /\ (orientation E = 0%Z -> 1 # 2 <= east)
    /\ (orientation E = 1%Z -> 1 # 2 <= north)
    /\ (orientation E = 2%Z -> 1 # 2 <= west)
    /\ (orientation E = 3%Z -> 1 # 2 <= south).
Proof.
  intros Hpi. cbv zeta.
  unfold make_edge. cbn [orientation normal_theta].
  set (theta := atan2 _ _).
  destruct (fmod_range (theta + 2 * pi) (2 * pi)) as [Ht0 Ht2]; [lra|].
  set (t := fmod (theta + 2 * pi) (2 * pi)) in *.
  pose proof (orientation_bin_cases t Hpi Ht0 Ht2) as Hbin. cbv zeta in Hbin.
  set (o := to_i8 _) in *.
  unfold cardinal_weights.
  assert (B0 : Qle_bool 0 t = true) by (by apply Qle_bool_iff).
  rewrite B0. cbn [andb].
  destruct (Qle_bool t (pi / 2)) eqn:E1.
  { apply Qle_bool_iff in E1.
    destruct (quarter_share t Hpi Ht0 E1) as (V0 & V1 & Vle & Vge).
    set (v := t / (pi / 2)) in *.
    eexists _, _, _, _. split; [reflexivity|].
    repeat split; try qlra; try (right; reflexivity).
    all: intros Ho;
      destruct Hbin as [[Ho' Hr]|[[Ho' Hr]|[[Ho' Hr]|[Ho' Hr]]]];
      try (rewrite Ho in Ho'; discriminate Ho').
    all: try (destruct Hr as [Hr|Hr]).
    all: first [ specialize (Vle ltac:(qlra)); qlra
               | specialize (Vge ltac:(qlra)); qlra | qlra ]. }
  assert (L1 : Qlt_bool (pi / 2) t = true) by (unfold Qlt_bool; by rewrite E1).
  apply Qlt_bool_iff in L1 as L1'.
  rewrite L1. cbn [andb].
  destruct (Qle_bool t pi) eqn:E2.
  { apply Qle_bool_iff in E2.
    assert (X0 : 0 <= pi - t) by qlra.
    assert (X1 : pi - t <= pi / 2) by qlra.
    destruct (quarter_share _ Hpi X0 X1) as (V0 & V1 & Vle & Vge).
    set (v := (pi - t) / (pi / 2)) in *.
    eexists _, _, _, _. split; [reflexivity|].
    repeat split; try qlra; try (right; reflexivity); try (left; reflexivity).
    all: intros Ho;
      destruct Hbin as [[Ho' Hr]|[[Ho' Hr]|[[Ho' Hr]|[Ho' Hr]]]];
      try (rewrite Ho in Ho'; discriminate Ho').
    all: try (destruct Hr as [Hr|Hr]).
    all: first [ specialize (Vle ltac:(qlra)); qlra
               | specialize (Vge ltac:(qlra)); qlra | qlra ]. }
  assert (L2 : Qlt_bool pi t = true) by (unfold Qlt_bool; by rewrite E2).
  apply Qlt_bool_iff in L2 as L2'.
  rewrite L2. cbn [andb].
  destruct (Qle_bool t (3 * pi / 2)) eqn:E3.
  { apply Qle_bool_iff in E3.
    assert (X0 : 0 <= t - pi) by qlra.
    assert (X1 : t - pi <= pi / 2) by qlra.
    destruct (quarter_share _ Hpi X0 X1) as (V0 & V1 & Vle & Vge).
    set (v := (t - pi) / (pi / 2)) in *.
    eexists _, _, _, _. split; [reflexivity|].
    repeat split; try qlra; try (right; reflexivity); try (left; reflexivity).
    all: intros Ho;
      destruct Hbin as [[Ho' Hr]|[[Ho' Hr]|[[Ho' Hr]|[Ho' Hr]]]];
      try (rewrite Ho in Ho'; discriminate Ho').
    all: try (destruct Hr as [Hr|Hr]).
    all: first [ specialize (Vle ltac:(qlra)); qlra
               | specialize (Vge ltac:(qlra)); qlra | qlra ]. }
  assert (L3 : Qlt_bool (3 * pi / 2) t = true) by (unfold Qlt_bool; by rewrite E3).
  apply Qlt_bool_iff in L3 as L3'.
  rewrite L3. cbn [andb].
  assert (L4 : Qle_bool t (2 * pi) = true) by (apply Qle_bool_iff; lra).
  rewrite L4.
  assert (X0 : 0 <= 2 * pi - t) by qlra.
    assert (X1 : 2 * pi - t <= pi / 2) by qlra.
    destruct (quarter_share _ Hpi X0 X1) as (V0 & V1 & Vle & Vge).
  set (v := (2 * pi - t) / (pi / 2)) in *.
  eexists _, _, _, _. split; [reflexivity|].
  repeat split; try qlra; try (right; reflexivity); try (left; reflexivity).
  all: intros Ho;
    destruct Hbin as [[Ho' Hr]|[[Ho' Hr]|[[Ho' Hr]|[Ho' Hr]]]];
    try (rewrite Ho in Ho'; discriminate Ho').
  all: try (destruct Hr as [Hr|Hr]).
  all: first [ specialize (Vle ltac:(qlra)); qlra
             | specialize (Vge ltac:(qlra)); qlra | qlra ].
Qed.

Lemma orientation_names_dominant_weight_witness :
  exists north east south west,
    cardinal_weights
      (fmod (normal_theta (make_edge (demo_config 2 (3 # 2) 400 100) 0 3
                             (Vec2 10 20) (Vec2 10 18) 0) + 2 * pi) (2 * pi))
    = Some (north, east, south, west)
    /\ north + east + south + west == 1.
Proof.
  destruct (orientation_names_dominant_weight (demo_config 2 (3 # 2) 400 100) 0 3
              (Vec2 10 20) (Vec2 10 18) 0) as (n & e & s & w & Hc & _ & _ & _ & _ & Hs & _).
  - vm_compute; reflexivity.
  - exists n, e, s, w. split; [exact Hc|exact Hs].
Defined.

(** ** Where the sensors of an edge sit *)

(** Sensor [k] of an edge sits [sensor_inset + k * sensor_spacing] along the
    edge from its start, moved off the edge by [sensor_normal_offset] along
    the normal; every sensor keeps the inset from both ends of the edge, and
    one sensor more would not. *)
Theorem sensors_within_insets `{MathLib} (cfg : Config) (bid : nat) (height : Q)
    (start_pt end_pt : vec2) (sensor_start : Z) (parent_id : nat) (k xyz_start : Z) :
  0 < sensor_spacing cfg ->
  let E := make_edge cfg bid height start_pt end_pt sensor_start in
  (0 <= k < sensor_ct E)%Z ->
  let len := edge_length start_pt end_pt in
  let d := sensor_inset cfg + inject_Z k * sensor_spacing cfg in
  let s := init_xy_sensor cfg E parent_id (sensor_start_ix E + k) xyz_start in
  veq (loc s) (vadd (vadd (e_start E) (vscale d (slopevec E)))
                 (vscale (sensor_normal_offset cfg) (normal E)))
  /\ sensor_inset cfg <= d
  /\ d <= len - sensor_inset cfg
  /\ len - sensor_inset cfg
     < sensor_inset cfg + inject_Z (sensor_ct E) * sensor_spacing cfg.
Proof.
  intros Hsp. cbv zeta. intros Hk.
  unfold make_edge in Hk |- *. cbn [sensor_ct sensor_start_ix e_start slopevec normal] in *.
  set (len := edge_length start_pt end_pt) in *.
  unfold sensor_count in *.
  pose proof (Qdiv_mult_cancel (len - 2 * sensor_inset cfg) (sensor_spacing cfg) Hsp) as Hq.
  set (q := (len - 2 * sensor_inset cfg) / sensor_spacing cfg) in *.
  destruct (Qle_bool 1 q) eqn:Hq1.
  2:{ change (Qfloor 0) with 0%Z in Hk. lia. }
  rewrite Qfloor_add_1 in Hk |- *.
  assert (Hk0 : 0 <= inject_Z k).
  { change 0 with (inject_Z 0). rewrite <- Zle_Qle. lia. }
  assert (Hkq : inject_Z k <= q).
  { eapply Qle_trans; [|apply Qfloor_le]. rewrite <- Zle_Qle. lia. }
  assert (Hct : q < inject_Z (Qfloor q + 1)) by apply Qlt_floor.
  assert (H1 : inject_Z k * sensor_spacing cfg <= q * sensor_spacing cfg).
  { apply Qmult_le_compat_r; [exact Hkq|by apply Qlt_le_weak]. }
  assert (H2 : q * sensor_spacing cfg < inject_Z (Qfloor q + 1) * sensor_spacing cfg).
  { by apply Qmult_lt_compat_r. }
  assert (H3 : 0 <= inject_Z k * sensor_spacing cfg).
  { apply Qmult_le_0_compat; [exact Hk0|by apply Qlt_le_weak]. }
  split; [|split; [|split]]; try lra.
  unfold init_xy_sensor, veq, vadd, vscale.
  cbn [loc vx vy sensor_start_ix e_start slopevec normal].
  replace (sensor_start + k - sensor_start)%Z with k by lia.
  split; ring.
Qed.

Lemma sensors_within_insets_witness :
  let cfg := demo_config 2 (3 # 2) 400 100 in
  let E := make_edge cfg 0 3 (Vec2 5 5) (Vec2 8 9) 0 in
  sensor_inset cfg + inject_Z 3 * sensor_spacing cfg
  <= edge_length (Vec2 5 5) (Vec2 8 9) - sensor_inset cfg.
Proof.
  cbv zeta.
  refine (proj1 (proj2 (proj2
            (sensors_within_insets (demo_config 2 (3 # 2) 400 100) 0 3
               (Vec2 5 5) (Vec2 8 9) 0 0 3 0 _ _)))).
  - vm_compute; reflexivity.
  - vm_compute. split; [intros E; discriminate E|reflexivity].
Defined.


(** The sensors of a column are 1.5 floor heights apart, one per floor: for
    a building of more than three and at most 127 floors the column has
    between 4 and 127 sensors, and its top sensor stands above the roof. *)
Theorem top_sensor_above_roof `{MathLib} (cfg : Config) (bid : nat) (height : Q)
    (start_pt end_pt : vec2) (sensor_start : Z) (parent_id : nat)
    (sensor_ix xyz_start : Z) :
  0 < f2f_height cfg ->
  3 * f2f_height cfg < height -> height <= 127 * f2f_height cfg ->
  let E := make_edge cfg bid height start_pt end_pt sensor_start in
  let xy := init_xy_sensor cfg E parent_id sensor_ix xyz_start in
  (4 <= xyz_sensor_ct xy <= 127)%Z
  /\ length (layout_xyz_sensors cfg [xy]) = Z.to_nat (xyz_sensor_ct xy)
  /\ exists top,
       layout_xyz_sensors cfg [xy] !! Z.to_nat (xyz_sensor_ct xy - 1) = Some top
       /\ xyz_height top
          == inject_Z (xyz_sensor_ct xy - 1) * (3 # 2) * f2f_height cfg
       /\ edge_height E < xyz_height top.
Proof.
  intros Hf Hlo Hhi. cbv zeta.
  unfold init_xy_sensor, make_edge. cbn [xyz_sensor_ct edge_n_floors edge_height].
  pose proof (Qdiv_mult_cancel height (f2f_height cfg) Hf) as Hq.
  set (q := height / f2f_height cfg) in *.
  assert (Hq3 : 3 < q).
  { unfold q. by apply Qlt_shift_div_l. }
  assert (Hq127 : q <= 127).
  { unfold q. by apply Qle_shift_div_r. }
  pose proof (Qle_ceiling q) as Hc.
  assert (Hn : (4 <= Qceiling q <= 127)%Z).
  { split.
    - assert (3 < Qceiling q)%Z; [|lia].
      rewrite Zlt_Qlt. change (inject_Z 3) with 3. lra.
    - rewrite <- (Qceiling_Z 127). by apply Qceiling_resp_le. }
  assert (Hi8 : to_i8 (Qceiling q) = Qceiling q).
  { unfold to_i8, wrap_signed. change (2 ^ (8 - 1))%Z with 128%Z.
    change (2 ^ 8)%Z with 256%Z. rewrite Z.mod_small by lia. lia. }
  rewrite Hi8. set (n := Qceiling q) in *.
  split; [exact Hn|].
  unfold layout_xyz_sensors. cbn [imap xyz_sensor_ct].
  change ([?l] ≫= id) with (l ++ []). rewrite !app_nil_r.
  split; [by rewrite length_map, length_seq|].
  eexists. split.
  { rewrite list_lookup_fmap, lookup_seq_lt by lia. cbn [fmap option_fmap option_map].
    reflexivity. }
  unfold init_xyz_sensor. cbn [xyz_height Nat.add]. rewrite Z2Nat.id by lia.
  split; [reflexivity|].
  assert (Hn1 : inject_Z (n - 1) == inject_Z n - 1).
  { unfold Z.sub. rewrite inject_Z_plus. reflexivity. }
  rewrite Hn1.
  assert (Hn4 : 4 <= inject_Z n).
  { change 4 with (inject_Z 4). rewrite <- Zle_Qle. lia. }
  assert (Hh : height <= inject_Z n * f2f_height cfg).
  { rewrite <- Hq. apply Qmult_le_compat_r; [exact Hc|by apply Qlt_le_weak]. }
  assert (Hpos : 0 < (inject_Z n * (1 # 2) - (3 # 2)) * f2f_height cfg).
  { apply Qmult_lt_0_compat; [lra|exact Hf]. }
  lra.
Qed.

Lemma top_sensor_above_roof_witness :
  let cfg := demo_config 2 (3 # 2) 400 100 in
  let xy := init_xy_sensor cfg (make_edge cfg 0 10 (Vec2 5 5) (Vec2 8 9) 0) 0 0 0 in
  (4 <= xyz_sensor_ct xy <= 127)%Z.
Proof.
  cbv zeta.
  refine (proj1 (top_sensor_above_roof (demo_config 2 (3 # 2) 400 100) 0 10
                   (Vec2 5 5) (Vec2 8 9) 0 0 0 0 _ _ _)).
  - vm_compute; reflexivity.
  - vm_compute; reflexivity.
  - vm_compute. intros E; discriminate E.
Defined.

(** ** The distance [trace_xyz_ray] returns *)

(** When step [j] is the first obstructed step of a ray and the steps up to
    it are sampled, [trace_xyz_ray] returns the distance of step [j + 1], one
    step beyond the obstruction: the loop advances the distance before it
    tests the hit. *)
Theorem trace_xyz_ray_returns_next_step `{MathLib} (T : Tracer) (start slope : vec2)
    (el_angle xyz_sensor_height : Q) (fuel : nat) (j : Z) :
  0 < ray_step_size T -> (ray_fuel T <= fuel)%nat -> (0 <= j)%Z ->
  (forall i, (0 <= i <= j)%Z -> step_in_domain T start slope i) ->
  step_obstructed T start slope el_angle xyz_sensor_height j ->
  (forall i, (0 <= i < j)%Z ->
     ~ step_obstructed T start slope el_angle xyz_sensor_height i) ->
  trace_xyz_ray fuel T start slope el_angle xyz_sensor_height
  = Some (ray_distance T (j + 1))
  /\ ray_distance T j < ray_distance T (j + 1).
Proof.
  intros Hstep Hfuel Hj Hdom Hobs Hfirst.
  split.
  - destruct (ray_loop_from T start slope el_angle xyz_sensor_height
                (ray_fuel T) 0 fuel Hfuel) as (st & Hst & Hcases).
    { rewrite Z.add_0_l. by apply ray_fuel_out. }
    unfold trace_xyz_ray. cbv zeta.
    fold (ray_state_at T start slope 0 0). rewrite Hst. cbn [mbind option_bind].
    destruct Hcases as [(Hhf & K & HK & HoutK & Hpre)
                       |(Hhf & j' & Hj' & Hobsj & Hdomj & Hclr & Hdist)].
    + exfalso. destruct (Z_lt_le_dec j K) as [Hlt|Hge].
      * destruct (Hpre j) as [_ Hno]; [lia|]. by apply Hno.
      * apply HoutK. apply Hdom. lia.
    + rewrite Hhf. cbn [Z.eqb]. rewrite Hdist.
      assert (j' = j) as ->; [|reflexivity].
      destruct (Z.lt_trichotomy j' j) as [Hlt|[Heq|Hgt]]; [|exact Heq|].
      * exfalso. apply (Hfirst j'); [lia|exact Hobsj].
      * exfalso. apply (Hclr j); [lia|exact Hobs].
  - unfold ray_distance. apply Qmult_lt_compat_r; [exact Hstep|].
    rewrite <- Zlt_Qlt. lia.
Qed.

Lemma trace_xyz_ray_returns_next_step_witness :
  let T := wall_scene 400 100 {[ (14, 19)%Z := tall_node ]} in
  trace_xyz_ray 401 T (Vec2 (23 # 2) (39 # 2)) (Vec2 1 0) (1 # 10) 0
  = Some (ray_distance T 4).
Proof.
  cbv zeta.
  refine (proj1 (trace_xyz_ray_returns_next_step
                   (wall_scene 400 100 {[ (14, 19)%Z := tall_node ]})
                   (Vec2 (23 # 2) (39 # 2)) (Vec2 1 0) (1 # 10) 0 401 3 _ _ _ _ _ _)).
  - vm_compute; reflexivity.
  - vm_compute; lia.
  - lia.
  - intros i Hi.
    assert (His : i = 0%Z \/ i = 1%Z \/ i = 2%Z \/ i = 3%Z) by lia.
    apply in_domain_iff. destruct His as [->|[->|[->| ->]]]; vm_compute; reflexivity.
  - apply step_obstructed_b_iff. vm_compute; reflexivity.
  - intros i Hi Ho. apply step_obstructed_b_iff in Ho.
    assert (His : i = 0%Z \/ i = 1%Z \/ i = 2%Z) by lia.
    destruct His as [->|[->| ->]]; vm_compute in Ho; discriminate Ho.
Defined.

(** ** The patches of the Reinhart sky *)

Lemma np_repeat_length {A : Type} (k : nat) (rows : list A) :
  length (np_repeat k rows) = (k * length rows)%nat.
Proof.
  unfold np_repeat. induction rows as [|x rows IH]; cbn [mbind list_bind length].
  - lia.
  - change (length (replicate k x ++ (rows ≫= replicate k))
            = (k * S (length rows))%nat).
    rewrite length_app, length_replicate, IH. lia.
Qed.

(** ** The shape of the resampled sky *)

Lemma cut_groups_length {A : Type} (n g : nat) (rows : list A) :
  length (cut_groups n g rows) = n.
Proof.
  revert rows. induction n as [|n IH]; intros rows; cbn [cut_groups length];
    [reflexivity|]. by rewrite IH.
Qed.

Lemma cut_groups_concat {A : Type} (n g : nat) (rows : list A) :
  length rows = (n * g)%nat -> concat (cut_groups n g rows) = rows.
Proof.
  revert rows. induction n as [|n IH]; intros rows Hlen; cbn [cut_groups concat].
  - destruct rows; [reflexivity|discriminate].
  - rewrite IH; [apply take_drop|]. rewrite length_drop. lia.
Qed.

Lemma cut_groups_group_length {A : Type} (n g : nat) (rows : list A) :
  length rows = (n * g)%nat ->
  Forall (fun group => length group = g) (cut_groups n g rows).
Proof.
  revert rows. induction n as [|n IH]; intros rows Hlen; cbn [cut_groups];
    constructor.
  - rewrite length_take. lia.
  - apply IH. rewrite length_drop. lia.
Qed.

(** The subdivision and grouping factors of a band: [div_factor] pieces per
    patch, [grouping_factor] pieces per new patch, the same number of pieces
    either way. *)
Lemma lcm_factors (p n : nat) :
  (0 < p)%nat -> (0 < n)%nat ->
  let lcm := Nat.lcm p n in
  (lcm / p * p = lcm)%nat /\ (n * (lcm / n) = lcm)%nat /\ (0 < lcm / p)%nat
  /\ (0 < lcm / n)%nat.
Proof.
  intros Hp Hn. cbv zeta.
  assert (Hl : Nat.lcm p n <> 0%nat).
  { intros E. apply Nat.lcm_eq_0 in E. lia. }
  destruct (Nat.divide_lcm_l p n) as [c Hc].
  destruct (Nat.divide_lcm_r p n) as [d Hd].
  assert (E1 : (Nat.lcm p n / p = c)%nat).
  { rewrite Hc. apply Nat.div_mul. lia. }
  assert (E2 : (Nat.lcm p n / n = d)%nat).
  { rewrite Hd. apply Nat.div_mul. lia. }
  rewrite E1, E2. repeat split; try lia.
Qed.

Lemma resample_band_unfold (n_azimuths : nat) (band : list (list Q)) :
  (0 < n_azimuths)%nat -> (0 < length band)%nat ->
  resample_band n_azimuths band
  = Some (map row_mean
            (cut_groups n_azimuths (Nat.lcm (length band) n_azimuths / n_azimuths)
               (np_repeat (Nat.lcm (length band) n_azimuths / length band) band))).
Proof.
  intros Hn Hp. unfold resample_band. cbv zeta.
  rewrite bool_decide_eq_false_2 by lia.
  destruct (lcm_factors (length band) n_azimuths Hp Hn) as (E1 & E2 & _ & _).
  unfold reshape_groups.
  rewrite bool_decide_eq_true_2; [reflexivity|].
  rewrite np_repeat_length. lia.
Qed.

Lemma split_bands_lengths {A : Type} (sizes : list nat) :
  forall rows : list A,
    (foldr Nat.add 0%nat sizes <= length rows)%nat ->
    Forall2 (fun n band => length band = n) sizes (split_bands sizes rows).
Proof.
  induction sizes as [|n sizes IH]; intros rows Hlen; cbn [split_bands];
    constructor.
  - rewrite length_take. cbn [foldr] in Hlen. lia.
  - apply IH. rewrite length_drop. cbn [foldr] in Hlen. lia.
Qed.

Lemma patches_per_elevation_length (mfactor : nat) :
  length (patches_per_elevation mfactor) = (7 * mfactor)%nat.
Proof.
  unfold patches_per_elevation.
  rewrite length_map, np_repeat_length. cbn [base_patches_per_elevation length]. lia.
Qed.

Lemma patches_per_elevation_elem (mfactor n : nat) :
  n ∈ patches_per_elevation mfactor ->
  exists b, b ∈ base_patches_per_elevation /\ n = (b * mfactor)%nat.
Proof.
  unfold patches_per_elevation. intros Hn.
  apply list_elem_of_fmap in Hn as (b & -> & Hb).
  exists b. split; [|reflexivity].
  unfold np_repeat in Hb. apply list_elem_of_bind in Hb as (b' & Hb & Hb').
  apply elem_of_replicate in Hb as [-> _]. exact Hb'.
Qed.

Lemma patches_per_elevation_pos (mfactor n : nat) :
  (0 < mfactor)%nat -> n ∈ patches_per_elevation mfactor -> (0 < n)%nat.
Proof.
  intros Hm Hn. apply patches_per_elevation_elem in Hn as (b & Hb & ->).
  assert (0 < b)%nat; [|nia].
  unfold base_patches_per_elevation in Hb.
  repeat (apply elem_of_cons in Hb as [->|Hb]; [lia|]).
  by apply not_elem_of_nil in Hb.
Qed.

Lemma sum_map_np_repeat (f : nat -> nat) (k : nat) (l : list nat) :
  foldr Nat.add 0%nat (map f (np_repeat k l))
  = (k * foldr Nat.add 0%nat (map f l))%nat.
Proof.
  unfold np_repeat. induction l as [|x l IH].
  - cbn. lia.
  - change ((x :: l) ≫= replicate k) with (replicate k x ++ (l ≫= replicate k)).
    rewrite map_app, foldr_app, IH. cbn [map foldr].
    generalize (foldr Nat.add 0%nat (map f l)). intros s.
    assert (Hacc : forall acc : nat,
              foldr Nat.add acc (map f (replicate k x)) = (k * f x + acc)%nat).
    { intros acc. clear. induction k as [|k IHk]; cbn [replicate map foldr]; [lia|].
      rewrite IHk. lia. }
    rewrite Hacc. lia.
Qed.

Lemma patches_per_elevation_sum (mfactor : nat) :
  foldr Nat.add 0%nat (patches_per_elevation mfactor) = (144 * mfactor * mfactor)%nat.
Proof.
  unfold patches_per_elevation.
  rewrite sum_map_np_repeat. cbn [base_patches_per_elevation map foldr]. lia.
Qed.

(** The patch counts of a Reinhart sky of subdivision [mfactor]:
    [7 mfactor] bands, [144 mfactor^2] patches in all, every band a base
    count times [mfactor]. *)
Theorem reinhart_patch_counts (mfactor : nat) :
  length (patches_per_elevation mfactor) = (7 * mfactor)%nat
  /\ foldr Nat.add 0%nat (patches_per_elevation mfactor)
     = (144 * mfactor * mfactor)%nat
  /\ Forall (fun n => exists b, b ∈ base_patches_per_elevation
                                /\ n = (b * mfactor)%nat)
       (patches_per_elevation mfactor).
Proof.
  split; [apply patches_per_elevation_length|].
  split; [apply patches_per_elevation_sum|].
  apply Forall_forall. intros n Hn. by apply patches_per_elevation_elem.
Qed.


(** A sky matrix of [144 mfactor^2 + 2] rows is converted to [7 mfactor]
    bands of [n_azimuths] patches each; a matrix of any other number of rows
    is refused. *)
Theorem reinhart_conversion_shape (mfactor n_azimuths : nat) (sky : list (list Q)) :
  (0 < mfactor)%nat -> (0 < n_azimuths)%nat ->
  (length sky = (144 * mfactor * mfactor + 2)%nat ->
   exists radiance,
     reinhart_to_meridinal_parallel_sky mfactor n_azimuths sky = Some radiance
     /\ length radiance = (7 * mfactor)%nat
     /\ Forall (fun band => length band = n_azimuths) radiance)
  /\ (length sky <> (144 * mfactor * mfactor + 2)%nat ->
      reinhart_to_meridinal_parallel_sky mfactor n_azimuths sky = None).
Proof.
  intros Hm Hn. unfold reinhart_to_meridinal_parallel_sky. cbv zeta.
  rewrite patches_per_elevation_sum. split.
  - intros Hlen. rewrite bool_decide_eq_true_2 by lia.
    set (inner := take (length sky - 2) (drop 1 sky)).
    assert (Hinner : length inner = (144 * mfactor * mfactor)%nat).
    { unfold inner. rewrite length_take, length_drop. lia. }
    pose proof (split_bands_lengths (patches_per_elevation mfactor) inner) as Hbands.
    rewrite patches_per_elevation_sum in Hbands. specialize (Hbands ltac:(lia)).
    assert (Hsome : is_Some (mapM (resample_band n_azimuths)
                               (split_bands (patches_per_elevation mfactor) inner))).
    { apply mapM_is_Some. apply Forall_forall. intros band Hband.
      apply list_elem_of_lookup in Hband as [i Hi].
      destruct (Forall2_lookup_r _ _ _ _ _ Hbands Hi) as (n & Hn' & Hlenb).
      change (is_Some (resample_band n_azimuths band)).
      rewrite resample_band_unfold; [done|exact Hn|].
      rewrite Hlenb. apply (patches_per_elevation_pos mfactor); [exact Hm|].
      by eapply list_elem_of_lookup_2. }
    destruct Hsome as [radiance Hrad]. exists radiance. split; [exact Hrad|].
    apply mapM_Some in Hrad. split.
    + rewrite <- (Forall2_length _ _ _ Hrad), <- (Forall2_length _ _ _ Hbands).
      apply patches_per_elevation_length.
    + apply Forall_forall. intros out Hout.
      apply list_elem_of_lookup in Hout as [i Hi].
      destruct (Forall2_lookup_r _ _ _ _ _ Hrad Hi) as (band & Hband & Hres).
      destruct (Forall2_lookup_r _ _ _ _ _ Hbands Hband) as (n & Hn' & Hlenb).
      rewrite resample_band_unfold in Hres; [|exact Hn|].
      * injection Hres as <-. by rewrite length_map, cut_groups_length.
      * rewrite Hlenb. apply (patches_per_elevation_pos mfactor); [exact Hm|].
        by eapply list_elem_of_lookup_2.
  - intros Hlen. rewrite bool_decide_eq_false_2 by lia. reflexivity.
Qed.

Lemma reinhart_conversion_shape_witness :
  exists radiance,
    reinhart_to_meridinal_parallel_sky 1 2 (repeat [1; 2] 146) = Some radiance
    /\ length radiance = 7%nat.
Proof.
  destruct (reinhart_conversion_shape 1 2 (repeat [1; 2] 146)) as [Hok _]; [lia|lia|].
  destruct Hok as (radiance & Hr & Hl & _); [reflexivity|].
  exists radiance. split; [exact Hr|exact Hl].
Defined.

(** ** Resampling keeps the mean radiance of a band *)

(** The value of a patch at hour [t]. *)
Local Abbreviation at_hour t := (fun r : list Q => default 0 (r !! t)).

Lemma inject_nat_nonzero (m : nat) : (0 < m)%nat -> ~ inject_Z (Z.of_nat m) == 0.
Proof. intros Hm E. unfold Qeq in E. cbn in E. lia. Qed.

Lemma Qsum_app (l k : list Q) : Qsum (l ++ k) == Qsum l + Qsum k.
Proof.
  induction l as [|x l IH]; cbn [app Qsum fold_right].
  - unfold Qsum. cbn. ring.
  - fold (Qsum (l ++ k)). fold (Qsum l). rewrite IH. ring.
Qed.

Lemma fold_zip_with_lookup (L t : nat) (rs : list (list Q)) :
  (t < L)%nat -> Forall (fun r => length r = L) rs ->
  forall r, length r = L ->
    length (fold_left (zip_with Qplus) rs r) = L
    /\ at_hour t (fold_left (zip_with Qplus) rs r)
       == at_hour t r + Qsum (map (at_hour t) rs).
Proof.
  intros Ht Hrs. induction Hrs as [|r' rs Hr' Hrs IH]; intros r Hr.
  - cbn [fold_left map]. split; [exact Hr|]. unfold Qsum. cbn. ring.
  - cbn [fold_left map].
    assert (Hz : length (zip_with Qplus r r') = L).
    { rewrite length_zip_with. lia. }
    destruct (IH _ Hz) as [Hlen Hval]. split; [exact Hlen|].
    rewrite Hval.
    destruct (lookup_lt_is_Some_2 r t) as [x Hx]; [lia|].
    destruct (lookup_lt_is_Some_2 r' t) as [y Hy]; [lia|].
    rewrite lookup_zip_with, Hx, Hy. cbn.
    change (fold_right Qplus 0 (map (at_hour t) rs)) with (Qsum (map (at_hour t) rs)).
    unfold Qsum at 2. cbn [fold_right]. fold (Qsum (map (at_hour t) rs)). ring.
Qed.

Lemma row_mean_at_hour (L t : nat) (group : list (list Q)) :
  (t < L)%nat -> (0 < length group)%nat ->
  Forall (fun r => length r = L) group ->
  at_hour t (row_mean group)
  == Qsum (map (at_hour t) group) / inject_Z (Z.of_nat (length group)).
Proof.
  intros Ht Hpos Hall. destruct group as [|r rs]; [cbn in Hpos; lia|].
  apply Forall_cons in Hall as [Hr Hrs].
  destruct (fold_zip_with_lookup L t rs Ht Hrs r Hr) as [Hlen Hval].
  unfold row_mean. rewrite list_lookup_fmap.
  destruct (lookup_lt_is_Some_2 (fold_left (zip_with Qplus) rs r) t) as [v Hv]; [lia|].
  rewrite Hv in Hval |- *. cbn [fmap option_fmap option_map default] in *.
  rewrite Hval. cbn [map]. unfold Qsum at 2. cbn [fold_right].
  fold (Qsum (map (at_hour t) rs)). reflexivity.
Qed.

Lemma Qsum_row_means (L t g : nat) (groups : list (list (list Q))) :
  (t < L)%nat -> (0 < g)%nat ->
  Forall (fun group => length group = g
                       /\ Forall (fun r => length r = L) group) groups ->
  Qsum (map (at_hour t) (map row_mean groups))
  == Qsum (map (at_hour t) (concat groups)) / inject_Z (Z.of_nat g).
Proof.
  intros Ht Hg Hall.
  assert (Hg0 : ~ inject_Z (Z.of_nat g) == 0) by (by apply inject_nat_nonzero).
  induction Hall as [|group groups [Hlen Hrows] Hall IH].
  - cbn. unfold Qsum. cbn. field. exact Hg0.
  - cbn [map concat]. rewrite map_app, Qsum_app.
    unfold Qsum at 1. cbn [fold_right].
    fold (Qsum (map (at_hour t) (map row_mean groups))).
    rewrite IH, (row_mean_at_hour L t group Ht) by (lia || exact Hrows).
    rewrite Hlen. field. exact Hg0.
Qed.

Lemma Qsum_np_repeat (f : list Q -> Q) (k : nat) (rows : list (list Q)) :
  Qsum (map f (np_repeat k rows)) == inject_Z (Z.of_nat k) * Qsum (map f rows).
Proof.
  unfold np_repeat. induction rows as [|r rows IH].
  - cbn. unfold Qsum. cbn. ring.
  - change ((r :: rows) ≫= replicate k) with (replicate k r ++ (rows ≫= replicate k)).
    rewrite map_app, Qsum_app, IH. cbn [map].
    unfold Qsum at 3. cbn [fold_right]. fold (Qsum (map f rows)).
    assert (Hrep : Qsum (map f (replicate k r)) == inject_Z (Z.of_nat k) * f r).
    { clear. induction k as [|k IHk].
      - cbn. unfold Qsum. cbn. ring.
      - cbn [replicate map]. unfold Qsum. cbn [fold_right].
        fold (Qsum (map f (replicate k r))). rewrite IHk.
        rewrite Nat2Z.inj_succ. unfold Z.succ. rewrite inject_Z_plus.
        change (inject_Z 1) with 1. ring. }
    rewrite Hrep. ring.
Qed.

Lemma np_repeat_Forall {A : Type} (P : A -> Prop) (k : nat) (rows : list A) :
  Forall P rows -> Forall P (np_repeat k rows).
Proof.
  intros Hall. apply Forall_forall. intros x Hx.
  unfold np_repeat in Hx. apply list_elem_of_bind in Hx as (y & Hx & Hy).
  apply elem_of_replicate in Hx as [-> _].
  rewrite Forall_forall in Hall. by apply Hall.
Qed.

Lemma cut_groups_Forall {A : Type} (P : A -> Prop) (n g : nat) (rows : list A) :
  Forall P rows -> Forall (Forall P) (cut_groups n g rows).
Proof.
  revert rows. induction n as [|n IH]; intros rows Hall; cbn [cut_groups];
    constructor.
  - by apply Forall_take.
  - apply IH. by apply Forall_drop.
Qed.

(** Resampling a band to [n_azimuths] patches keeps, at every hour, the mean
    of the band over its patches. *)
Theorem resample_band_preserves_mean (n_azimuths : nat) (band out : list (list Q))
    (L t : nat) :
  Forall (fun r => length r = L) band -> (t < L)%nat ->
  resample_band n_azimuths band = Some out ->
  length out = n_azimuths
  /\ Qsum (map (fun r => default 0 (r !! t)) out) / inject_Z (Z.of_nat n_azimuths)
     == Qsum (map (fun r => default 0 (r !! t)) band)
        / inject_Z (Z.of_nat (length band)).
Proof.
  intros Hrows Ht Hres.
  assert (Hnz : (0 < n_azimuths)%nat /\ (0 < length band)%nat).
  { unfold resample_band in Hres. cbv zeta in Hres.
    destruct (bool_decide _) eqn:E in Hres; [discriminate Hres|].
    apply bool_decide_eq_false_1 in E. lia. }
  destruct Hnz as [Hn Hp].
  rewrite resample_band_unfold in Hres by assumption.
  injection Hres as <-.
  destruct (lcm_factors (length band) n_azimuths Hp Hn) as (E1 & E2 & Hk & Hg).
  cbv zeta in E1, E2, Hk, Hg.
  set (k := (Nat.lcm (length band) n_azimuths / length band)%nat) in *.
  set (g := (Nat.lcm (length band) n_azimuths / n_azimuths)%nat) in *.
  split; [by rewrite length_map, cut_groups_length|].
  assert (Hlen : length (np_repeat k band) = (n_azimuths * g)%nat).
  { rewrite np_repeat_length. lia. }
  rewrite (Qsum_row_means L t g) by
    first [ assumption
          | apply Forall_forall; intros group Hgrp; split;
            [ pose proof (cut_groups_group_length n_azimuths g _ Hlen) as Hgl;
              rewrite Forall_forall in Hgl; by apply Hgl
            | pose proof (cut_groups_Forall (fun r => length r = L) n_azimuths g
                            (np_repeat k band) (np_repeat_Forall _ k band Hrows)) as Hgr;
              rewrite Forall_forall in Hgr; by apply Hgr ] ].
  rewrite cut_groups_concat by exact Hlen.
  rewrite Qsum_np_repeat.
  assert (Hkey : inject_Z (Z.of_nat k) * inject_Z (Z.of_nat (length band))
                 == inject_Z (Z.of_nat n_azimuths) * inject_Z (Z.of_nat g)).
  { rewrite <- !inject_Z_mult, <- !Nat2Z.inj_mul. f_equiv. f_equal. lia. }
  pose proof (inject_nat_nonzero _ Hn) as Hn0.
  pose proof (inject_nat_nonzero _ Hp) as Hp0.
  pose proof (inject_nat_nonzero _ Hg) as Hg0.
  set (S := Qsum (map (fun r : list Q => default 0 (r !! t)) band)) in *.
  set (qk := inject_Z (Z.of_nat k)) in *. set (qn := inject_Z (Z.of_nat n_azimuths)) in *.
  set (qg := inject_Z (Z.of_nat g)) in *. set (qp := inject_Z (Z.of_nat (length band))) in *.
  apply (Qmult_inj_r _ _ (qn * qg * qp)).
  { intros E. apply Qmult_integral in E as [E|E]; [|contradiction].
    apply Qmult_integral in E as [E|E]; contradiction. }
  transitivity (S * (qk * qp)); [field; split; assumption|].
  rewrite Hkey. field. exact Hp0.
Qed.

Lemma resample_band_preserves_mean_witness :
  exists out,
    resample_band 2 [[1; 5]; [2; 6]; [3; 7]] = Some out /\ length out = 2%nat.
Proof.
  pose (out := default [] (resample_band 2 [[1; 5]; [2; 6]; [3; 7]])).
  assert (Hout : resample_band 2 [[1; 5]; [2; 6]; [3; 7]] = Some out)
    by (vm_compute; reflexivity).
  exists out. split; [exact Hout|].
  refine (proj1 (resample_band_preserves_mean 2 [[1; 5]; [2; 6]; [3; 7]] out 2 0 _ _ Hout)).
  - repeat constructor.
  - lia.
Defined.

(** ** Grid population *)

Lemma kernel_for_preserves {S I : Type} (body : S -> I -> option S)
    (Inv : S -> Prop) (dom : list I) :
  (forall s i s', i ∈ dom -> Inv s -> body s i = Some s' -> Inv s') ->
  forall s s', Inv s -> kernel_for body dom s = Some s' -> Inv s'.
Proof.
  induction dom as [|i dom IH]; intros Hstep s s' Hinv Hrun; cbn [kernel_for] in Hrun.
  - by injection Hrun as <-.
  - destruct (body s i) as [s1|] eqn:Hb; [|discriminate Hrun].
    apply (IH (fun s0 j s0' Hj => Hstep s0 j s0' (list_elem_of_further _ _ _ Hj)) s1 s');
      [|exact Hrun].
    apply (Hstep s i s1); [left|exact Hinv|exact Hb].
Qed.

(** What an iteration establishes, and later iterations keep, holds at the
    end for every index of the loop. *)
Lemma kernel_for_establishes {S I : Type} (body : S -> I -> option S)
    (Inv : S -> Prop) (Q : I -> S -> Prop) (dom : list I) :
  (forall s i s', i ∈ dom -> Inv s -> body s i = Some s' -> Inv s' /\ Q i s') ->
  (forall s i j s', j ∈ dom -> Inv s -> Q i s -> body s j = Some s' -> Q i s') ->
  forall s s', Inv s -> kernel_for body dom s = Some s' ->
    forall i, i ∈ dom -> Q i s'.
Proof.
  induction dom as [|j dom IH]; intros Hest Hkeep s s' Hinv Hrun i Hi.
  - by apply not_elem_of_nil in Hi.
  - cbn [kernel_for] in Hrun.
    destruct (body s j) as [s1|] eqn:Hb; [|discriminate Hrun].
    destruct (Hest s j s1 ltac:(left) Hinv Hb) as [Hinv1 HQ1].
    assert (Hest' : forall s0 i0 s0', i0 ∈ dom -> Inv s0 -> body s0 i0 = Some s0' ->
                      Inv s0' /\ Q i0 s0').
    { intros s0 i0 s0' Hi0. apply Hest. by right. }
    assert (Hkeep' : forall s0 i0 j0 s0', j0 ∈ dom -> Inv s0 -> Q i0 s0 ->
                       body s0 j0 = Some s0' -> Q i0 s0').
    { intros s0 i0 j0 s0' Hj0. apply Hkeep. by right. }
    apply elem_of_cons in Hi as [->|Hi].
    2:{ by apply (IH Hest' Hkeep' s1 s'). }
    { assert (Hboth : Inv s' /\ Q j s'); [|apply Hboth].
      refine (kernel_for_preserves body (fun s0 => Inv s0 /\ Q j s0) dom _ s1 s'
                (conj Hinv1 HQ1) Hrun).
      intros s0 i0 s0' Hi0 [Hinv0 HQ0] Hb0. split.
      * apply (Hest' s0 i0 s0' Hi0 Hinv0 Hb0).
      * apply (Hkeep' s0 j i0 s0' Hi0 Hinv0 HQ0 Hb0). }
Qed.

Lemma fmax_cases (a b : Q) : (fmax a b = a /\ b <= a) \/ (fmax a b = b /\ a < b).
Proof.
  unfold fmax. destruct (Qlt_bool a b) eqn:E.
  - right. split; [reflexivity|]. by apply Qlt_bool_iff.
  - left. split; [reflexivity|]. by apply Qlt_bool_false_iff.
Qed.

Lemma fmin_cases (a b : Q) : (fmin a b = a /\ a <= b) \/ (fmin a b = b /\ b < a).
Proof.
  unfold fmin. destruct (Qlt_bool b a) eqn:E.
  - right. split; [reflexivity|]. by apply Qlt_bool_iff.
  - left. split; [reflexivity|]. by apply Qlt_bool_false_iff.
Qed.

Lemma node_atomic_max_Some (depth : Z) (h : Q) (g g' : gmap (Z * Z) Node) (c : Z * Z) :
  node_atomic_max depth h g c = Some g' ->
  in_shape depth c
  /\ g' = <[c := {| node_height :=
                     fmax (match g !! c with
                           | Some node => node_height node
                           | None => 0
                           end) h |}]> g.
Proof.
  unfold node_atomic_max, in_shape.
  destruct (_ && _) eqn:E; [|discriminate].
  intros Hg. injection Hg as <-.
  rewrite !andb_true_iff in E. destruct E as [[[E1 E2] E3] E4].
  split; [lia|reflexivity].
Qed.

Lemma node_atomic_max_in_shape (depth : Z) (h : Q) (g : gmap (Z * Z) Node) (c : Z * Z) :
  in_shape depth c -> is_Some (node_atomic_max depth h g c).
Proof.
  intros [[H1 H2] [H3 H4]]. unfold node_atomic_max.
  replace (_ && _) with true; [done|].
  symmetry. rewrite !andb_true_iff. repeat split; lia.
Qed.

Lemma grid_le_refl (g : gmap (Z * Z) Node) : grid_le g g.
Proof. intros c n Hc. exists n. split; [exact Hc|apply Qle_refl]. Qed.

Lemma grid_le_trans (g1 g2 g3 : gmap (Z * Z) Node) :
  grid_le g1 g2 -> grid_le g2 g3 -> grid_le g1 g3.
Proof.
  intros H12 H23 c n Hc. destruct (H12 c n Hc) as (n2 & Hc2 & Hle2).
  destruct (H23 c n2 Hc2) as (n3 & Hc3 & Hle3).
  exists n3. split; [exact Hc3|]. by apply Qle_trans with (node_height n2).
Qed.

Lemma covered_le (h : Q) (g g' : gmap (Z * Z) Node) (c : Z * Z) :
  covered h g c -> grid_le g g' -> covered h g' c.
Proof.
  intros (n & Hc & Hle) Hgg. destruct (Hgg c n Hc) as (n' & Hc' & Hle').
  exists n'. split; [exact Hc'|]. by apply Qle_trans with (node_height n).
Qed.

Lemma node_atomic_max_le (depth : Z) (h : Q) (g g' : gmap (Z * Z) Node) (c : Z * Z) :
  node_atomic_max depth h g c = Some g' -> grid_le g g'.
Proof.
  intros Hg. apply node_atomic_max_Some in Hg as [_ ->].
  intros c' n Hc'. destruct (decide (c = c')) as [->|Hne].
  - rewrite lookup_insert_eq, Hc'. eexists. split; [reflexivity|].
    cbn [node_height]. destruct (fmax_cases (node_height n) h) as [[-> _]|[-> Hlt]].
    + apply Qle_refl.
    + by apply Qlt_le_weak.
  - rewrite lookup_insert_ne by exact Hne. exists n. split; [exact Hc'|apply Qle_refl].
Qed.

Lemma node_atomic_max_covers (depth : Z) (h : Q) (g g' : gmap (Z * Z) Node) (c : Z * Z) :
  node_atomic_max depth h g c = Some g' -> covered h g' c.
Proof.
  intros Hg. apply node_atomic_max_Some in Hg as [_ ->].
  eexists. rewrite lookup_insert_eq. split; [reflexivity|]. cbn [node_height].
  match goal with |- _ <= fmax ?a _ => destruct (fmax_cases a h) as [[-> Hle]|[-> _]] end.
  - exact Hle.
  - apply Qle_refl.
Qed.

(** A relation between grids that every single write satisfies holds across
    the whole kernel, provided it is reflexive and transitive. *)
Section GridLift.
Context `{MathLib}.
Variables (depth : Z) (R : gmap (Z * Z) Node -> gmap (Z * Z) Node -> Prop).
Hypothesis R_refl : forall g, R g g.
Hypothesis R_trans : forall g1 g2 g3, R g1 g2 -> R g2 g3 -> R g1 g3.

Section OneEdge.
Variable edge : Edge.
Hypothesis R_write : forall g c g',
  node_atomic_max depth (edge_height edge) g c = Some g' -> R g g'.

Lemma atomic_max_cells_lift (cells : list (Z * Z)) (g g' : gmap (Z * Z) Node) :
  kernel_for (node_atomic_max depth (edge_height edge)) cells g = Some g' -> R g g'.
Proof using R_refl R_trans R_write.
  apply (kernel_for_preserves _ (R g)); [|apply R_refl].
  intros s c s' _ Hs Hb. apply (R_trans _ s); [exact Hs|]. by apply R_write in Hb.
Qed.

Lemma x_threshold_body_lift (x_start : Z) (g g' : gmap (Z * Z) Node) (k : nat) :
  x_threshold_body depth edge x_start g k = Some g' -> R g g'.
Proof using R_refl R_trans R_write.
  unfold x_threshold_body. cbv zeta.
  destruct (crossing_y _ _ _ _) as [y|]; [|discriminate]. cbn [mbind option_bind].
  destruct (node_atomic_max _ _ g _) as [g1|] eqn:H1; [|discriminate].
  cbn [mbind option_bind].
  destruct (node_atomic_max _ _ g1 _) as [g2|] eqn:H2; [|discriminate].
  cbn [mbind option_bind]. intros H3.
  apply R_write in H1, H2. apply atomic_max_cells_lift in H3. eauto.
Qed.

Lemma y_threshold_body_lift (y_start : Z) (g g' : gmap (Z * Z) Node) (k : nat) :
  y_threshold_body depth edge y_start g k = Some g' -> R g g'.
Proof using R_refl R_trans R_write.
  unfold y_threshold_body. cbv zeta.
  destruct (crossing_x _ _ _ _) as [x|]; [|discriminate]. cbn [mbind option_bind].
  destruct (node_atomic_max _ _ g _) as [g1|] eqn:H1; [|discriminate].
  cbn [mbind option_bind].
  destruct (node_atomic_max _ _ g1 _) as [g2|] eqn:H2; [|discriminate].
  cbn [mbind option_bind]. intros H3.
  apply R_write in H1, H2. apply atomic_max_cells_lift in H3. eauto.
Qed.

Lemma x_thresholds_lift (x_start : Z) (dom : list nat) (g g' : gmap (Z * Z) Node) :
  kernel_for (x_threshold_body depth edge x_start) dom g = Some g' -> R g g'.
Proof using R_refl R_trans R_write.
  apply (kernel_for_preserves _ (R g)); [|apply R_refl].
  intros s k s' _ Hs Hb. apply (R_trans _ s); [exact Hs|].
  by apply x_threshold_body_lift in Hb.
Qed.

Lemma y_thresholds_lift (y_start : Z) (dom : list nat) (g g' : gmap (Z * Z) Node) :
  kernel_for (y_threshold_body depth edge y_start) dom g = Some g' -> R g g'.
Proof using R_refl R_trans R_write.
  apply (kernel_for_preserves _ (R g)); [|apply R_refl].
  intros s k s' _ Hs Hb. apply (R_trans _ s); [exact Hs|].
  by apply y_threshold_body_lift in Hb.
Qed.

Lemma add_edge_to_tree_lift (g g' : gmap (Z * Z) Node) :
  add_edge_to_tree depth edge g = Some g' -> R g g'.
Proof using R_refl R_trans R_write.
  unfold add_edge_to_tree. cbv zeta.
  destruct (kernel_for (x_threshold_body _ _ _) _ g) as [g1|] eqn:H1; [|discriminate].
  cbn [mbind option_bind]. intros H2.
  apply x_thresholds_lift in H1. apply y_thresholds_lift in H2. eauto.
Qed.
End OneEdge.

Lemma set_nodes_idem (T : Tracer) (g1 g2 : gmap (Z * Z) Node) :
  set_nodes (set_nodes T g1) g2 = set_nodes T g2.
Proof. reflexivity. Qed.

Lemma add_edges_to_tree_lift (T T' : Tracer) :
  (forall edge g c g', edge ∈ edges T ->
     node_atomic_max depth (edge_height edge) g c = Some g' -> R g g') ->
  add_edges_to_tree depth T = Some T' ->
  T' = set_nodes T (nodes T') /\ R (nodes T) (nodes T').
Proof using R_refl R_trans.
  intros Hwrite. unfold add_edges_to_tree.
  apply (kernel_for_preserves _
           (fun s => s = set_nodes T (nodes s) /\ R (nodes T) (nodes s))).
  - intros s i s' _ [Hs HR] Hb.
    destruct (edges s !! i) as [edge|] eqn:He; [|discriminate Hb].
    cbn [mbind option_bind] in Hb.
    destruct (add_edge_to_tree depth edge (nodes s)) as [g|] eqn:Hg; [|discriminate Hb].
    cbn [mbind option_bind] in Hb. injection Hb as <-.
    split.
    + rewrite Hs at 1. reflexivity.
    + cbn [set_nodes nodes]. apply (R_trans _ (nodes s)); [exact HR|].
      apply (add_edge_to_tree_lift edge); [|exact Hg].
      intros g0 c g0'. apply Hwrite.
      rewrite Hs in He. cbn [set_nodes edges] in He.
      by eapply list_elem_of_lookup_2.
  - split; [by destruct T|apply R_refl].
Qed.
End GridLift.

(** The kernel changes the height grid only; it never deactivates a cell or
    lowers a height, and every cell it activates lies within the field. *)
Theorem add_edges_to_tree_only_raises `{MathLib} (depth : Z) (T T' : Tracer) :
  add_edges_to_tree depth T = Some T' ->
  T' = set_nodes T (nodes T')
  /\ grid_le (nodes T) (nodes T')
  /\ (forall c, is_Some (nodes T' !! c) ->
        is_Some (nodes T !! c) \/ in_shape depth c).
Proof.
  intros Hrun.
  destruct (add_edges_to_tree_lift depth grid_le grid_le_refl grid_le_trans T T')
    as [Hframe Hle]; [|exact Hrun|].
  { intros edge g c g' _. apply node_atomic_max_le. }
  split; [exact Hframe|]. split; [exact Hle|].
  pose (R := fun g g' : gmap (Z * Z) Node =>
               forall c, is_Some (g' !! c) -> is_Some (g !! c) \/ in_shape depth c).
  assert (R_refl : forall g, R g g) by (intros g c Hc; by left).
  assert (R_trans : forall g1 g2 g3, R g1 g2 -> R g2 g3 -> R g1 g3).
  { intros g1 g2 g3 H12 H23 c Hc.
    destruct (H23 c Hc) as [Hc2|?]; [by apply H12|by right]. }
  destruct (add_edges_to_tree_lift depth R R_refl R_trans T T')
    as [_ Hnew]; [|exact Hrun|exact Hnew].
  intros edge g c g' _ Hw c' Hc'.
  apply node_atomic_max_Some in Hw as [Hin ->].
  destruct (decide (c = c')) as [->|Hne]; [by right|].
  rewrite lookup_insert_ne in Hc' by exact Hne. by left.
Qed.

Lemma add_edges_to_tree_only_raises_witness :
  exists T', add_edges_to_tree 7 offgrid_scene = Some T'
    /\ grid_le (nodes offgrid_scene) (nodes T').
Proof.
  pose (T' := default offgrid_scene (add_edges_to_tree 7 offgrid_scene)).
  assert (Hrun : add_edges_to_tree 7 offgrid_scene = Some T')
    by (vm_compute; reflexivity).
  exists T'. split; [exact Hrun|].
  exact (proj1 (proj2 (add_edges_to_tree_only_raises 7 offgrid_scene T' Hrun))).
Defined.

(** Starting from an empty grid with buildings of positive height, every
    active cell holds the height of one of the edges. *)
Theorem tree_heights_are_edge_heights `{MathLib} (depth : Z) (T T' : Tracer) :
  nodes T = ∅ ->
  (forall edge, edge ∈ edges T -> 0 < edge_height edge) ->
  add_edges_to_tree depth T = Some T' ->
  forall c n, nodes T' !! c = Some n ->
    in_shape depth c
    /\ exists edge, edge ∈ edges T /\ node_height n = edge_height edge.
Proof.
  intros Hempty Hpos Hrun.
  pose (P := fun (c : Z * Z) (q : Q) =>
               in_shape depth c /\ exists edge, edge ∈ edges T /\ q = edge_height edge).
  pose (R := fun g g' : gmap (Z * Z) Node =>
               (forall c n, g !! c = Some n -> P c (node_height n)) ->
               forall c n, g' !! c = Some n -> P c (node_height n)).
  assert (R_refl : forall g, R g g) by (intros g Hg; exact Hg).
  assert (R_trans : forall g1 g2 g3, R g1 g2 -> R g2 g3 -> R g1 g3).
  { intros g1 g2 g3 H12 H23 Hg. apply H23, H12, Hg. }
  destruct (add_edges_to_tree_lift depth R R_refl R_trans T T')
    as [_ Horigin]; [|exact Hrun|].
  { intros edge g c g' He Hw Hg c' n Hc'.
    apply node_atomic_max_Some in Hw as [Hin ->].
    destruct (decide (c = c')) as [->|Hne].
    - rewrite lookup_insert_eq in Hc'. injection Hc' as <-. cbn [node_height].
      split; [exact Hin|].
      destruct (g !! c') as [old|] eqn:Hold.
      + destruct (fmax_cases (node_height old) (edge_height edge)) as [[-> _]|[-> _]].
        * apply (Hg c' old Hold).
        * by exists edge.
      + destruct (fmax_cases 0 (edge_height edge)) as [[_ Hle]|[-> _]].
        * exfalso. apply (Qlt_not_le _ _ (Hpos edge He) Hle).
        * by exists edge.
    - rewrite lookup_insert_ne in Hc' by exact Hne. by apply Hg. }
  intros c n Hc. apply (Horigin); [|exact Hc].
  rewrite Hempty. intros c0 n0 Hc0. by rewrite lookup_empty in Hc0.
Qed.

Lemma tree_heights_are_edge_heights_witness :
  exists T', add_edges_to_tree 7 offgrid_scene = Some T'
    /\ forall c n, nodes T' !! c = Some n -> in_shape 7 c.
Proof.
  pose (T' := default offgrid_scene (add_edges_to_tree 7 offgrid_scene)).
  assert (Hrun : add_edges_to_tree 7 offgrid_scene = Some T')
    by (vm_compute; reflexivity).
  exists T'. split; [exact Hrun|].
  intros c n Hc.
  refine (proj1 (tree_heights_are_edge_heights 7 offgrid_scene T' _ _ Hrun c n Hc)).
  - reflexivity.
  - intros edge Hedge.
    apply list_elem_of_lookup in Hedge as [i Hi].
    destruct i as [|[|[|i]]]; cbn in Hi; try discriminate Hi;
      injection Hi as <-; vm_compute; reflexivity.
Defined.

Lemma Qceiling_between (x : Q) (z : Z) :
  inject_Z z < x -> x <= inject_Z z + 1 -> Qceiling x = (z + 1)%Z.
Proof.
  intros Hlo Hhi. unfold Qceiling.
  rewrite (Qfloor_unique (- x) (- (z + 1))%Z).
  - lia.
  - rewrite inject_Z_opp, inject_Z_plus. change (inject_Z 1) with 1. lra.
  - replace (- (z + 1) + 1)%Z with (- z)%Z by lia. rewrite inject_Z_opp. lra.
Qed.

Lemma Qfloor_strictly_between (x : Q) (z : Z) :
  inject_Z z < x -> x < inject_Z z + 1 -> Qfloor x = z.
Proof.
  intros Hlo Hhi. apply Qfloor_unique; [lra|].
  rewrite inject_Z_plus. exact Hhi.
Qed.

(** An edge that lies strictly inside one cell crosses no grid line: the
    kernel leaves the grid as it is. *)
Theorem edge_inside_one_cell_is_not_registered `{MathLib} (depth : Z) (edge : Edge)
    (grid : gmap (Z * Z) Node) (i j : Z) :
  inject_Z i < vx (e_start edge) -> vx (e_start edge) < inject_Z i + 1 ->
  inject_Z i < vx (e_end edge) -> vx (e_end edge) < inject_Z i + 1 ->
  inject_Z j < vy (e_start edge) -> vy (e_start edge) < inject_Z j + 1 ->
  inject_Z j < vy (e_end edge) -> vy (e_end edge) < inject_Z j + 1 ->
  add_edge_to_tree depth edge grid = Some grid.
Proof.
  intros Hx0 Hx0' Hx1 Hx1' Hy0 Hy0' Hy1 Hy1'.
  unfold add_edge_to_tree. cbv zeta.
  assert (Hxs : Qceiling (fmin (vx (e_start edge)) (vx (e_end edge))) = (i + 1)%Z).
  { destruct (fmin_cases (vx (e_start edge)) (vx (e_end edge))) as [[-> _]|[-> _]];
      apply Qceiling_between; lra. }
  assert (Hxe : Qfloor (fmax (vx (e_start edge)) (vx (e_end edge))) = i).
  { destruct (fmax_cases (vx (e_start edge)) (vx (e_end edge))) as [[-> _]|[-> _]];
      apply Qfloor_strictly_between; lra. }
  assert (Hys : Qceiling (fmin (vy (e_start edge)) (vy (e_end edge))) = (j + 1)%Z).
  { destruct (fmin_cases (vy (e_start edge)) (vy (e_end edge))) as [[-> _]|[-> _]];
      apply Qceiling_between; lra. }
  assert (Hye : Qfloor (fmax (vy (e_start edge)) (vy (e_end edge))) = j).
  { destruct (fmax_cases (vy (e_start edge)) (vy (e_end edge))) as [[-> _]|[-> _]];
      apply Qfloor_strictly_between; lra. }
  rewrite Hxs, Hxe, Hys, Hye.
  replace (1 + i - (i + 1))%Z with 0%Z by lia.
  replace (1 + j - (j + 1))%Z with 0%Z by lia.
  reflexivity.
Qed.

Lemma edge_inside_one_cell_is_not_registered_witness :
  add_edge_to_tree 7
    (make_edge (demo_config 2 (3 # 2) 400 100) 0 3 (Vec2 (21 # 4) (21 # 4))
       (Vec2 (23 # 4) (11 # 2)) 0) ∅
  = Some ∅.
Proof.
  apply (edge_inside_one_cell_is_not_registered 7 _ ∅ 5 5); vm_compute; reflexivity.
Defined.

(** The thickening tests compare the normal angle as [atan2] returned it, in
    [-pi, pi], with bounds up to [2 pi]: an edge with a negative normal angle
    is never thickened, and of the five branches only three can be taken. *)
Theorem thickening_branches_taken `{MathLib} (normal_theta : Q) (x y : Z) :
  0 < pi -> normal_theta <= pi ->
  (normal_theta < 0 ->
   x_thicken_cells normal_theta x y = [] /\ y_thicken_cells normal_theta x y = [])
  /\ (0 <= normal_theta -> normal_theta < pi / 4 ->
      x_thicken_cells normal_theta x y = [(x - 2, y); (x - 1, y)]%Z
      /\ y_thicken_cells normal_theta x y = [])
  /\ (pi / 4 <= normal_theta -> normal_theta < 3 * pi / 4 ->
      x_thicken_cells normal_theta x y = []
      /\ y_thicken_cells normal_theta x y = [(x, y - 2); (x, y - 1)]%Z)
  /\ (3 * pi / 4 <= normal_theta ->
      x_thicken_cells normal_theta x y = [(x, y); (x + 1, y)]%Z
      /\ y_thicken_cells normal_theta x y = []).
Proof.
  intros Hpi Hle.
  assert (Bt : forall a b : Q, a <= b -> Qle_bool a b = true)
    by (intros a b; apply Qle_bool_iff).
  assert (Bf : forall a b : Q, b < a -> Qle_bool a b = false).
  { intros a b Hlt. destruct (Qle_bool a b) eqn:E; [|reflexivity].
    apply Qle_bool_iff in E. exfalso. apply (Qlt_not_le _ _ Hlt E). }
  assert (Lt : forall a b : Q, a < b -> Qlt_bool a b = true)
    by (intros a b; apply Qlt_bool_iff).
  assert (Lf : forall a b : Q, b <= a -> Qlt_bool a b = false)
    by (intros a b; apply Qlt_bool_false_iff).
  unfold x_thicken_cells, y_thicken_cells.
  split; [|split; [|split]].
  - intros Hneg.
    rewrite (Bf 0 normal_theta), (Bf (3 * pi / 4) normal_theta),
      (Bf (7 * pi / 4) normal_theta), (Bf (pi / 4) normal_theta),
      (Bf (5 * pi / 4) normal_theta) by qlra.
    split; reflexivity.
  - intros H0 H1.
    rewrite (Bt 0 normal_theta), (Lt normal_theta (pi / 4)),
      (Bf (pi / 4) normal_theta), (Bf (5 * pi / 4) normal_theta) by qlra.
    split; reflexivity.
  - intros H0 H1.
    rewrite (Lf normal_theta (pi / 4)), (Bf (3 * pi / 4) normal_theta),
      (Bf (7 * pi / 4) normal_theta), (Bt (pi / 4) normal_theta),
      (Lt normal_theta (3 * pi / 4)) by qlra.
    rewrite andb_false_r. split; reflexivity.
  - intros H0.
    rewrite (Lf normal_theta (pi / 4)), (Bt (3 * pi / 4) normal_theta),
      (Lt normal_theta (5 * pi / 4)), (Lf normal_theta (3 * pi / 4)),
      (Bf (5 * pi / 4) normal_theta) by qlra.
    rewrite !andb_false_r. split; reflexivity.
Qed.

Lemma thickening_branches_taken_witness :
  x_thicken_cells (- (1 # 2)) 5 5 = [] /\ y_thicken_cells (- (1 # 2)) 5 5 = [].
Proof.
  refine (proj1 (thickening_branches_taken (- (1 # 2)) 5 5 _ _) _).
  - vm_compute; reflexivity.
  - vm_compute. intros E; discriminate E.
  - vm_compute; reflexivity.
Defined.





Section Crossings.
Context `{MathLib}.
Variables (depth : Z) (edge : Edge).

Lemma add_edge_to_tree_le (g g' : gmap (Z * Z) Node) :
  add_edge_to_tree depth edge g = Some g' -> grid_le g g'.
Proof.
  apply (add_edge_to_tree_lift depth grid_le grid_le_refl grid_le_trans).
  intros g0 c g0'. apply node_atomic_max_le.
Qed.

Lemma x_crossing_covered_le (g g' : gmap (Z * Z) Node) (x : Z) :
  x_crossing_covered edge g x -> grid_le g g' -> x_crossing_covered edge g' x.
Proof.
  intros Hc Hle y Hy. destruct (Hc y Hy) as [H1 H2].
  split; eapply covered_le; eauto.
Qed.

Lemma y_crossing_covered_le (g g' : gmap (Z * Z) Node) (y : Z) :
  y_crossing_covered edge g y -> grid_le g g' -> y_crossing_covered edge g' y.
Proof.
  intros Hc Hle x Hx. destruct (Hc x Hx) as [H1 H2].
  split; eapply covered_le; eauto.
Qed.

Lemma x_threshold_body_covers (x_start : Z) (g g' : gmap (Z * Z) Node) (k : nat) :
  x_threshold_body depth edge x_start g k = Some g' ->
  grid_le g g' /\ x_crossing_covered edge g' (x_start + Z.of_nat k).
Proof.
  intros Hb. split.
  { revert Hb. apply (x_threshold_body_lift depth grid_le grid_le_refl grid_le_trans).
    intros g0 c g0'. apply node_atomic_max_le. }
  unfold x_threshold_body in Hb. cbv zeta in Hb. intros y Hy.
  rewrite Hy in Hb. cbn [mbind option_bind] in Hb.
  destruct (node_atomic_max _ _ g _) as [g1|] eqn:H1; [|discriminate].
  cbn [mbind option_bind] in Hb.
  destruct (node_atomic_max _ _ g1 _) as [g2|] eqn:H2; [|discriminate].
  cbn [mbind option_bind] in Hb.
  assert (H3 : grid_le g2 g').
  { revert Hb. apply (atomic_max_cells_lift depth grid_le grid_le_refl grid_le_trans).
    intros g0 c g0'. apply node_atomic_max_le. }
  pose proof (node_atomic_max_covers _ _ _ _ _ H1) as C1.
  pose proof (node_atomic_max_covers _ _ _ _ _ H2) as C2.
  apply node_atomic_max_le in H2.
  split.
  - eapply covered_le; [eapply covered_le; [exact C1|exact H2]|exact H3].
  - eapply covered_le; [exact C2|exact H3].
Qed.

Lemma y_threshold_body_covers (y_start : Z) (g g' : gmap (Z * Z) Node) (k : nat) :
  y_threshold_body depth edge y_start g k = Some g' ->
  grid_le g g' /\ y_crossing_covered edge g' (y_start + Z.of_nat k).
Proof.
  intros Hb. split.
  { revert Hb. apply (y_threshold_body_lift depth grid_le grid_le_refl grid_le_trans).
    intros g0 c g0'. apply node_atomic_max_le. }
  unfold y_threshold_body in Hb. cbv zeta in Hb. intros x Hx.
  rewrite Hx in Hb. cbn [mbind option_bind] in Hb.
  destruct (node_atomic_max _ _ g _) as [g1|] eqn:H1; [|discriminate].
  cbn [mbind option_bind] in Hb.
  destruct (node_atomic_max _ _ g1 _) as [g2|] eqn:H2; [|discriminate].
  cbn [mbind option_bind] in Hb.
  assert (H3 : grid_le g2 g').
  { revert Hb. apply (atomic_max_cells_lift depth grid_le grid_le_refl grid_le_trans).
    intros g0 c g0'. apply node_atomic_max_le. }
  pose proof (node_atomic_max_covers _ _ _ _ _ H1) as C1.
  pose proof (node_atomic_max_covers _ _ _ _ _ H2) as C2.
  apply node_atomic_max_le in H2.
  split.
  - eapply covered_le; [eapply covered_le; [exact C1|exact H2]|exact H3].
  - eapply covered_le; [exact C2|exact H3].
Qed.

(** After the pass over one edge every grid line between its end points has
    its two cells covered. *)
Lemma add_edge_to_tree_covers (g g' : gmap (Z * Z) Node) :
  add_edge_to_tree depth edge g = Some g' ->
  (forall x, (Qceiling (fmin (vx (e_start edge)) (vx (e_end edge))) <= x
              <= Qfloor (fmax (vx (e_start edge)) (vx (e_end edge))))%Z ->
             x_crossing_covered edge g' x)
  /\ (forall y, (Qceiling (fmin (vy (e_start edge)) (vy (e_end edge))) <= y
                 <= Qfloor (fmax (vy (e_start edge)) (vy (e_end edge))))%Z ->
                y_crossing_covered edge g' y).
Proof.
  unfold add_edge_to_tree. cbv zeta.
  set (xs := Qceiling (fmin (vx (e_start edge)) (vx (e_end edge)))).
  set (xe := Qfloor (fmax (vx (e_start edge)) (vx (e_end edge)))).
  set (ys := Qceiling (fmin (vy (e_start edge)) (vy (e_end edge)))).
  set (ye := Qfloor (fmax (vy (e_start edge)) (vy (e_end edge)))).
  destruct (kernel_for (x_threshold_body _ _ _) _ g) as [g1|] eqn:H1; [|discriminate].
  cbn [mbind option_bind]. intros H2.
  assert (Hle2 : grid_le g1 g').
  { revert H2. apply (y_thresholds_lift depth grid_le grid_le_refl grid_le_trans).
    intros g0 c g0'. apply node_atomic_max_le. }
  split.
  - intros x Hx.
    apply (x_crossing_covered_le g1); [|exact Hle2].
    pose proof (kernel_for_establishes (x_threshold_body depth edge xs)
                  (fun _ => True) (fun k s => x_crossing_covered edge s (xs + Z.of_nat k))
                  (seq 0 (Z.to_nat (1 + xe - xs)))) as Hest.
    replace x with (xs + Z.of_nat (Z.to_nat (x - xs)))%Z by lia.
    apply (Hest) with (s := g); [..|exact I|exact H1|].
    + intros s k s' _ _ Hb. split; [exact I|].
      apply x_threshold_body_covers in Hb as [_ Hb]. exact Hb.
    + intros s k j s' _ _ Hq Hb. apply (x_crossing_covered_le s); [exact Hq|].
      apply x_threshold_body_covers in Hb as [Hb _]. exact Hb.
    + apply elem_of_seq. lia.
  - intros y Hy.
    pose proof (kernel_for_establishes (y_threshold_body depth edge ys)
                  (fun _ => True) (fun k s => y_crossing_covered edge s (ys + Z.of_nat k))
                  (seq 0 (Z.to_nat (1 + ye - ys)))) as Hest.
    replace y with (ys + Z.of_nat (Z.to_nat (y - ys)))%Z by lia.
    apply (Hest) with (s := g1); [..|exact I|exact H2|].
    + intros s k s' _ _ Hb. split; [exact I|].
      apply y_threshold_body_covers in Hb as [_ Hb]. exact Hb.
    + intros s k j s' _ _ Hq Hb. apply (y_crossing_covered_le s); [exact Hq|].
      apply y_threshold_body_covers in Hb as [Hb _]. exact Hb.
    + apply elem_of_seq. lia.
Qed.
End Crossings.

(** Every grid line an edge crosses has, at the end of the kernel, the two
    cells on either side of the crossing active and at least as high as the
    edge. *)
Theorem edge_crossings_are_registered `{MathLib} (depth : Z) (T T' : Tracer)
    (i : nat) (edge : Edge) :
  add_edges_to_tree depth T = Some T' ->
  edges T !! i = Some edge ->
  let x0 := vx (e_start edge) in
  let y0 := vy (e_start edge) in
  let x1 := vx (e_end edge) in
  let y1 := vy (e_end edge) in
  let h := edge_height edge in
  (forall x y, (Qceiling (fmin x0 x1) <= x <= Qfloor (fmax x0 x1))%Z ->
     crossing_y (edge_fslope edge) x0 y0 x = Some y ->
     covered h (nodes T') (x - 1, Qfloor y)%Z /\ covered h (nodes T') (x, Qfloor y))
  /\ (forall y x, (Qceiling (fmin y0 y1) <= y <= Qfloor (fmax y0 y1))%Z ->
        crossing_x (edge_fslope edge) x0 y0 y = Some x ->
        covered h (nodes T') (Qfloor x, y - 1)%Z /\ covered h (nodes T') (Qfloor x, y)).
Proof.
  intros Hrun Hedge. cbv zeta.
  pose (Q := fun (j : nat) (s : Tracer) =>
          forall e, edges T !! j = Some e ->
            (forall x, (Qceiling (fmin (vx (e_start e)) (vx (e_end e))) <= x
                        <= Qfloor (fmax (vx (e_start e)) (vx (e_end e))))%Z ->
                       x_crossing_covered e (nodes s) x)
            /\ (forall y, (Qceiling (fmin (vy (e_start e)) (vy (e_end e))) <= y
                           <= Qfloor (fmax (vy (e_start e)) (vy (e_end e))))%Z ->
                          y_crossing_covered e (nodes s) y)).
  assert (HQ : Q i T').
  { unfold add_edges_to_tree in Hrun.
    refine (kernel_for_establishes _ (fun s => s = set_nodes T (nodes s)) Q
              (seq 0 (length (edges T))) _ _ T T' _ Hrun i _).
    - intros s j s' _ Hs Hb.
      destruct (edges s !! j) as [e|] eqn:He; [|discriminate Hb].
      cbn [mbind option_bind] in Hb.
      destruct (add_edge_to_tree depth e (nodes s)) as [g|] eqn:Hg; [|discriminate Hb].
      cbn [mbind option_bind] in Hb. injection Hb as <-.
      split; [rewrite Hs at 1; reflexivity|].
      intros e' He'. rewrite Hs in He. cbn [set_nodes edges] in He.
      rewrite He in He'. injection He' as <-. cbn [set_nodes nodes].
      exact (add_edge_to_tree_covers depth e (nodes s) g Hg).
    - intros s j k s' _ Hs Hq Hb.
      destruct (edges s !! k) as [e|] eqn:He; [|discriminate Hb].
      cbn [mbind option_bind] in Hb.
      destruct (add_edge_to_tree depth e (nodes s)) as [g|] eqn:Hg; [|discriminate Hb].
      cbn [mbind option_bind] in Hb. injection Hb as <-.
      apply add_edge_to_tree_le in Hg.
      intros e' He'. destruct (Hq e' He') as [Hx Hy]. cbn [set_nodes nodes].
      split.
      + intros x Hxr. apply (x_crossing_covered_le e' (nodes s)); [by apply Hx|exact Hg].
      + intros y Hyr. apply (y_crossing_covered_le e' (nodes s)); [by apply Hy|exact Hg].
    - by destruct T.
    - apply elem_of_seq. apply lookup_lt_Some in Hedge. lia. }
  destruct (HQ edge Hedge) as [Hx Hy]. split.
  - intros x y Hxr Hcy. by apply (Hx x Hxr).
  - intros y x Hyr Hcx. by apply (Hy y Hyr).
Qed.

Lemma edge_crossings_are_registered_witness :
  exists T' edge y,
    add_edges_to_tree 7 offgrid_scene = Some T'
    /\ edges offgrid_scene !! 0%nat = Some edge
    /\ crossing_y (edge_fslope edge) (vx (e_start edge)) (vy (e_start edge)) 6 = Some y
    /\ covered (edge_height edge) (nodes T') (6 - 1, Qfloor y)%Z
    /\ covered (edge_height edge) (nodes T') (6%Z, Qfloor y).
Proof.
  pose (T' := default offgrid_scene (add_edges_to_tree 7 offgrid_scene)).
  assert (Hrun : add_edges_to_tree 7 offgrid_scene = Some T')
    by (vm_compute; reflexivity).
  pose (edge := default (make_edge (config offgrid_scene) 0 0 (Vec2 0 0) (Vec2 0 0) 0)
                  (edges offgrid_scene !! 0%nat)).
  assert (Hedge : edges offgrid_scene !! 0%nat = Some edge) by reflexivity.
  pose (y := default 0 (crossing_y (edge_fslope edge) (vx (e_start edge))
                          (vy (e_start edge)) 6)).
  assert (Hy : crossing_y (edge_fslope edge) (vx (e_start edge)) (vy (e_start edge)) 6
               = Some y) by (vm_compute; reflexivity).
  exists T', edge, y. split; [exact Hrun|]. split; [exact Hedge|]. split; [exact Hy|].
  destruct (edge_crossings_are_registered 7 offgrid_scene T' 0 edge Hrun Hedge)
    as [Hx _].
  apply (Hx 6%Z y); [|exact Hy].
  vm_compute. split; intros E; discriminate E.
Defined.

(** ** When the kernel stays within the field *)

Lemma fmin_le (a b : Q) : fmin a b <= a /\ fmin a b <= b.
Proof. destruct (fmin_cases a b) as [[-> ?]|[-> ?]]; split; lra. Qed.

Lemma fmax_ge (a b : Q) : a <= fmax a b /\ b <= fmax a b.
Proof. destruct (fmax_cases a b) as [[-> ?]|[-> ?]]; split; lra. Qed.

(** A point of the line through (a0, b0) and (a1, b1) whose first coordinate
    lies between a0 and a1 has its second between b0 and b1. *)
Lemma on_segment (a0 a1 b0 b1 s t : Q) :
  s * (a1 - a0) == b1 - b0 ->
  fmin a0 a1 <= t -> t <= fmax a0 a1 ->
  fmin b0 b1 <= s * (t - a0) + b0 /\ s * (t - a0) + b0 <= fmax b0 b1.
Proof.
  intros Hs Hlo Hhi.
  destruct (fmin_le b0 b1) as [Hb0 Hb1]. destruct (fmax_ge b0 b1) as [Hb0' Hb1'].
  assert (Hv : s * (t - a0) + b0 == b1 - s * (a1 - t)).
  { assert (E : s * (t - a0) + s * (a1 - t) == s * (a1 - a0)) by ring. lra. }
  set (y := s * (t - a0) + b0) in *.
  assert (Hy : y - b0 == s * (t - a0)) by (unfold y; ring).
  assert (Hcases : (a0 <= t /\ t <= a1) \/ (a1 <= t /\ t <= a0)).
  { destruct (fmin_cases a0 a1) as [[E1 ?]|[E1 ?]];
      destruct (fmax_cases a0 a1) as [[E2 ?]|[E2 ?]]; rewrite E1 in Hlo; rewrite E2 in Hhi.
    - left. split; lra.
    - left. split; lra.
    - right. split; lra.
    - right. split; lra. }
  destruct (Qlt_le_dec s 0) as [Hneg|Hpos]; destruct Hcases as [[H1 H2]|[H1 H2]].
  - assert (s * (t - a0) <= 0) by (clear - Hneg H1; nra).
    assert (s * (a1 - t) <= 0) by (clear - Hneg H2; nra).
    split; lra.
  - assert (0 <= s * (t - a0)) by (clear - Hneg H2; nra).
    assert (0 <= s * (a1 - t)) by (clear - Hneg H1; nra).
    split; lra.
  - assert (0 <= s * (t - a0)) by (clear - Hpos H1; nra).
    assert (0 <= s * (a1 - t)) by (clear - Hpos H2; nra).
    split; lra.
  - assert (s * (t - a0) <= 0) by (clear - Hpos H2; nra).
    assert (s * (a1 - t) <= 0) by (clear - Hpos H1; nra).
    split; lra.
Qed.

Lemma Qfloor_bounds (q : Q) (lo hi : Z) :
  inject_Z lo <= q -> q <= inject_Z hi -> (lo <= Qfloor q <= hi)%Z.
Proof.
  intros Hlo Hhi. split.
  - rewrite <- (Qfloor_Z lo). by apply Qfloor_resp_le.
  - rewrite <- (Qfloor_Z hi). by apply Qfloor_resp_le.
Qed.

Lemma threshold_in_range (lo hi : Q) (z : Z) :
  (Qceiling lo <= z <= Qfloor hi)%Z -> lo <= inject_Z z /\ inject_Z z <= hi.
Proof.
  intros [H1 H2]. split.
  - eapply Qle_trans; [apply Qle_ceiling|]. by rewrite <- Zle_Qle.
  - eapply Qle_trans; [|apply Qfloor_le]. by rewrite <- Zle_Qle.
Qed.

Lemma off_grid_line_no_threshold (a b v : Q) :
  off_grid_line v = true -> a == v -> b == v ->
  (1 + Qfloor b - Qceiling a)%Z = 0%Z.
Proof.
  intros Hoff Ha Hb. rewrite Ha, Hb.
  unfold off_grid_line in Hoff. apply negb_true_iff in Hoff.
  assert (Hne : ~ inject_Z (Qfloor v) == v).
  { intros E. apply Qeq_bool_iff in E. congruence. }
  pose proof (Qfloor_le v) as Hlo. pose proof (Qlt_floor v) as Hhi.
  rewrite inject_Z_plus in Hhi. change (inject_Z 1) with 1 in Hhi.
  assert (Hlt : inject_Z (Qfloor v) < v).
  { apply Qle_lteq in Hlo as [Hlt|Heq]; [exact Hlt|contradiction]. }
  rewrite (Qceiling_between v (Qfloor v)) by lra. lia.
Qed.

Lemma atomic_max_cells_complete (depth : Z) (h : Q) (cells : list (Z * Z)) :
  Forall (in_shape depth) cells ->
  forall g, is_Some (kernel_for (node_atomic_max depth h) cells g).
Proof.
  induction 1 as [|c cells Hc Hcells IH]; intros g; cbn [kernel_for]; [done|].
  destruct (node_atomic_max_in_shape depth h g c Hc) as [g1 ->]. apply IH.
Qed.

Lemma kernel_for_completes {S I : Type} (body : S -> I -> option S) (dom : list I) :
  (forall s i, i ∈ dom -> is_Some (body s i)) ->
  forall s, is_Some (kernel_for body dom s).
Proof.
  intros Hb s.
  destruct (kernel_for_invariant body (fun _ _ => True) dom [] s Logic.I) as (s' & Hs & _).
  - intros done i s0 Hi _. destruct (Hb s0 i Hi) as [s1 Hs1]. by exists s1.
  - by exists s'.
Qed.

Section Completes.
Context `{MathLib}.
Variables (depth : Z) (edge : Edge).

Lemma x_threshold_body_completes (x_start : Z) (g : gmap (Z * Z) Node) (k : nat) (y : Q) :
  crossing_y (edge_fslope edge) (vx (e_start edge)) (vy (e_start edge))
    (x_start + Z.of_nat k) = Some y ->
  (2 <= x_start + Z.of_nat k <= 2 ^ depth - 2)%Z ->
  (0 <= Qfloor y < 2 ^ depth)%Z ->
  is_Some (x_threshold_body depth edge x_start g k).
Proof.
  intros Hy Hx Hfy. unfold x_threshold_body. cbv zeta. rewrite Hy.
  cbn [mbind option_bind].
  destruct (node_atomic_max_in_shape depth (edge_height edge) g
              (x_start + Z.of_nat k - 1, Qfloor y)%Z) as [g1 ->].
  { split; cbn [fst snd]; lia. }
  cbn [mbind option_bind].
  destruct (node_atomic_max_in_shape depth (edge_height edge) g1
              (x_start + Z.of_nat k, Qfloor y)%Z) as [g2 ->].
  { split; cbn [fst snd]; lia. }
  cbn [mbind option_bind]. apply atomic_max_cells_complete.
  unfold x_thicken_cells.
  repeat match goal with |- context [if ?c then _ else _] => destruct c end;
    repeat constructor; cbn [fst snd]; lia.
Qed.

Lemma y_threshold_body_completes (y_start : Z) (g : gmap (Z * Z) Node) (k : nat) (x : Q) :
  crossing_x (edge_fslope edge) (vx (e_start edge)) (vy (e_start edge))
    (y_start + Z.of_nat k) = Some x ->
  (2 <= y_start + Z.of_nat k <= 2 ^ depth - 2)%Z ->
  (0 <= Qfloor x < 2 ^ depth)%Z ->
  is_Some (y_threshold_body depth edge y_start g k).
Proof.
  intros Hx Hy Hfx. unfold y_threshold_body. cbv zeta. rewrite Hx.
  cbn [mbind option_bind].
  destruct (node_atomic_max_in_shape depth (edge_height edge) g
              (Qfloor x, y_start + Z.of_nat k - 1)%Z) as [g1 ->].
  { split; cbn [fst snd]; lia. }
  cbn [mbind option_bind].
  destruct (node_atomic_max_in_shape depth (edge_height edge) g1
              (Qfloor x, y_start + Z.of_nat k)%Z) as [g2 ->].
  { split; cbn [fst snd]; lia. }
  cbn [mbind option_bind]. apply atomic_max_cells_complete.
  unfold y_thicken_cells.
  repeat match goal with |- context [if ?c then _ else _] => destruct c end;
    repeat constructor; cbn [fst snd]; lia.
Qed.

Lemma add_edge_to_tree_completes (g : gmap (Z * Z) Node) :
  edge_fits depth edge = true -> is_Some (add_edge_to_tree depth edge g).
Proof.
  unfold edge_fits. cbv zeta. rewrite !andb_true_iff.
  intros [[[[[[[[Hx0 Hx0'] Hx1] Hx1'] Hy0] Hy0'] Hy1] Hy1'] Hslope].
  apply Qle_bool_iff in Hx0, Hx0', Hx1, Hx1', Hy0, Hy0', Hy1, Hy1'.
  set (x0 := vx (e_start edge)) in *. set (y0 := vy (e_start edge)) in *.
  set (x1 := vx (e_end edge)) in *. set (y1 := vy (e_end edge)) in *.
  set (far := inject_Z (2 ^ depth) - 2) in *.
  assert (Hfar : far == inject_Z (2 ^ depth - 2)).
  { unfold far, Z.sub. rewrite inject_Z_plus. reflexivity. }
  assert (Hxmin : 2 <= fmin x0 x1 /\ fmax x0 x1 <= far).
  { destruct (fmin_cases x0 x1) as [[-> _]|[-> _]];
      destruct (fmax_cases x0 x1) as [[-> _]|[-> _]]; split; assumption. }
  assert (Hymin : 2 <= fmin y0 y1 /\ fmax y0 y1 <= far).
  { destruct (fmin_cases y0 y1) as [[-> _]|[-> _]];
      destruct (fmax_cases y0 y1) as [[-> _]|[-> _]]; split; assumption. }
  assert (Hfl : forall q, 2 <= q -> q <= far -> (0 <= Qfloor q < 2 ^ depth)%Z).
  { intros q Hq Hq'. destruct (Qfloor_bounds q 2 (2 ^ depth - 2)) as [? ?];
      [exact Hq|by rewrite <- Hfar|lia]. }
  assert (Hint : forall lo hi z, 2 <= lo -> hi <= far ->
            (Qceiling lo <= z <= Qfloor hi)%Z ->
            (2 <= z <= 2 ^ depth - 2)%Z /\ lo <= inject_Z z /\ inject_Z z <= hi).
  { intros lo hi z Hlo Hhi Hz. destruct (threshold_in_range lo hi z Hz) as [Hz1 Hz2].
    split; [|by split]. split.
    - rewrite Zle_Qle. change (inject_Z 2) with 2. lra.
    - rewrite Zle_Qle, <- Hfar. lra. }
  unfold add_edge_to_tree. cbv zeta.
  fold x0 y0 x1 y1.
  set (xs := Qceiling (fmin x0 x1)). set (xe := Qfloor (fmax x0 x1)).
  set (ys := Qceiling (fmin y0 y1)). set (ye := Qfloor (fmax y0 y1)).
  assert (Hxloop : (forall k, k ∈ seq 0 (Z.to_nat (1 + xe - xs)) ->
                      exists y, crossing_y (edge_fslope edge) x0 y0 (xs + Z.of_nat k)
                                = Some y /\ 2 <= y /\ y <= far) ->
                   forall g0, is_Some (kernel_for (x_threshold_body depth edge xs)
                                         (seq 0 (Z.to_nat (1 + xe - xs))) g0)).
  { intros Hcross. apply kernel_for_completes. intros s k Hk.
    destruct (Hcross k Hk) as (y & Hy & Hy2 & Hyf).
    apply elem_of_seq in Hk.
    destruct (Hint (fmin x0 x1) (fmax x0 x1) (xs + Z.of_nat k)%Z) as [Hr _];
      [tauto|tauto|unfold xs, xe in *; lia|].
    apply (x_threshold_body_completes xs s k y Hy Hr). by apply Hfl. }
  assert (Hyloop : (forall k, k ∈ seq 0 (Z.to_nat (1 + ye - ys)) ->
                      exists x, crossing_x (edge_fslope edge) x0 y0 (ys + Z.of_nat k)
                                = Some x /\ 2 <= x /\ x <= far) ->
                   forall g0, is_Some (kernel_for (y_threshold_body depth edge ys)
                                         (seq 0 (Z.to_nat (1 + ye - ys))) g0)).
  { intros Hcross. apply kernel_for_completes. intros s k Hk.
    destruct (Hcross k Hk) as (x & Hx & Hx2 & Hxf).
    apply elem_of_seq in Hk.
    destruct (Hint (fmin y0 y1) (fmax y0 y1) (ys + Z.of_nat k)%Z) as [Hr _];
      [tauto|tauto|unfold ys, ye in *; lia|].
    apply (y_threshold_body_completes ys s k x Hx Hr). by apply Hfl. }
  assert (Hseq : forall (xx yy : option (gmap (Z * Z) Node))
                        (f : gmap (Z * Z) Node -> option (gmap (Z * Z) Node)),
             is_Some xx -> (forall g0, is_Some (f g0)) -> is_Some (xx ≫= f)).
  { intros xx _ f [g1 ->] Hf. apply Hf. }
  destruct (edge_fslope edge) as [s| |] eqn:Hfs; [| |discriminate Hslope].
  - destruct (Qeq_bool s 0) eqn:Hs0.
    + (* horizontal, off the grid lines *)
      apply andb_true_iff in Hslope as [Hyy Hoff].
      apply Qeq_bool_iff in Hyy, Hs0.
      assert (Hny : (1 + ye - ys)%Z = 0%Z).
      { unfold ye, ys. apply (off_grid_line_no_threshold _ _ y0 Hoff).
        - destruct (fmin_cases y0 y1) as [[-> _]|[-> _]]; [reflexivity|by symmetry].
        - destruct (fmax_cases y0 y1) as [[-> _]|[-> _]]; [reflexivity|by symmetry]. }
      apply Hseq; [exact None| |].
      * apply Hxloop. intros k Hk. eexists. split; [reflexivity|].
        rewrite Hs0. split; lra.
      * intros g0. rewrite Hny. done.
    + (* oblique *)
      apply Qeq_bool_iff in Hslope.
      assert (Hs0' : ~ s == 0).
      { intros E. apply Qeq_bool_iff in E. congruence. }
      apply Hseq; [exact None| |].
      * apply Hxloop. intros k Hk. eexists. split; [reflexivity|].
        apply elem_of_seq in Hk.
        destruct (Hint (fmin x0 x1) (fmax x0 x1) (xs + Z.of_nat k)%Z) as (_ & Hlo & Hhi);
          [tauto|tauto|unfold xs, xe in *; lia|].
        destruct (on_segment x0 x1 y0 y1 s (inject_Z (xs + Z.of_nat k)) Hslope Hlo Hhi)
          as [Hy Hy'].
        split; [apply Qle_trans with (fmin y0 y1)|apply Qle_trans with (fmax y0 y1)];
          tauto.
      * apply Hyloop. intros k Hk. cbn [crossing_x]. rewrite Hs0.
        eexists. split; [reflexivity|].
        apply elem_of_seq in Hk.
        destruct (Hint (fmin y0 y1) (fmax y0 y1) (ys + Z.of_nat k)%Z) as (_ & Hlo & Hhi);
          [tauto|tauto|unfold ys, ye in *; lia|].
        assert (Hinv : (1 / s) * (y1 - y0) == x1 - x0).
        { rewrite <- Hslope. field. exact Hs0'. }
        destruct (on_segment y0 y1 x0 x1 (1 / s) (inject_Z (ys + Z.of_nat k))
                    Hinv Hlo Hhi) as [Hx Hx'].
        split; [apply Qle_trans with (fmin x0 x1)|apply Qle_trans with (fmax x0 x1)];
          tauto.
  - (* vertical, off the grid lines *)
    apply andb_true_iff in Hslope as [Hxx Hoff].
    apply Qeq_bool_iff in Hxx.
    assert (Hnx : (1 + xe - xs)%Z = 0%Z).
    { unfold xe, xs. apply (off_grid_line_no_threshold _ _ x0 Hoff).
      - destruct (fmin_cases x0 x1) as [[-> _]|[-> _]]; [reflexivity|by symmetry].
      - destruct (fmax_cases x0 x1) as [[-> _]|[-> _]]; [reflexivity|by symmetry]. }
    rewrite Hnx. cbn [Z.to_nat seq kernel_for mbind option_bind].
    apply Hyloop. intros k Hk. eexists. split; [reflexivity|]. split; lra.
Qed.
End Completes.

(** The kernel completes, with every write inside the field, whenever every
    edge keeps its end points two cells away from the border of the field and
    is either oblique or parallel to an axis and off the grid lines. *)
Theorem add_edges_to_tree_completes `{MathLib} (depth : Z) (T : Tracer) :
  forallb (edge_fits depth) (edges T) = true ->
  exists T', add_edges_to_tree depth T = Some T'.
Proof.
  intros Hfits. rewrite forallb_forall in Hfits.
  destruct (kernel_for_invariant
              (fun T0 edge_ix =>
                 edge ← edges T0 !! edge_ix;
                 grid ← add_edge_to_tree depth edge (nodes T0);
                 Some (set_nodes T0 grid))
              (fun _ s => edges s = edges T) (seq 0 (length (edges T))) [] T eq_refl)
    as (T' & Hrun & _).
  - intros done i s Hi Hs. rewrite Hs.
    apply elem_of_seq in Hi.
    destruct (lookup_lt_is_Some_2 (edges T) i) as [edge Hedge]; [lia|].
    rewrite Hedge. cbn [mbind option_bind].
    destruct (add_edge_to_tree_completes depth edge (nodes s)) as [g Hg].
    { apply Hfits. apply list_elem_of_In. by eapply list_elem_of_lookup_2. }
    rewrite Hg. cbn [mbind option_bind]. eexists. split; [reflexivity|].
    cbn [set_nodes edges]. exact Hs.
  - by exists T'.
Qed.

Lemma add_edges_to_tree_completes_witness :
  exists T', add_edges_to_tree 7 offgrid_scene = Some T'.
Proof.
  apply add_edges_to_tree_completes. vm_compute; reflexivity.
Defined.

(** ** The xy traces *)










Section DivergentRay.
Variables (T : Tracer) (sensor_ix az_ix : nat) (start slope : vec2).
Hypothesis Haz : (az_ix < n_azimuths T)%nat.

End DivergentRay.



(** ** The tracer that the sensor layout builds *)

Lemma layout_xy_sensors_parent (cfg : Config) (es : list Edge) :
  forall (edge_ix : nat) (xyz_start : Z) (xy : XYSensor),
    xy ∈ layout_xy_sensors cfg es edge_ix xyz_start ->
    (edge_ix <= parent_edge_id xy < edge_ix + length es)%nat.
Proof.
  induction es as [|e es IH]; intros edge_ix xyz_start xy Hxy; cbn [layout_xy_sensors] in Hxy.
  - by apply not_elem_of_nil in Hxy.
  - apply elem_of_app in Hxy as [Hxy|Hxy].
    + apply list_elem_of_fmap in Hxy as (k & -> & _). cbn [length]. unfold init_xy_sensor.
      cbn [parent_edge_id]. lia.
    + apply IH in Hxy. cbn [length]. lia.
Qed.

Lemma layout_xy_sensors_fresh (cfg : Config) (es : list Edge) :
  forall (edge_ix : nat) (xyz_start : Z) (xy : XYSensor),
    xy ∈ layout_xy_sensors cfg es edge_ix xyz_start -> hit_count xy = 0%Z.
Proof.
  induction es as [|e es IH]; intros edge_ix xyz_start xy Hxy; cbn [layout_xy_sensors] in Hxy.
  - by apply not_elem_of_nil in Hxy.
  - apply elem_of_app in Hxy as [Hxy|Hxy].
    + apply list_elem_of_fmap in Hxy as (k & -> & _). reflexivity.
    + by apply IH in Hxy.
Qed.

Lemma layout_xyz_sensors_parent (cfg : Config) (xys : list XYSensor) (sen : XYZSensor) :
  sen ∈ layout_xyz_sensors cfg xys ->
  (parent_sensor_id sen < length xys)%nat /\ rad sen = 0.
Proof.
  unfold layout_xyz_sensors. intros Hsen.
  apply list_elem_of_bind in Hsen as (col & Hsen & Hcol).
  apply elem_of_lookup_imap in Hcol as (i & xy & -> & Hxy).
  apply list_elem_of_fmap in Hsen as (f & -> & _).
  apply lookup_lt_Some in Hxy. by split.
Qed.

Lemma tracer_azimuths_length (n : nat) (inc : Q) : length (tracer_azimuths n inc) = n.
Proof. unfold tracer_azimuths. by rewrite length_map, length_seq. Qed.

Lemma sky_elevation_centers_length `{MathLib} (n : nat) :
  length (sky_elevation_centers n) = n.
Proof. unfold sky_elevation_centers. by rewrite length_map, length_seq. Qed.

(** Whatever the edges, the tracer laid out over them has every parent index
    in range and its angle tables of the size the kernels iterate over: the
    traces and the accumulator never read past a field. *)
Theorem make_tracer_is_linked `{MathLib} (cfg : Config) (grid : gmap (Z * Z) Node)
    (bs : list Building) (es : list Edge) :
  let T := make_tracer cfg grid bs es in
  linked T = true
  /\ traceable T = Qlt_bool 0 (ray_step_size cfg)
  /\ hits T = ∅
  /\ Forall (fun xy => hit_count xy = 0%Z) (xy_sensors T)
  /\ Forall (fun sen => rad sen = 0) (xyz_sensors T).
Proof.
  cbv zeta.
  assert (Hxy : forallb (fun s => bool_decide (parent_edge_id s < length es)%nat)
                  (layout_xy_sensors cfg es 0 0) = true).
  { apply forallb_forall. intros xy Hxy. apply list_elem_of_In in Hxy.
    apply layout_xy_sensors_parent in Hxy. apply bool_decide_eq_true_2. lia. }
  assert (Hxyz : forallb (fun s => bool_decide
                            (parent_sensor_id s < length (layout_xy_sensors cfg es 0 0))%nat)
                   (layout_xyz_sensors cfg (layout_xy_sensors cfg es 0 0)) = true).
  { apply forallb_forall. intros sen Hsen. apply list_elem_of_In in Hsen.
    apply layout_xyz_sensors_parent in Hsen as [Hsen _]. by apply bool_decide_eq_true_2. }
  assert (Hl : linked (make_tracer cfg grid bs es) = true).
  { unfold linked, make_tracer. cbn [edges xy_sensors xyz_sensors azimuths elevations config].
    rewrite Hxy, Hxyz, tracer_azimuths_length, sky_elevation_centers_length.
    by rewrite !bool_decide_eq_true_2. }
  split; [exact Hl|]. split; [|split; [reflexivity|split]].
  - unfold traceable, make_tracer.
    cbn [edges xy_sensors xyz_sensors azimuths elevations config xyz_views].
    rewrite Hxy, Hxyz, tracer_azimuths_length, sky_elevation_centers_length.
    rewrite !bool_decide_eq_true_2 by reflexivity. by rewrite !andb_true_r.
  - unfold make_tracer. cbn [xy_sensors]. apply Forall_forall. intros xy Hxy'.
    by apply layout_xy_sensors_fresh in Hxy'.
  - unfold make_tracer. cbn [xyz_sensors]. apply Forall_forall. intros sen Hsen.
    by apply layout_xyz_sensors_parent in Hsen as [_ Hsen].
Qed.

(** ** The edges of a ring *)

Lemma removelast_take {A : Type} (l : list A) : removelast l = take (length l - 1) l.
Proof.
  rewrite removelast_firstn_len. f_equal. lia.
Qed.

(** A closed ring of [n + 1] coordinates gives [n] edges, each from a vertex
    to the next, the last one back to the first vertex. *)
Theorem polygon_edges_chain (boundary_coords : list vec2) :
  head boundary_coords = last boundary_coords ->
  length (polygon_edges boundary_coords) = (length boundary_coords - 1)%nat
  /\ forall k p q, boundary_coords !! k = Some p -> boundary_coords !! S k = Some q ->
       polygon_edges boundary_coords !! k = Some (p, q).
Proof.
  intros Hclosed. unfold polygon_edges. cbv zeta.
  rewrite removelast_take.
  set (n := (length boundary_coords - 1)%nat).
  assert (Hlen : length (take n boundary_coords) = n).
  { rewrite length_take. lia. }
  split.
  - rewrite length_zip_with, length_rotate, Hlen. lia.
  - intros k p q Hp Hq.
    assert (Hk : (S k < length boundary_coords)%nat) by (by eapply lookup_lt_Some).
    assert (Hkn : (k < n)%nat) by lia.
    rewrite lookup_zip_with.
    rewrite lookup_take_lt by exact Hkn. rewrite Hp. cbn [mbind option_bind].
    rewrite lookup_rotate_r by (rewrite Hlen; exact Hkn).
    rewrite Hlen. unfold rotate_nat_add.
    destruct (decide (S k = n)) as [Hlast|Hnl].
    + replace (Z.to_nat ((Z.of_nat 1 + Z.of_nat k) `mod` Z.of_nat n)) with 0%nat.
      2:{ replace (Z.of_nat 1 + Z.of_nat k)%Z with (Z.of_nat n) by lia.
          rewrite Z.mod_same by lia. reflexivity. }
      rewrite lookup_take_lt by lia.
      assert (Hq' : last boundary_coords = Some q).
      { rewrite last_lookup. replace (pred (length boundary_coords)) with (S k) by lia.
        exact Hq. }
      rewrite <- head_lookup, Hclosed, Hq'. reflexivity.
    + replace (Z.to_nat ((Z.of_nat 1 + Z.of_nat k) `mod` Z.of_nat n)) with (S k).
      2:{ rewrite Z.mod_small by lia. lia. }
      rewrite lookup_take_lt by lia. rewrite Hq. reflexivity.
Qed.

Lemma polygon_edges_chain_witness :
  length (polygon_edges triangle_ring) = 3%nat.
Proof.
  refine (proj1 (polygon_edges_chain triangle_ring _)). reflexivity.
Defined.

(** ** The flattened index ranges *)

Lemma cumsum_from_length (acc : Z) (counts : list Z) :
  length (cumsum_from acc counts) = length counts.
Proof.
  revert acc. induction counts as [|c r IH]; intros acc; cbn [cumsum_from length];
    [reflexivity|]. by rewrite IH.
Qed.

(** The start of block [i] is its end less its count. *)
Lemma cumsum_from_start (counts : list Z) :
  forall (acc : Z) (i : nat) (s e c : Z),
    (acc :: cumsum_from acc counts) !! i = Some s ->
    cumsum_from acc counts !! i = Some e ->
    counts !! i = Some c -> s = (e - c)%Z.
Proof.
  induction counts as [|c0 r IH]; intros acc i s e c Hs He Hc; [discriminate Hc|].
  destruct i as [|i]; cbn in Hs, He, Hc.
  - injection Hs as <-. injection He as <-. injection Hc as <-. lia.
  - by apply (IH (acc + c0)%Z i).
Qed.

Lemma cumsum_from_lower (counts : list Z) :
  Forall (fun c => (0 <= c)%Z) counts ->
  forall (acc : Z) (i : nat) (e c : Z),
    cumsum_from acc counts !! i = Some e -> counts !! i = Some c ->
    (acc <= e - c)%Z.
Proof.
  induction 1 as [|c0 r Hc0 Hr IH]; intros acc i e c He Hc; [discriminate Hc|].
  destruct i as [|i]; cbn in He, Hc.
  - injection He as <-. injection Hc as <-. lia.
  - specialize (IH (acc + c0)%Z i e c He Hc). lia.
Qed.

Lemma rolled_starts_take (ends : list Z) :
  ends <> [] -> rolled_starts ends = Some (0%Z :: take (length ends - 1) ends).
Proof.
  intros Hne. unfold rolled_starts, rotate.
  assert (Hlen : (0 < length ends)%nat) by (destruct ends; [done|cbn; lia]).
  rewrite Nat.mod_small by lia.
  destruct (drop (length ends - 1) ends) as [|x l] eqn:Hd.
  - apply (f_equal length) in Hd. rewrite length_drop in Hd. cbn in Hd. lia.
  - assert (Hl : l = []).
    { apply (f_equal length) in Hd. rewrite length_drop in Hd. cbn in Hd.
      destruct l; [reflexivity|cbn in Hd; lia]. }
    subst l. reflexivity.
Qed.

(** The list [i0, ..., i0, i0 + 1, ..., i0 + 1, ...] of [np.repeat]. *)
Local Abbreviation blocks i0 counts :=
  (mjoin (imap (fun (j : nat) (c : Z) => replicate (Z.to_nat c) (i0 + j)%nat) counts)).

Lemma blocks_cons (i0 : nat) (c : Z) (r : list Z) :
  blocks i0 (c :: r) = replicate (Z.to_nat c) i0 ++ blocks (S i0) r.
Proof.
  cbn [imap mjoin list_join]. rewrite Nat.add_0_r. f_equal. f_equal.
  apply imap_ext. intros j x _. cbn. f_equal. lia.
Qed.

Lemma blocks_lookup (counts : list Z) :
  Forall (fun c => (0 <= c)%Z) counts ->
  forall (i0 : nat) (acc : Z) (p i : nat),
    blocks i0 counts !! p = Some i
    <-> exists c e, (i0 <= i)%nat /\ counts !! (i - i0)%nat = Some c
          /\ cumsum_from acc counts !! (i - i0)%nat = Some e
          /\ (e - c <= acc + Z.of_nat p < e)%Z.
Proof.
  induction 1 as [|c0 r Hc0 Hr IH]; intros i0 acc p i.
  - cbn. split; [discriminate|]. intros (c & e & _ & Hc & _). discriminate Hc.
  - rewrite blocks_cons. split.
    + intros Hp. destruct (decide (p < Z.to_nat c0)%nat) as [Hlt|Hge].
      * rewrite lookup_app_l in Hp by (rewrite length_replicate; exact Hlt).
        apply lookup_replicate in Hp as [-> _].
        exists c0, (acc + c0)%Z. rewrite Nat.sub_diag. cbn. repeat split; lia.
      * rewrite lookup_app_r in Hp by (rewrite length_replicate; lia).
        rewrite length_replicate in Hp.
        apply (IH (S i0) (acc + c0)%Z) in Hp as (c & e & Hi & Hc & He & Hr').
        exists c, e. replace (i - i0)%nat with (S (i - S i0)) by lia. cbn.
        repeat split; try assumption; lia.
    + intros (c & e & Hi & Hc & He & Hr').
      destruct (decide (i = i0)) as [->|Hne].
      * rewrite Nat.sub_diag in Hc, He. cbn in Hc, He.
        injection Hc as <-. injection He as <-.
        rewrite lookup_app_l by (rewrite length_replicate; lia).
        apply lookup_replicate. split; [reflexivity|lia].
      * replace (i - i0)%nat with (S (i - S i0)) in Hc, He by lia. cbn in Hc, He.
        pose proof (cumsum_from_lower r Hr _ _ _ _ He Hc) as Hlow.
        rewrite lookup_app_r by (rewrite length_replicate; lia).
        rewrite length_replicate.
        apply (IH (S i0) (acc + c0)%Z). exists c, e.
        repeat split; try assumption; lia.
Qed.

Lemma blocks_length (counts : list Z) :
  Forall (fun c => (0 <= c)%Z) counts ->
  forall i0, Z.of_nat (length (blocks i0 counts)) = foldr Z.add 0%Z counts.
Proof.
  induction 1 as [|c0 r Hc0 Hr IH]; intros i0; [reflexivity|].
  rewrite blocks_cons, length_app, length_replicate, Nat2Z.inj_add, IH.
  cbn [foldr]. lia.
Qed.

(** *** Sensors along the edges *)

Lemma sensor_count_nonneg (inset spacing len : Q) :
  (0 <= sensor_count inset spacing len)%Z.
Proof.
  unfold sensor_count. cbv zeta.
  destruct (Qle_bool 1 _) eqn:E; [|reflexivity].
  apply Qle_bool_iff in E. rewrite <- (Qfloor_Z 0). apply Qfloor_resp_le.
  change (inject_Z 0) with 0. lra.
Qed.

Lemma edges_from_ranges `{MathLib} (cfg : Config) (flat : list (nat * Q * (vec2 * vec2))) :
  forall s0 : Z,
    let es := edges_from cfg flat s0 in
    map sensor_end_ix es = cumsum_from s0 (map sensor_ct es)
    /\ map sensor_start_ix es = take (length es) (s0 :: cumsum_from s0 (map sensor_ct es))
    /\ Forall (fun c => (0 <= c)%Z) (map sensor_ct es)
    /\ map building_id es = map (fun x => x.1.1) flat.
Proof.
  induction flat as [|[[bid height] [start_pt end_pt]] flat IH]; intros s0; cbv zeta.
  - cbn. repeat split; constructor.
  - cbn [edges_from]. cbv zeta.
    set (E := make_edge cfg bid height start_pt end_pt s0).
    assert (Hend : sensor_end_ix E = (s0 + sensor_ct E)%Z) by reflexivity.
    destruct (IH (sensor_end_ix E)) as (He & Hs & Hnn & Hb). cbv zeta in He, Hs, Hnn, Hb.
    cbn [map cumsum_from length take]. rewrite <- Hend.
    split; [by rewrite He|]. split; [|split].
    + f_equal. exact Hs.
    + constructor; [apply sensor_count_nonneg|exact Hnn].
    + cbn [fst]. f_equal. exact Hb.
Qed.

(** The sensor index ranges of the edges are those of the cumulative sum of
    the sensor counts, they tile the sensor indices from 0, and [np.repeat]
    gives every sensor index the edge whose range holds it: the rank
    [sensor_ix - sensor_start_ix] that [init_xy_sensors] computes is the rank
    of the sensor along its edge. *)
Theorem sensor_ranges_tile `{MathLib} (cfg : Config) (gdf : list (Q * list (list vec2))) :
  let es := extract_flat_edge_list cfg gdf in
  map sensor_end_ix es = np_cumsum (map sensor_ct es)
  /\ (es <> [] -> rolled_starts (map sensor_end_ix es) = Some (map sensor_start_ix es))
  /\ (forall i e, es !! i = Some e ->
        (0 <= sensor_ct e)%Z /\ sensor_end_ix e = (sensor_start_ix e + sensor_ct e)%Z)
  /\ exists parents,
       sensor_parent_ix es = Some parents
       /\ Z.of_nat (length parents) = foldr Z.add 0%Z (map sensor_ct es)
       /\ forall p i, parents !! p = Some i
            <-> exists e, es !! i = Some e
                  /\ (sensor_start_ix e <= Z.of_nat p < sensor_end_ix e)%Z.
Proof.
  cbv zeta. unfold extract_flat_edge_list.
  destruct (edges_from_ranges cfg (flatten_geometry gdf) 0) as (He & Hs & Hnn & _).
  cbv zeta in He, Hs, Hnn.
  set (es := edges_from cfg (flatten_geometry gdf) 0) in *.
  assert (Hfields : forall i e, es !! i = Some e ->
            (0 <= sensor_ct e)%Z /\ sensor_end_ix e = (sensor_start_ix e + sensor_ct e)%Z
            /\ map sensor_ct es !! i = Some (sensor_ct e)
            /\ cumsum_from 0 (map sensor_ct es) !! i = Some (sensor_end_ix e)).
  { intros i e Hi.
    assert (Hc : map sensor_ct es !! i = Some (sensor_ct e))
      by (by rewrite list_lookup_fmap, Hi).
    assert (Hee : cumsum_from 0 (map sensor_ct es) !! i = Some (sensor_end_ix e))
      by (by rewrite <- He, list_lookup_fmap, Hi).
    assert (Hss : (0%Z :: cumsum_from 0 (map sensor_ct es)) !! i = Some (sensor_start_ix e)).
    { assert (Hsi : map sensor_start_ix es !! i = Some (sensor_start_ix e))
        by (by rewrite list_lookup_fmap, Hi).
      rewrite Hs in Hsi. by apply lookup_take_Some in Hsi as [Hsi _]. }
    pose proof (cumsum_from_start _ _ _ _ _ _ Hss Hee Hc) as Hst.
    rewrite Forall_forall in Hnn.
    split; [apply Hnn; by eapply list_elem_of_lookup_2|]. split; [lia|]. by split. }
  split; [exact He|]. split; [|split].
  - intros Hne. rewrite rolled_starts_take.
    2:{ intros E. apply (f_equal length) in E. rewrite length_map in E.
        destruct es; [done|discriminate E]. }
    rewrite Hs, He, cumsum_from_length, length_map.
    destruct es as [|e0 es']; [done|]. cbn [length take].
    replace (S (length es') - 1)%nat with (length es') by lia. reflexivity.
  - intros i e Hi. destruct (Hfields i e Hi) as (? & ? & _). by split.
  - unfold sensor_parent_ix, repeat_arange.
    assert (Hall : forallb (fun c => (0 <=? c)%Z) (map sensor_ct es) = true).
    { apply forallb_forall. intros c Hc. apply list_elem_of_In in Hc.
      rewrite Forall_forall in Hnn. apply Z.leb_le. by apply Hnn. }
    rewrite Hall. eexists. split; [reflexivity|]. split.
    + apply (blocks_length _ Hnn 0%nat).
    + intros p i.
      rewrite (blocks_lookup _ Hnn 0%nat 0%Z p i). rewrite Nat.sub_0_r. split.
      * intros (c & e' & _ & Hc & He' & Hr).
        rewrite list_lookup_fmap in Hc.
        destruct (es !! i) as [e|] eqn:Hi; [|discriminate Hc].
        injection Hc as <-. exists e. split; [reflexivity|].
        destruct (Hfields i e Hi) as (_ & Hend & _ & Hee).
        rewrite Hee in He'. injection He' as <-. lia.
      * intros (e & Hi & Hr). destruct (Hfields i e Hi) as (_ & Hend & Hc & Hee).
        exists (sensor_ct e), (sensor_end_ix e). repeat split; try assumption; lia.
Qed.

(** *** Edges of the buildings *)

Lemma to_i32_small (z : Z) : (0 <= z < 2 ^ 31)%Z -> to_i32 z = z.
Proof.
  intros Hz. unfold to_i32, wrap_signed.
  change (2 ^ (32 - 1))%Z with 2147483648%Z. change (2 ^ 32)%Z with 4294967296%Z.
  change (2 ^ 31)%Z with 2147483648%Z in Hz.
  rewrite Z.mod_small by lia. lia.
Qed.

Lemma cumsum_from_upper (counts : list Z) :
  Forall (fun c => (0 <= c)%Z) counts ->
  forall (acc : Z) (i : nat) (e : Z),
    cumsum_from acc counts !! i = Some e ->
    (acc <= e <= acc + foldr Z.add 0 counts)%Z.
Proof.
  induction 1 as [|c0 r Hc0 Hr IH]; intros acc i e He; [discriminate He|].
  assert (0 <= foldr Z.add 0 r)%Z.
  { clear - Hr. induction Hr; cbn; lia. }
  destruct i as [|i]; cbn in He |- *.
  - injection He as <-. lia.
  - apply IH in He. lia.
Qed.

Lemma flatten_geometry_ids (gdf : list (Q * list (list vec2))) :
  forall i0 : nat,
    map (fun x : nat * Q * (vec2 * vec2) => x.1.1)
      (mjoin (imap (fun i row =>
                      row.2 ≫= fun geom =>
                        map (fun se => ((i0 + i)%nat, row.1, se)) (polygon_edges geom))
                gdf))
    = blocks i0 (map (fun row => Z.of_nat (row_edge_count row)) gdf).
Proof.
  induction gdf as [|row gdf IH]; intros i0; [reflexivity|].
  cbn [map]. rewrite blocks_cons. cbn [imap mjoin list_join]. rewrite map_app.
  f_equal.
  - rewrite Nat.add_0_r, Nat2Z.id. unfold row_edge_count.
    generalize (row.2). intros rings. induction rings as [|g rings IHr]; [reflexivity|].
    cbn [mbind list_bind]. rewrite map_app, length_app, replicate_add, IHr. f_equal.
    rewrite map_map. cbn [fst]. clear.
    induction (polygon_edges g) as [|se l IHl]; [reflexivity|]. cbn. by rewrite IHl.
  - rewrite <- (IH (S i0)). f_equal. f_equal. apply imap_ext. intros j r _. cbn.
    replace (i0 + S j)%nat with (S (i0 + j)) by lia. reflexivity.
Qed.

Lemma count_building_edges_lookup (es : list Edge) :
  forall (bs : list Building) (i : nat) (b : Building),
    bs !! i = Some b ->
    (0 <= edge_ct b)%Z -> (edge_ct b + Z.of_nat (length es) < 2 ^ 31)%Z ->
    exists b', count_building_edges es bs !! i = Some b'
      /\ edge_ct b' = (edge_ct b
                       + Z.of_nat (length (filter (fun j => j = i) (map building_id es))))%Z
      /\ bldg_height b' = bldg_height b /\ archetype_ix b' = archetype_ix b.
Proof.
  induction es as [|e es IH]; intros bs i b Hb H0 Hlt;
    cbn [count_building_edges fold_left map].
  - exists b. rewrite filter_nil. cbn. repeat split; [exact Hb|lia].
  - fold (count_building_edges es (alter bump_edge_ct (building_id e) bs)).
    cbn [length] in Hlt.
    rewrite filter_cons. destruct (decide (building_id e = i)) as [Heq|Hne].
    + assert (Hbump : edge_ct (bump_edge_ct b) = (edge_ct b + 1)%Z).
      { cbn [bump_edge_ct edge_ct]. apply to_i32_small. lia. }
      destruct (IH (alter bump_edge_ct (building_id e) bs) i (bump_edge_ct b))
        as (b' & Hb' & Hct & Hh & Ha).
      { rewrite Heq, list_lookup_alter_eq, Hb. reflexivity. }
      { rewrite Hbump. lia. }
      { rewrite Hbump. lia. }
      exists b'. split; [exact Hb'|]. rewrite Hbump in Hct.
      cbn [bump_edge_ct bldg_height archetype_ix] in Hh, Ha.
      cbn [length]. repeat split; try assumption. lia.
    + destruct (IH (alter bump_edge_ct (building_id e) bs) i b) as (b' & Hb' & Hct & Hh & Ha).
      { rewrite list_lookup_alter_ne by exact Hne. exact Hb. }
      { exact H0. }
      { lia. }
      exists b'. repeat split; assumption.
Qed.

Lemma count_building_edges_length (es : list Edge) :
  forall bs, length (count_building_edges es bs) = length bs.
Proof.
  induction es as [|e es IH]; intros bs; cbn [count_building_edges fold_left];
    [reflexivity|].
  fold (count_building_edges es (alter bump_edge_ct (building_id e) bs)).
  by rewrite IH, length_alter.
Qed.

Lemma blocks_count (counts : list Z) :
  Forall (fun c => (0 <= c)%Z) counts ->
  forall (i0 i : nat) (c : Z),
    (i0 <= i)%nat -> counts !! (i - i0)%nat = Some c ->
    Z.of_nat (length (filter (fun j => j = i) (blocks i0 counts))) = c.
Proof.
  induction 1 as [|c0 r Hc0 Hr IH]; intros i0 i c Hi Hc; [discriminate Hc|].
  rewrite blocks_cons, filter_app, length_app.
  assert (Hrep : forall (n a : nat),
            length (filter (fun j => j = i) (replicate n a))
            = if decide (a = i) then n else 0%nat).
  { intros n a. induction n as [|n IHn]; cbn [replicate].
    - rewrite filter_nil. by destruct (decide (a = i)).
    - rewrite filter_cons. destruct (decide (a = i)); [cbn [length]|]; by rewrite IHn. }
  assert (Hnone : forall (r' : list Z) (i1 : nat), (i < i1)%nat ->
            length (filter (fun j => j = i) (blocks i1 r')) = 0%nat).
  { intros r'. induction r' as [|c' r' IHr]; intros i1 Hi1; [reflexivity|].
    rewrite blocks_cons, filter_app, length_app, Hrep, IHr by lia.
    destruct (decide (i1 = i)); lia. }
  rewrite Hrep, Nat2Z.inj_add. destruct (decide (i0 = i)) as [->|Hne].
  - rewrite Nat.sub_diag in Hc. injection Hc as <-. rewrite Hnone by lia. lia.
  - replace (i - i0)%nat with (S (i - S i0)) in Hc by lia. cbn in Hc.
    rewrite (IH (S i0) i c) by (lia || exact Hc). lia.
Qed.

(** Below 2^31 edges, every building's edge count is the number of segments
    of its rings; the range of edge indices stored for a building has that
    many indices, and edge [j] belongs to building [i] exactly when [j] lies
    in the range of building [i]. *)
Theorem building_edge_ranges `{MathLib} (cfg : Config)
    (gdf : list (Q * list (list vec2))) (bs0 : list Building) :
  length bs0 = length gdf -> gdf <> [] ->
  Forall (fun b => edge_ct b = 0%Z) bs0 ->
  (Z.of_nat (length (extract_flat_edge_list cfg gdf)) < 2 ^ 31)%Z ->
  let es := extract_flat_edge_list cfg gdf in
  exists bs,
    set_building_edge_ranges (count_building_edges es bs0) = Some bs
    /\ length bs = length gdf
    /\ forall i b row, bs !! i = Some b -> gdf !! i = Some row ->
         edge_ct b = Z.of_nat (row_edge_count row)
         /\ edge_end_ix b = (edge_start_ix b + edge_ct b)%Z
         /\ forall j e, es !! j = Some e ->
              (building_id e = i <-> (edge_start_ix b <= Z.of_nat j < edge_end_ix b)%Z).
Proof.
  intros Hlen Hne Hzero Hsmall. cbv zeta. unfold extract_flat_edge_list in *.
  destruct (edges_from_ranges cfg (flatten_geometry gdf) 0) as (_ & _ & _ & Hids).
  cbv zeta in Hids.
  set (es := edges_from cfg (flatten_geometry gdf) 0) in *.
  set (counts := map (fun row => Z.of_nat (row_edge_count row)) gdf).
  assert (Hnn : Forall (fun c => (0 <= c)%Z) counts).
  { apply Forall_forall. intros c Hc. unfold counts in Hc.
    apply list_elem_of_fmap in Hc as (row & -> & _). lia. }
  assert (Hblocks : map building_id es = blocks 0 counts).
  { rewrite Hids. unfold flatten_geometry, counts.
    rewrite <- (flatten_geometry_ids gdf 0). reflexivity. }
  assert (Hsum : foldr Z.add 0%Z counts = Z.of_nat (length es)).
  { rewrite <- (blocks_length counts Hnn 0%nat), <- Hblocks, length_map. reflexivity. }
  set (bs1 := count_building_edges es bs0).
  assert (Hlen1 : length bs1 = length gdf).
  { unfold bs1. by rewrite count_building_edges_length. }
  assert (Hcts : map edge_ct bs1 = counts).
  { apply list_eq. intros i. rewrite list_lookup_fmap. unfold counts.
    rewrite list_lookup_fmap.
    destruct (gdf !! i) as [row|] eqn:Hrow.
    - destruct (lookup_lt_is_Some_2 bs0 i) as [b0 Hb0].
      { rewrite Hlen. by eapply lookup_lt_Some. }
      assert (Hb00 : edge_ct b0 = 0%Z).
      { rewrite Forall_forall in Hzero. apply Hzero. by eapply list_elem_of_lookup_2. }
      destruct (count_building_edges_lookup es bs0 i b0 Hb0) as (b' & Hb' & Hct & _).
      { lia. }
      { rewrite Hb00. lia. }
      fold bs1 in Hb'. rewrite Hb'. cbn. f_equal. rewrite Hct, Hblocks.
      rewrite (blocks_count counts Hnn 0 i (Z.of_nat (row_edge_count row))).
      + lia.
      + lia.
      + rewrite Nat.sub_0_r. unfold counts. by rewrite list_lookup_fmap, Hrow.
    - apply lookup_ge_None in Hrow. rewrite lookup_ge_None_2 by lia. reflexivity. }
  unfold set_building_edge_ranges. cbv zeta. fold bs1. rewrite Hcts.
  unfold np_cumsum.
  rewrite rolled_starts_take.
  2:{ intros E. apply (f_equal length) in E.
      rewrite cumsum_from_length in E. unfold counts in E. rewrite length_map in E.
      destruct gdf; [done|discriminate E]. }
  cbn [mbind option_bind]. eexists. split; [reflexivity|].
  rewrite cumsum_from_length.
  assert (Hclen : length counts = length gdf) by (unfold counts; by rewrite length_map).
  set (ends := cumsum_from 0 counts).
  assert (Helen : length ends = length gdf) by (unfold ends; by rewrite cumsum_from_length).
  split.
  - rewrite length_zip_with, length_zip_with. cbn [length].
    rewrite length_take. lia.
  - intros i b row Hb Hrow.
    apply lookup_zip_with_Some in Hb as (b1 & [st en] & -> & Hb1 & Hse).
    apply lookup_zip_with_Some in Hse as (st' & en' & Heq & Hst & Hen).
    injection Heq as <- <-. cbn [set_edge_range edge_ct edge_start_ix edge_end_ix fst snd].
    assert (Hc : counts !! i = Some (Z.of_nat (row_edge_count row))).
    { unfold counts. by rewrite list_lookup_fmap, Hrow. }
    assert (Hct : edge_ct b1 = Z.of_nat (row_edge_count row)).
    { assert (E : map edge_ct bs1 !! i = Some (edge_ct b1))
        by (by rewrite list_lookup_fmap, Hb1).
      rewrite Hcts, Hc in E. by injection E. }
    assert (Hst' : (0%Z :: ends) !! i = Some st).
    { destruct i as [|i]; [exact Hst|]. cbn in Hst |- *.
      by apply lookup_take_Some in Hst as [Hst _]. }
    pose proof (cumsum_from_start counts 0 i st en _ Hst' Hen Hc) as Hstart.
    pose proof (cumsum_from_upper counts Hnn 0 i en Hen) as Hup.
    pose proof (cumsum_from_lower counts Hnn 0 i en _ Hen Hc) as Hlow.
    assert (Hrow0 : (0 <= Z.of_nat (row_edge_count row))%Z) by lia.
    rewrite !to_i32_small by lia.
    split; [exact Hct|]. split; [lia|].
    intros j e Hj.
    assert (Hbid : blocks 0 counts !! j = Some (building_id e)).
    { rewrite <- Hblocks, list_lookup_fmap, Hj. reflexivity. }
    split.
    + intros <-. apply (blocks_lookup counts Hnn 0%nat 0%Z) in Hbid
        as (c & e' & _ & Hc' & He' & Hr).
      rewrite Nat.sub_0_r in Hc', He'. rewrite Hc in Hc'. injection Hc' as <-.
      fold ends in He'. rewrite Hen in He'. injection He' as <-. lia.
    + intros Hr.
      assert (Hi : blocks 0 counts !! j = Some i).
      { apply (blocks_lookup counts Hnn 0%nat 0%Z). exists (Z.of_nat (row_edge_count row)), en.
        rewrite Nat.sub_0_r. repeat split; try assumption; lia. }
      rewrite Hbid in Hi. by injection Hi.
Qed.

Lemma building_edge_ranges_witness :
  let cfg := demo_config 2 (3 # 2) 400 100 in
  let es := extract_flat_edge_list cfg (one_building triangle_ring) in
  exists bs,
    set_building_edge_ranges (count_building_edges es [zero_building 3]) = Some bs
    /\ length bs = 1%nat.
Proof.
  cbv zeta.
  destruct (building_edge_ranges (demo_config 2 (3 # 2) 400 100)
              (one_building triangle_ring) [zero_building 3])
    as (bs & Hbs & Hlen & _).
  - reflexivity.
  - discriminate.
  - repeat constructor.
  - vm_compute; reflexivity.
  - exists bs. split; [exact Hbs|exact Hlen].
Defined.

(** ** The solid angles of the sky patches *)

Section RealSkyFacts.
Import Reals.
Local Open Scope R_scope.

Lemma solid_angle_closed_form (az ap start : R) :
RealSky.compute_quad_solid_angle az ap start = az * (sin (start + ap) - sin start).
Proof.
unfold RealSky.compute_quad_solid_angle. pose proof PI_RGT_0. field. lra.
Qed.

Lemma band_edges_in_quadrant (n_el e : Z) :
(0 < n_el)%Z -> (0 <= e <= n_el)%Z ->
0 <= RealSky.elevation_start n_el e <= (90 - 6) * PI / 180.
Proof.
intros Hn He. unfold RealSky.elevation_start, RealAngles.elevational_aperture.
pose proof PI_RGT_0 as Hpi.
assert (Hn1 : 0 < IZR n_el) by (apply IZR_lt; lia).
assert (He0 : 0 <= IZR e) by (apply IZR_le; lia).
assert (He1 : IZR e <= IZR n_el) by (apply IZR_le; lia).
set (ap := (90 - 6) * PI / 180 / IZR n_el).
assert (Hap : ap * IZR n_el = (90 - 6) * PI / 180) by (unfold ap; field; lra).
assert (Hap0 : 0 < ap) by nra.
split; nra.
Qed.

Lemma elevation_start_succ (n_el e : Z) :
RealSky.elevation_start n_el e + RealAngles.elevational_aperture n_el
= RealSky.elevation_start n_el (e + 1).
Proof.
unfold RealSky.elevation_start. rewrite plus_IZR. ring.
Qed.

(** The patches of one band, and the bands of the sky, telescope. *)
Lemma band_sizes_telescope (sky_n n_el : Z) (k : nat) :
(0 < sky_n)%Z ->
RealSky.sum_upto k (fun e => IZR sky_n * RealSky.solid_angle sky_n n_el (Z.of_nat e))
= 2 * PI * sin (RealSky.elevation_start n_el (Z.of_nat k)).
Proof.
intros Hs. assert (Hs' : 0 < IZR sky_n) by (apply IZR_lt; lia).
induction k as [|k IH].
- cbn [RealSky.sum_upto]. unfold RealSky.elevation_start. cbn [Z.of_nat].
  rewrite Rmult_0_l, sin_0. ring.
- cbn [RealSky.sum_upto]. rewrite IH. unfold RealSky.solid_angle.
  rewrite solid_angle_closed_form, elevation_start_succ.
  replace (Z.of_nat k + 1)%Z with (Z.of_nat (S k)) by lia.
  unfold RealAngles.azimuthal_aperture. field. lra.
Qed.

Lemma solid_angle_product (sky_n n_el e : Z) :
RealSky.solid_angle sky_n n_el e
= RealAngles.azimuthal_aperture sky_n
  * (2 * cos (RealSky.elevation_start n_el e + RealAngles.elevational_aperture n_el / 2)
     * sin (RealAngles.elevational_aperture n_el / 2)).
Proof.
unfold RealSky.solid_angle. rewrite solid_angle_closed_form, form4.
set (x := RealSky.elevation_start n_el e).
set (ap := RealAngles.elevational_aperture n_el).
replace ((x + ap + x) / 2) with (x + ap / 2) by field.
replace ((x + ap - x) / 2) with (ap / 2) by field.
reflexivity.
Qed.

(** The solid angle of a patch of band [e] is the azimuthal aperture times
    the difference of the sines of the two elevations that bound the band; it
    is positive, and smaller in the band above. *)
Theorem sky_patch_solid_angles (sky_n n_el e : Z) :
(0 < sky_n)%Z -> (0 <= e < n_el)%Z ->
RealSky.solid_angle sky_n n_el e
= RealAngles.azimuthal_aperture sky_n
  * (sin (RealSky.elevation_start n_el (e + 1)) - sin (RealSky.elevation_start n_el e))
/\ 0 < RealSky.solid_angle sky_n n_el e
/\ ((e + 1 < n_el)%Z ->
    RealSky.solid_angle sky_n n_el (e + 1) < RealSky.solid_angle sky_n n_el e).
Proof.
intros Hs He.
pose proof PI_RGT_0 as Hpi.
assert (Hs' : 0 < IZR sky_n) by (apply IZR_lt; lia).
assert (Haz : 0 < RealAngles.azimuthal_aperture sky_n).
{ unfold RealAngles.azimuthal_aperture. apply Rdiv_lt_0_compat; lra. }
assert (Hn1 : 0 < IZR n_el) by (apply IZR_lt; lia).
assert (Hap0 : 0 < RealAngles.elevational_aperture n_el).
{ unfold RealAngles.elevational_aperture. apply Rdiv_lt_0_compat; lra. }
destruct (band_edges_in_quadrant n_el e) as [Hlo Hhi]; [lia|lia|].
destruct (band_edges_in_quadrant n_el (e + 1)) as [Hlo' Hhi']; [lia|lia|].
pose proof (elevation_start_succ n_el e) as Hsucc.
set (x := RealSky.elevation_start n_el e) in *.
set (x' := RealSky.elevation_start n_el (e + 1)) in *.
set (ap := RealAngles.elevational_aperture n_el) in *.
split; [|split].
- unfold RealSky.solid_angle. fold x ap. rewrite solid_angle_closed_form.
  by rewrite Hsucc.
- unfold RealSky.solid_angle. fold x ap. rewrite solid_angle_closed_form, Hsucc.
  apply Rmult_lt_0_compat; [exact Haz|].
  assert (sin x < sin x'); [|lra].
  apply sin_increasing_1; lra.
- intros Hnext.
  destruct (band_edges_in_quadrant n_el (e + 1 + 1)) as [Hlo2 Hhi2]; [lia|lia|].
  pose proof (elevation_start_succ n_el (e + 1)) as Hsucc2. fold x' ap in Hsucc2.
  rewrite !solid_angle_product. fold x x' ap.
  apply Rmult_lt_compat_l; [exact Haz|].
  assert (Hsin : 0 < sin (ap / 2)) by (apply sin_gt_0; lra).
  assert (Hcos : cos (x' + ap / 2) < cos (x + ap / 2)).
  { apply cos_decreasing_1; lra. }
  nra.
Qed.


(** The solid angles of all the patches of the sky add up to the area of the
    zone of the unit sphere between the horizon and 84 degrees,
    [2 pi sin(84 deg)]. *)
Theorem sky_solid_angles_total (sky_n : Z) (n_el : nat) :
(0 < sky_n)%Z -> (0 < n_el)%nat ->
RealSky.sum_upto n_el
  (fun e => IZR sky_n * RealSky.solid_angle sky_n (Z.of_nat n_el) (Z.of_nat e))
= 2 * PI * sin ((90 - 6) * PI / 180).
Proof.
intros Hs Hn. rewrite band_sizes_telescope by exact Hs.
f_equal. f_equal. unfold RealSky.elevation_start, RealAngles.elevational_aperture.
assert (0 < IZR (Z.of_nat n_el)) by (apply IZR_lt; lia).
field. lra.
Qed.

Lemma sky_patch_solid_angles_witness :
0 < RealSky.solid_angle 24 7 0.
Proof.
refine (proj1 (proj2 (sky_patch_solid_angles 24 7 0 _ _))); lia.
Defined.

Lemma sky_solid_angles_total_witness :
RealSky.sum_upto 7
  (fun e => IZR 24 * RealSky.solid_angle 24 (Z.of_nat 7) (Z.of_nat e))
= 2 * PI * sin ((90 - 6) * PI / 180).
Proof.
apply (sky_solid_angles_total 24 7); lia.
Defined.

End RealSkyFacts.
